(** * graphql-js: the AST visitor and the value-to-literal conversion

    A shallow embedding of [src/language/visitor.js] ([visit],
    [visitInParallel], [getVisitFn]), of [src/utilities/valueToLiteral.js]
    ([valueToLiteral], [defaultScalarValueToLiteral]) and of
    [getLiteralDefaultValue], with the properties the specification states
    about them.

    JavaScript values are immutable trees that carry the identity of the
    object they stand for: [visit] never writes to the tree it is given, it
    only writes to the copies it has just made, so an object is determined by
    its identity and its contents at the time it was built. *)

From Stdlib Require Import List String Ascii ZArith Lia Bool Arith.
From Stdlib Require Import Floats DecimalString Permutation.
Import ListNotations.
Open Scope string_scope.
Open Scope list_scope.
Set Warnings "-register-all,-inexact-float".

(** ** Values *)

(** The identity of an object.  [Host] objects were built outside [visit]
    (by the parser or by a visitor function); [Fresh] ones are the copies
    [visit] makes, numbered by its allocation counter. *)
Inductive ref : Type :=
| Host (n : nat)
| Fresh (n : nat).

(** The JavaScript values that can stand at a traversal position or come back
    from a visitor function.  [VBreak] is the frozen object [BREAK]. *)
Inductive value : Type :=
| VUndef
| VNull
| VBool (b : bool)
| VStr (s : string)
| VBreak
| VArr (r : ref) (items : list value)
| VNode (r : ref) (kind : string) (fields : list (string * value)).

(** A property key: [undefined], an array index or a field name. *)
Inductive key : Type :=
| KUndef
| KIdx (i : Z)
| KName (s : string).

Definition ref_eqb (a b : ref) : bool :=
  match a, b with
  | Host n, Host m => Nat.eqb n m
  | Fresh n, Fresh m => Nat.eqb n m
  | _, _ => false
  end.

(** [a === b]: primitives by value, objects by identity. *)
Definition strict_eq (a b : value) : bool :=
  match a, b with
  | VUndef, VUndef => true
  | VNull, VNull => true
  | VBool x, VBool y => Bool.eqb x y
  | VStr x, VStr y => String.eqb x y
  | VBreak, VBreak => true
  | VArr r _, VArr r' _ => ref_eqb r r'
  | VNode r _ _, VNode r' _ _ => ref_eqb r r'
  | _, _ => false
  end.

(** [v == null] *)
Definition is_nullish (v : value) : bool :=
  match v with VUndef | VNull => true | _ => false end.

Definition is_undefined (v : value) : bool :=
  match v with VUndef => true | _ => false end.

Definition is_null (v : value) : bool :=
  match v with VNull => true | _ => false end.

Definition is_false (v : value) : bool :=
  match v with VBool false => true | _ => false end.

Definition is_break (v : value) : bool :=
  match v with VBreak => true | _ => false end.

(** JavaScript truthiness. *)
Definition truthy (v : value) : bool :=
  match v with
  | VUndef | VNull | VBool false => false
  | VStr s => negb (String.eqb s "")
  | _ => true
  end.

(** [Array.isArray] *)
Definition isArray (v : value) : bool :=
  match v with VArr _ _ => true | _ => false end.

(** [isNode] of [language/ast]: an object whose [kind] is a string. *)
Definition isNode (v : value) : bool :=
  match v with VNode _ _ _ => true | _ => false end.

(** [node.kind], read on a node. *)
Definition kind_of (v : value) : string :=
  match v with VNode _ k _ => k | _ => "" end.

Fixpoint get_field (fields : list (string * value)) (name : string) : value :=
  match fields with
  | [] => VUndef
  | (n, v) :: rest => if String.eqb n name then v else get_field rest name
  end.

(** [obj[name] = v] on an object: an existing property keeps its place, a new
    one is added last. *)
Fixpoint set_field (fields : list (string * value)) (name : string) (v : value)
  : list (string * value) :=
  match fields with
  | [] => [(name, v)]
  | (n, w) :: rest =>
      if String.eqb n name then (n, v) :: rest
      else (n, w) :: set_field rest name v
  end.

(** [parent[key]] *)
Definition get_prop (parent : value) (k : key) : value :=
  match parent, k with
  | VArr _ items, KIdx i =>
      if (i <? 0)%Z then VUndef else nth (Z.to_nat i) items VUndef
  | VNode _ _ fields, KName s => get_field fields s
  | _, _ => VUndef
  end.

(** ** The table of child fields *)

Definition QueryDocumentKeys (kind : string) : option (list string) :=
  if String.eqb kind "Name" then Some []
  else if String.eqb kind "Document" then Some ["definitions"]
  else if String.eqb kind "OperationDefinition" then
    Some ["name"; "variableDefinitions"; "directives"; "selectionSet"]
  else if String.eqb kind "VariableDefinition" then
    Some ["variable"; "type"; "defaultValue"; "directives"]
  else if String.eqb kind "Variable" then Some ["name"]
  else if String.eqb kind "SelectionSet" then Some ["selections"]
  else if String.eqb kind "Field" then
    Some ["alias"; "name"; "arguments"; "directives"; "selectionSet"]
  else if String.eqb kind "Argument" then Some ["name"; "value"]
  else if String.eqb kind "FragmentSpread" then Some ["name"; "directives"]
  else if String.eqb kind "InlineFragment" then
    Some ["typeCondition"; "directives"; "selectionSet"]
  else if String.eqb kind "FragmentDefinition" then
    Some ["name"; "variableDefinitions"; "typeCondition"; "directives";
          "selectionSet"]
  else if String.eqb kind "IntValue" then Some []
  else if String.eqb kind "FloatValue" then Some []
  else if String.eqb kind "StringValue" then Some []
  else if String.eqb kind "BooleanValue" then Some []
  else if String.eqb kind "NullValue" then Some []
  else if String.eqb kind "EnumValue" then Some []
  else if String.eqb kind "ListValue" then Some ["values"]
  else if String.eqb kind "ObjectValue" then Some ["fields"]
  else if String.eqb kind "ObjectField" then Some ["name"; "value"]
  else if String.eqb kind "Directive" then Some ["name"; "arguments"]
  else if String.eqb kind "NamedType" then Some ["name"]
  else if String.eqb kind "ListType" then Some ["type"]
  else if String.eqb kind "NonNullType" then Some ["type"]
  else if String.eqb kind "SchemaDefinition" then
    Some ["description"; "directives"; "operationTypes"]
  else if String.eqb kind "OperationTypeDefinition" then Some ["type"]
  else if String.eqb kind "ScalarTypeDefinition" then
    Some ["description"; "name"; "directives"]
  else if String.eqb kind "ObjectTypeDefinition" then
    Some ["description"; "name"; "interfaces"; "directives"; "fields"]
  else if String.eqb kind "FieldDefinition" then
    Some ["description"; "name"; "arguments"; "type"; "directives"]
  else if String.eqb kind "InputValueDefinition" then
    Some ["description"; "name"; "type"; "defaultValue"; "directives"]
  else if String.eqb kind "InterfaceTypeDefinition" then
    Some ["description"; "name"; "interfaces"; "directives"; "fields"]
  else if String.eqb kind "UnionTypeDefinition" then
    Some ["description"; "name"; "directives"; "types"]
  else if String.eqb kind "EnumTypeDefinition" then
    Some ["description"; "name"; "directives"; "values"]
  else if String.eqb kind "EnumValueDefinition" then
    Some ["description"; "name"; "directives"]
  else if String.eqb kind "InputObjectTypeDefinition" then
    Some ["description"; "name"; "directives"; "fields"]
  else if String.eqb kind "DirectiveDefinition" then
    Some ["description"; "name"; "arguments"; "locations"]
  else if String.eqb kind "SchemaExtension" then
    Some ["directives"; "operationTypes"]
  else if String.eqb kind "ScalarTypeExtension" then
    Some ["name"; "directives"]
  else if String.eqb kind "ObjectTypeExtension" then
    Some ["name"; "interfaces"; "directives"; "fields"]
  else if String.eqb kind "InterfaceTypeExtension" then
    Some ["name"; "interfaces"; "directives"; "fields"]
  else if String.eqb kind "UnionTypeExtension" then
    Some ["name"; "directives"; "types"]
  else if String.eqb kind "EnumTypeExtension" then
    Some ["name"; "directives"; "values"]
  else if String.eqb kind "InputObjectTypeExtension" then
    Some ["name"; "directives"; "fields"]
  else None.

(** [QueryDocumentKeys[kind] ?? []] *)
Definition child_keys (kind : string) : list string :=
  match QueryDocumentKeys kind with Some ks => ks | None => [] end.

(** ** Visitors *)

(** The five arguments of a visit function. *)
Record call : Type := mkCall {
  c_node : value;
  c_key : key;
  c_parent : value;
  c_path : list key;
  c_ancestors : list value
}.

Section Visitor.

(** The state the visitor functions of one traversal read and write. *)
Variable W : Type.

(** A visit function: it runs on the visitor's state and returns any value. *)
Definition handler : Type := call -> W -> value * W.

(** What a visitor holds under the name of a kind: a function, or an object
    with optional [enter] and [leave]. *)
Inductive kind_visitor : Type :=
| KindFn (f : handler)
| KindObj (on_enter on_leave : option handler).

Record visitor : Type := mkVisitor {
  v_kind : string -> option kind_visitor;
  v_enter : option handler;
  v_leave : option handler
}.

Definition getVisitFn (v : visitor) (kind : string) (isLeaving : bool)
  : option handler :=
  match v_kind v kind with
  | Some kindVisitor =>
      match kindVisitor, isLeaving with
      | KindFn f, false => Some f
      | KindFn _, true => None
      | KindObj _ l, true => l
      | KindObj e _, false => e
      end
  | None => if isLeaving then v_leave v else v_enter v
  end.

End Visitor.

Arguments KindFn {W} f.
Arguments KindObj {W} on_enter on_leave.
Arguments mkVisitor {W} v_kind v_enter v_leave.
Arguments v_kind {W} v.
Arguments v_enter {W} v.
Arguments v_leave {W} v.
Arguments getVisitFn {W} v kind isLeaving.

(** ** Arrays and copies *)

(** [arr[i] = v]: inside the array the element is replaced, past its end the
    array grows (the skipped slots read [undefined]); a negative [i] names an
    ordinary property and leaves the elements alone. *)
Definition array_set (arr : list value) (i : Z) (v : value) : list value :=
  if (i <? 0)%Z then arr
  else
    let n := Z.to_nat i in
    if (n <? List.length arr)%nat then firstn n arr ++ v :: skipn (S n) arr
    else arr ++ repeat VUndef (n - List.length arr) ++ [v].

(** [arr.splice(i, 1)]: a negative start counts from the end. *)
Definition splice1 (arr : list value) (i : Z) : list value :=
  let len := Z.of_nat (List.length arr) in
  let start := if (i <? 0)%Z then Z.max (len + i) 0 else Z.min i len in
  let n := Z.to_nat start in
  firstn n arr ++ skipn (S n) arr.

(** A pending edit [[key, value]]. *)
Definition edit : Type := (key * value)%type.

(** The number an edit key denotes in [editKey -= editOffset]; the keys of an
    array level are always indices, anything else would be [NaN]. *)
Definition key_number (k : key) : option Z :=
  match k with KIdx i => Some i | _ => None end.

(** The loop over [edits] on leaving an array: [editKey -= editOffset], then
    [splice] for [null] and assignment otherwise. *)
Fixpoint apply_array_edits (node : list value) (edits : list edit)
  (editOffset : Z) : list value :=
  match edits with
  | [] => node
  | (k, editValue) :: rest =>
      match key_number k with
      | Some i =>
          let editKey := (i - editOffset)%Z in
          if is_null editValue
          then apply_array_edits (splice1 node editKey) rest (editOffset + 1)
          else apply_array_edits (array_set node editKey editValue) rest
                 editOffset
      | None =>
          (* NaN: [splice(NaN, 1)] starts at 0, [node[NaN] = v] is no element *)
          if is_null editValue
          then apply_array_edits (splice1 node 0) rest (editOffset + 1)
          else apply_array_edits node rest editOffset
      end
  end.

(** The same loop on leaving an object: [node[editKey] = editValue]. *)
Fixpoint apply_object_edits (fields : list (string * value))
  (edits : list edit) : list (string * value) :=
  match edits with
  | [] => fields
  | (KName s, editValue) :: rest =>
      apply_object_edits (set_field fields s editValue) rest
  | _ :: rest =>
      (* the keys of an object level are always field names *)
      apply_object_edits fields rest
  end.

(** [node.slice()] or the copy of all own properties, followed by the edits.
    The copy is a new object: it takes the next [Fresh] identity. *)
Definition clone_with_edits (inArray : bool) (node : value)
  (edits : list edit) (next : nat) : value :=
  match node with
  | VArr _ items =>
      if inArray then VArr (Fresh next) (apply_array_edits items edits 0)
      else VArr (Fresh next) items
  | VNode _ kind fields =>
      if inArray then VNode (Fresh next) kind fields
      else VNode (Fresh next) kind (apply_object_edits fields edits)
  | other => other
  end.

(** ** The traversal *)

(** The variable [keys]: the array being walked, or the list of field names
    of the node being walked.  It starts as the array [[root]]. *)
Inductive keylist : Type :=
| KValues (l : list value)
| KNames (l : list string).

Definition keys_length (ks : keylist) : Z :=
  match ks with
  | KValues l => Z.of_nat (List.length l)
  | KNames l => Z.of_nat (List.length l)
  end.

(** [keys[index]], read only below a node, where [keys] holds names. *)
Definition key_at (ks : keylist) (i : Z) : key :=
  match ks with
  | KNames l =>
      if (i <? 0)%Z then KUndef
      else match nth_error l (Z.to_nat i) with
           | Some s => KName s
           | None => KUndef
           end
  | KValues _ => KUndef
  end.

(** [inArray ? node : QueryDocumentKeys[node.kind] ?? []] *)
Definition keys_of (node : value) : keylist :=
  match node with
  | VArr _ items => KValues items
  | _ => KNames (child_keys (kind_of node))
  end.

(** One saved level [{ inArray, index, keys, edits, prev }]; [prev] is the
    rest of the list [stack]. *)
Record frame : Type := mkFrame {
  f_inArray : bool;
  f_index : Z;
  f_keys : keylist;
  f_edits : list edit
}.

(** One call of a visit function, as the traversal made it. *)
Record event : Type := mkEvent {
  ev_leaving : bool;
  ev_call : call;
  ev_result : value
}.

Section Visit.

Variable W : Type.

(** The variables of [visit] that live across iterations.  [node] and [key]
    are written at the start of every iteration before they are read, and
    [newRoot] stays [root] until the loop is over, so they are not part of
    the state.  [next] counts the copies made, [user] is the visitor's own
    state and [calls] records every call of a visit function, in order. *)
Record state : Type := mkState {
  stack : list frame;
  inArray : bool;
  keys : keylist;
  index : Z;
  edits : list edit;
  parent : value;
  path : list key;
  ancestors : list value;
  next : nat;
  user : W;
  calls : list event
}.

Definition with_index (st : state) (i : Z) : state :=
  mkState (stack st) (inArray st) (keys st) i (edits st) (parent st)
    (path st) (ancestors st) (next st) (user st) (calls st).

Definition with_path (st : state) (p : list key) : state :=
  mkState (stack st) (inArray st) (keys st) (index st) (edits st) (parent st)
    p (ancestors st) (next st) (user st) (calls st).

Definition with_edits (st : state) (e : list edit) : state :=
  mkState (stack st) (inArray st) (keys st) (index st) e (parent st)
    (path st) (ancestors st) (next st) (user st) (calls st).

(** The state after a visit function ran: its new state and the record of
    the call. *)
Definition after_call (st : state) (u : W) (e : event) : state :=
  mkState (stack st) (inArray st) (keys st) (index st) (edits st) (parent st)
    (path st) (ancestors st) (next st) u (calls st ++ [e]).

(** The last block of the loop body when not leaving: save the level and go
    down into [node]. *)
Definition descend (st : state) (node : value) : state :=
  mkState
    (mkFrame (inArray st) (index st) (keys st) (edits st) :: stack st)
    (isArray node)
    (keys_of node)
    (-1)%Z
    []
    node
    (path st)
    (if truthy (parent st) then ancestors st ++ [parent st] else ancestors st)
    (next st) (user st) (calls st).

(** How one iteration of the [do ... while] body ends: it reaches the loop
    condition ([Next], also through [continue]), it leaves the loop through
    [break], or it throws. *)
Inductive outcome : Type :=
| Next (st : state)
| Broke (st : state)
| Thrown (msg : string).

(** From [if (result === undefined && isEdited)] to the end of the body. *)
Definition finish (isLeaving isEdited : bool) (result node : value) (k : key)
  (st : state) : outcome :=
  let st1 :=
    if is_undefined result && isEdited
    then with_edits st (edits st ++ [(k, node)])
    else st in
  if isLeaving then Next (with_path st1 (removelast (path st1)))
  else Next (descend st1 node).

(** From [let result] to the end of the body. *)
Definition visit_node (v : visitor W) (isLeaving isEdited : bool)
  (node : value) (k : key) (st : state) : outcome :=
  if isArray node then finish isLeaving isEdited VUndef node k st
  else if negb (isNode node) then Thrown "Invalid AST Node"
  else
    match getVisitFn v (kind_of node) isLeaving with
    | None => finish isLeaving isEdited VUndef node k st
    | Some visitFn =>
        let c := mkCall node k (parent st) (path st) (ancestors st) in
        let (result, u) := visitFn c (user st) in
        let st1 := after_call st u (mkEvent isLeaving c result) in
        if is_break result then Broke st1
        else if is_false result then
          if negb isLeaving
          then Next (with_path st1 (removelast (path st1)))
          else finish isLeaving isEdited result node k st1
        else if negb (is_undefined result) then
          let st2 := with_edits st1 (edits st1 ++ [(k, result)]) in
          if negb isLeaving then
            if isNode result
            then finish isLeaving isEdited result result k st2
            else Next (with_path st2 (removelast (path st2)))
          else finish isLeaving isEdited result node k st2
        else finish isLeaving isEdited result node k st1
    end.

(** One iteration of the body of the loop. *)
Definition body (v : visitor W) (root : value) (st : state) : outcome :=
  let index1 := (index st + 1)%Z in
  let isLeaving := (index1 =? keys_length (keys st))%Z in
  let isEdited :=
    isLeaving && negb (Nat.eqb (List.length (edits st)) 0) in
  if isLeaving then
    match stack st with
    | [] => Thrown "TypeError: stack is undefined"
    | fr :: prev =>
        let k :=
          if Nat.eqb (List.length (ancestors st)) 0 then KUndef
          else last (path st) KUndef in
        let node :=
          if isEdited
          then clone_with_edits (inArray st) (parent st) (edits st) (next st)
          else parent st in
        let st1 :=
          mkState prev (f_inArray fr) (f_keys fr) (f_index fr) (f_edits fr)
            (last (ancestors st) VUndef)
            (path st)
            (removelast (ancestors st))
            (if isEdited then S (next st) else next st)
            (user st) (calls st) in
        visit_node v isLeaving isEdited node k st1
    end
  else
    let k :=
      if truthy (parent st)
      then (if inArray st then KIdx index1 else key_at (keys st) index1)
      else KUndef in
    let node := if truthy (parent st) then get_prop (parent st) k else root in
    let st0 := with_index st index1 in
    if is_nullish node then Next st0
    else
      let st1 :=
        if truthy (parent st) then with_path st0 (path st0 ++ [k]) else st0 in
      visit_node v isLeaving isEdited node k st1.

(** How the loop ends. *)
Inductive run : Type :=
| Stopped (st : state) (by_break : bool)
| Failed (msg : string)
| OutOfFuel.

(** [do { body } while (stack !== undefined)], with a bound on the number of
    iterations. *)
Fixpoint loop (v : visitor W) (root : value) (fuel : nat) (st : state) : run :=
  match fuel with
  | O => OutOfFuel
  | S fuel' =>
      match body v root st with
      | Thrown msg => Failed msg
      | Broke st' => Stopped st' true
      | Next st' =>
          match stack st' with
          | [] => Stopped st' false
          | _ :: _ => loop v root fuel' st'
          end
      end
  end.

Definition initial (root : value) (u : W) : state :=
  mkState [] (isArray root) (KValues [root]) (-1)%Z [] VUndef [] [] 0 u [].

(** What [visit] gives back: the value it returns with the final state, or
    the error it throws. *)
Inductive result : Type :=
| Returned (newRoot : value) (final : state) (by_break : bool)
| Threw (msg : string)
| Unfinished.

Definition visit (fuel : nat) (root : value) (v : visitor W) (u : W)
  : result :=
  match loop v root fuel (initial root u) with
  | Stopped st b =>
      let newRoot :=
        match edits st with
        | [] => root
        | e :: rest => snd (last rest e)
        end in
      Returned newRoot st b
  | Failed msg => Threw msg
  | OutOfFuel => Unfinished
  end.

End Visit.

Arguments mkState {W}.
Arguments stack {W} s.
Arguments inArray {W} s.
Arguments keys {W} s.
Arguments index {W} s.
Arguments edits {W} s.
Arguments parent {W} s.
Arguments path {W} s.
Arguments ancestors {W} s.
Arguments next {W} s.
Arguments user {W} s.
Arguments calls {W} s.
Arguments with_index {W} st i.
Arguments with_path {W} st p.
Arguments with_edits {W} st e.
Arguments after_call {W} st u e.
Arguments descend {W} st node.
Arguments Next {W} st.
Arguments Broke {W} st.
Arguments Thrown {W} msg.
Arguments finish {W}.
Arguments visit_node {W}.
Arguments body {W}.
Arguments Stopped {W} st by_break.
Arguments Failed {W} msg.
Arguments OutOfFuel {W}.
Arguments loop {W}.
Arguments initial {W}.
Arguments Returned {W} newRoot final by_break.
Arguments Threw {W} msg.
Arguments Unfinished {W}.
Arguments visit {W}.

(** ** Small trees to run the traversal on *)

Module Sample.

Definition name (n : nat) (s : string) : value :=
  VNode (Host n) "Name" [("value", VStr s)].

Definition field (n : nat) (nm : value) (sel : value) : value :=
  VNode (Host n) "Field" [("name", nm); ("selectionSet", sel)].

Definition selectionSet (n m : nat) (items : list value) : value :=
  VNode (Host n) "SelectionSet" [("selections", VArr (Host m) items)].

(** [{ a, b { x }, c }] *)
Definition tree : value :=
  selectionSet 1 2
    [ field 3 (name 4 "a") VUndef;
      field 5 (name 6 "b")
        (selectionSet 7 8 [field 9 (name 10 "x") VUndef]);
      field 11 (name 12 "c") VUndef ].

Definition node_name (v : value) : string :=
  match get_prop (get_prop v (KName "name")) (KName "value") with
  | VStr s => s
  | _ => ""
  end.

(** A visitor that does nothing. *)
Definition silent : visitor unit :=
  mkVisitor (fun _ => None)
    (Some (fun _ u => (VUndef, u))) (Some (fun _ u => (VUndef, u))).

(** A visitor with one function for the kind [Field], called on entering. *)
Definition on_field (f : call -> value) : visitor unit :=
  mkVisitor
    (fun kind =>
       if String.eqb kind "Field" then Some (KindFn (fun c u => (f c, u)))
       else None)
    None None.

(** A visitor with [enter] and [leave] for the kind [Field]. *)
Definition on_field_both (f g : call -> value) : visitor unit :=
  mkVisitor
    (fun kind =>
       if String.eqb kind "Field"
       then Some (KindObj (Some (fun c u => (f c, u)))
                          (Some (fun c u => (g c, u))))
       else None)
    None None.

Definition named (s : string) (c : call) : bool :=
  String.eqb (node_name (c_node c)) s.

(** The field [z], a node of the visitor's own making. *)
Definition z : value := field 20 (name 21 "z") VUndef.

(** [enter]: replace the field [a] by [z], stop at the field [b]. *)
Definition replace_a_break_at_b : visitor unit :=
  on_field (fun c =>
    if named "a" c then z else if named "b" c then VBreak else VUndef).

(** [enter]: replace the field [a] by [z], stop at the field [x] inside
    [b]. *)
Definition replace_a_break_at_x : visitor unit :=
  on_field (fun c =>
    if named "a" c then z else if named "x" c then VBreak else VUndef).

(** [enter]: skip the field [b]. *)
Definition skip_b : visitor unit :=
  on_field (fun c => if named "b" c then VBool false else VUndef).

(** [leave]: delete the field [x]; answer [r] on leaving [b]. *)
Definition delete_x_then (r : value) : visitor unit :=
  on_field_both (fun _ => VUndef)
    (fun c => if named "x" c then VNull else if named "b" c then r
              else VUndef).

Definition returned (r : result unit) : option value :=
  match r with Returned x _ _ => Some x | _ => None end.

Definition visited (r : result unit) : list (bool * string) :=
  match r with
  | Returned _ st _ =>
      map (fun e => (ev_leaving e, node_name (c_node (ev_call e)))) (calls st)
  | _ => []
  end.

End Sample.

(** ** Visitors in parallel *)

(** One call of a function of one of the visitors given to
    [visitInParallel]. *)
Record pevent : Type := mkPEvent {
  pe_visitor : nat;
  pe_leaving : bool;
  pe_node : value;
  pe_result : value
}.

Section Parallel.

Variable W : Type.

(** What the visitor made by [visitInParallel] works on: the array
    [skipping] it closes over, the state of the visitors it was given, and
    the record of the calls it made to them. *)
Record pstate : Type := mkPState {
  skipping : list value;
  inner : W;
  pcalls : list pevent
}.

Definition set_skipping (st : pstate) (i : nat) (x : value) : pstate :=
  mkPState (array_set (skipping st) (Z.of_nat i) x) (inner st) (pcalls st).

Definition after_pcall (st : pstate) (w : W) (e : pevent) : pstate :=
  mkPState (skipping st) w (pcalls st ++ [e]).

(** The loop of [enter], from [i] on; [vs] holds [visitors[i]] and what
    follows it. *)
Fixpoint enter_from (i : nat) (vs : list (visitor W)) (c : call)
  (st : pstate) : value * pstate :=
  match vs with
  | [] => (VUndef, st)
  | vi :: rest =>
      if is_nullish (nth i (skipping st) VUndef) then
        match getVisitFn vi (kind_of (c_node c)) false with
        | Some fn =>
            let (result, w) := fn c (inner st) in
            let st1 :=
              after_pcall st w (mkPEvent i false (c_node c) result) in
            if is_false result
            then enter_from (S i) rest c (set_skipping st1 i (c_node c))
            else if is_break result
            then enter_from (S i) rest c (set_skipping st1 i VBreak)
            else if negb (is_undefined result) then (result, st1)
            else enter_from (S i) rest c st1
        | None => enter_from (S i) rest c st
        end
      else enter_from (S i) rest c st
  end.

(** The loop of [leave], from [i] on. *)
Fixpoint leave_from (i : nat) (vs : list (visitor W)) (c : call)
  (st : pstate) : value * pstate :=
  match vs with
  | [] => (VUndef, st)
  | vi :: rest =>
      if is_nullish (nth i (skipping st) VUndef) then
        match getVisitFn vi (kind_of (c_node c)) true with
        | Some fn =>
            let (result, w) := fn c (inner st) in
            let st1 :=
              after_pcall st w (mkPEvent i true (c_node c) result) in
            if is_break result
            then leave_from (S i) rest c (set_skipping st1 i VBreak)
            else if negb (is_undefined result) && negb (is_false result)
            then (result, st1)
            else leave_from (S i) rest c st1
        | None => leave_from (S i) rest c st
        end
      else if strict_eq (nth i (skipping st) VUndef) (c_node c)
      then leave_from (S i) rest c (set_skipping st i VNull)
      else leave_from (S i) rest c st
  end.

Definition visitInParallel (visitors : list (visitor W)) : visitor pstate :=
  mkVisitor (fun _ => None)
    (Some (enter_from 0 visitors))
    (Some (leave_from 0 visitors)).

(** [new Array(visitors.length)], every slot reading [undefined]. *)
Definition parallel_start (visitors : list (visitor W)) (w : W) : pstate :=
  mkPState (repeat VUndef (List.length visitors)) w [].

(** The function of the combined visitor for one direction. *)
Definition parallel_fn (visitors : list (visitor W)) (leaving : bool)
  : handler pstate :=
  if leaving then leave_from 0 visitors else enter_from 0 visitors.

End Parallel.

Arguments mkPState {W}.
Arguments skipping {W} p.
Arguments inner {W} p.
Arguments pcalls {W} p.
Arguments set_skipping {W}.
Arguments after_pcall {W}.
Arguments enter_from {W}.
Arguments leave_from {W}.
Arguments visitInParallel {W}.
Arguments parallel_start {W}.
Arguments parallel_fn {W}.

Module SampleParallel.

Import Sample.

(** Stops at the first field it enters. *)
Definition breaker : visitor unit := on_field (fun _ => VBreak).

(** Looks at every field and does nothing. *)
Definition watcher : visitor unit := on_field (fun _ => VUndef).

(** Skips the field [b], looks at the others. *)
Definition skipper : visitor unit :=
  on_field (fun c => if named "b" c then VBool false else VUndef).

(** Replaces the field [b] by [z] on leaving it. *)
Definition editor : visitor unit :=
  on_field_both (fun _ => VUndef)
    (fun c => if named "b" c then z else VUndef).

(** The calls made to the visitor number [i], by the name of the field. *)
Definition seen_by (i : nat) (r : result (pstate unit))
  : list (bool * string) :=
  match r with
  | Returned _ st _ =>
      map (fun e => (pe_leaving e, node_name (pe_node e)))
        (filter (fun e => Nat.eqb (pe_visitor e) i) (pcalls (user st)))
  | _ => []
  end.

Definition run (visitors : list (visitor unit)) : result (pstate unit) :=
  visit 60 tree (visitInParallel visitors) (parallel_start visitors tt).

Definition aborted (r : result (pstate unit)) : option bool :=
  match r with Returned _ _ b => Some b | _ => None end.

End SampleParallel.

(** ** Trees without surprises, and what the traversal meets in them *)

(** A measure of a tree, for inductions that follow the traversal down. *)
Fixpoint size (v : value) : nat :=
  match v with
  | VArr _ items => S (list_sum (map size items))
  | VNode _ _ fields => S (list_sum (map (fun p => size (snd p)) fields))
  | _ => 0
  end.

Definition is_child_key (kind name : string) : bool :=
  existsb (String.eqb name) (child_keys kind).

(** Every traversal position of the tree holds nothing, an array or a node:
    [visit] never throws "Invalid AST Node" on it. *)
Fixpoint well_formed (v : value) : bool :=
  match v with
  | VUndef | VNull => true
  | VArr _ items => forallb well_formed items
  | VNode _ kind fields =>
      forallb
        (fun p => negb (is_child_key kind (fst p)) || well_formed (snd p))
        fields
  | _ => false
  end.

(** [occurs n t]: the value [n] stands at a traversal position of [t]. *)
Inductive occurs (n : value) : value -> Prop :=
| occurs_here : occurs n n
| occurs_item r items x :
    In x items -> occurs n x -> occurs n (VArr r items)
| occurs_field r kind fields name :
    In name (child_keys kind) -> occurs n (get_field fields name) ->
    occurs n (VNode r kind fields).

Section Run.

Variable W : Type.
Variable v : visitor W.
Variable root : value.

(** [advance n st]: the state after [n] more iterations, when each of them
    reaches the loop condition and the loop goes on. *)
Fixpoint advance (n : nat) (st : state W) : option (state W) :=
  match n with
  | O => Some st
  | S n' =>
      match body v root st with
      | Next st' =>
          match stack st' with
          | [] => None
          | _ :: _ => advance n' st'
          end
      | _ => None
      end
  end.

(** Every visit function the traversal of [t] can call returns
    [undefined]. *)
Definition quiet_on (t : value) : Prop :=
  forall n, occurs n t -> forall leaving h c u,
    getVisitFn v (kind_of n) leaving = Some h -> c_node c = n ->
    fst (h c u) = VUndef.

(** The key of slot [i] of the level being walked. *)
Definition slot_key (st : state W) (i : Z) : key :=
  if inArray st then KIdx i else key_at (keys st) i.

(** The state once the slot after the cursor is behind: only the cursor, the
    visitor's state and the record of calls differ. *)
Definition moved_on (st : state W) (u : W) (cs : list event) : state W :=
  mkState (stack st) (inArray st) (keys st) (index st + 1)%Z (edits st)
    (parent st) (path st) (ancestors st) (next st) u (calls st ++ cs).

(** The state once every slot of the level is behind. *)
Definition at_end (st : state W) (u : W) (cs : list event) : state W :=
  mkState (stack st) (inArray st) (keys st) (keys_length (keys st) - 1)%Z
    (edits st) (parent st) (path st) (ancestors st) (next st) u
    (calls st ++ cs).

Definition all_undefined (cs : list event) : Prop :=
  Forall (fun e => ev_result e = VUndef) cs.

(** Walking the subtree [c], wherever it stands, takes the loop to the next
    slot and changes nothing else. *)
Definition slot_done (c : value) : Prop :=
  forall st,
    stack st <> [] -> truthy (parent st) = true ->
    (index st + 1 < keys_length (keys st))%Z ->
    get_prop (parent st) (slot_key st (index st + 1)) = c ->
    exists n u cs, advance n st = Some (moved_on st u cs) /\ all_undefined cs.

End Run.

Arguments advance {W}.
Arguments quiet_on {W}.
Arguments slot_key {W}.
Arguments moved_on {W}.
Arguments at_end {W}.
Arguments slot_done {W}.

(** ** Edits of an array, told against the positions before any deletion *)

(** The slots of the array as they were when the level was entered: a slot
    holds its current value, or nothing once it was deleted. *)
Definition cells : Type := list (option value).

Fixpoint set_cell (cs : cells) (i : nat) (c : option value) : cells :=
  match cs, i with
  | [], _ => []
  | _ :: rest, O => c :: rest
  | x :: rest, S j => x :: set_cell rest j c
  end.

(** One edit, applied at the position its key named when it was recorded. *)
Definition edit_cell (cs : cells) (e : edit) : cells :=
  match e with
  | (KIdx i, x) =>
      set_cell cs (Z.to_nat i) (if is_null x then None else Some x)
  | _ => cs
  end.

(** The array that is left: the deleted slots close up. *)
Fixpoint compact (cs : cells) : list value :=
  match cs with
  | [] => []
  | Some x :: rest => x :: compact rest
  | None :: rest => compact rest
  end.

(** The edits in the order they were made, each at its original position. *)
Definition edits_at_original_positions (arr : list value) (es : list edit)
  : list value :=
  compact (fold_left edit_cell es (map Some arr)).

(** The edits a traversal records for an array of [n] elements: index keys
    inside the array, never going back, and nothing more for a slot once it
    was deleted.  [lo] is the least key the next edit may have. *)
Fixpoint ordered_from (lo n : Z) (es : list edit) : bool :=
  match es with
  | [] => true
  | (KIdx i, x) :: rest =>
      (lo <=? i)%Z && (i <? n)%Z
      && ordered_from (if is_null x then i + 1 else i)%Z n rest
  | _ => false
  end.

Definition edits_in_order (arr : list value) (es : list edit) : bool :=
  ordered_from 0 (Z.of_nat (List.length arr)) es.

Definition count_deleted (cs : cells) : nat :=
  List.length (filter (fun c => match c with None => true | _ => false end) cs).

(** All slots from [lo] on still hold a value. *)
Definition live_from (lo : Z) (cs : cells) : Prop :=
  forall j, (lo <= Z.of_nat j)%Z -> j < List.length cs ->
    nth j cs None <> None.

(** No call in the record returned [BREAK]. *)
Definition no_break (cs : list event) : Prop :=
  Forall (fun e => ev_result e <> VBreak) cs.

(** ** States met on the sample tree *)

Module SampleStates.

Definition reached (v : visitor unit) (n : nat) : state unit :=
  match advance v Sample.tree n (initial Sample.tree tt) with
  | Some st => st
  | None => initial Sample.tree tt
  end.

(** With [skip_b], after ten iterations: the field [a] is behind, the field
    [b] is the next slot of the array of selections. *)
Definition before_b : state unit :=
  Eval vm_compute in reached Sample.skip_b 10.

(** With [delete_x_then false], after twenty-eight iterations: all the slots
    of the field [b] are behind and the copy of its selection set, without
    [x], is the one edit pending. *)
Definition leaving_b : state unit :=
  Eval vm_compute in reached (Sample.delete_x_then (VBool false)) 28.

End SampleStates.


(** The same, for the part of the loop that starts at the visitor number
    [i], [vs] being the visitors from that one on. *)
Definition loop_from_spec {W : Type} (i : nat) (vs : list (visitor W))
  (leaving : bool) (c : call) (st : pstate W) (out : value * pstate W)
  : Prop :=
  fst out <> VBreak
  /\ exists new,
       pcalls (snd out) = pcalls st ++ new
       /\ (forall j, j < i ->
             nth j (skipping (snd out)) VUndef = nth j (skipping st) VUndef)
       /\ (forall j, nth j (skipping st) VUndef = VBreak ->
             nth j (skipping (snd out)) VUndef = VBreak)
       /\ Forall (fun e =>
                    i <= pe_visitor e
                    /\ is_nullish (nth (pe_visitor e) (skipping st) VUndef)
                       = true
                    /\ (pe_result e = VBreak ->
                        nth (pe_visitor e) (skipping (snd out)) VUndef
                        = VBreak)) new
       /\ (fst out = VUndef ->
           forall k vk fn, nth_error vs k = Some vk ->
             is_nullish (nth (i + k) (skipping st) VUndef) = true ->
             getVisitFn vk (kind_of (c_node c)) leaving = Some fn ->
             exists e, In e new /\ pe_visitor e = i + k).

(** * Values to literals *)

(** ** Numbers as text *)

(** [String(x)] for a number [x]: the decimal text of the Number type, with
    as few digits as tell [x] apart from its neighbours.  Numbers are
    binary64 floats; the text is computed on the exact value [m * 2^e]. *)

Definition digits_of (z : Z) : string :=
  NilZero.string_of_uint (N.to_uint (Z.to_N z)).

(** Positive rationals, as numerator and denominator. *)
Definition ratio : Type := (Z * Z)%type.

Definition scale2 (e : Z) : ratio :=
  if (0 <=? e)%Z then (2 ^ e, 1)%Z else (1, 2 ^ (- e))%Z.

Definition scale10 (e : Z) : ratio :=
  if (0 <=? e)%Z then (10 ^ e, 1)%Z else (1, 10 ^ (- e))%Z.

Definition qmul (a b : ratio) : ratio := (fst a * fst b, snd a * snd b)%Z.
Definition qlt (a b : ratio) : bool := (fst a * snd b <? fst b * snd a)%Z.
Definition qle (a b : ratio) : bool := (fst a * snd b <=? fst b * snd a)%Z.
Definition qfloor (a : ratio) : Z := (fst a / snd a)%Z.
Definition qdist (a b : ratio) : ratio :=
  (Z.abs (fst a * snd b - fst b * snd a), snd a * snd b)%Z.

Section Shortest.

(** The number is [m * 2^e] with [m > 0], as [Prim2SF] gives it. *)
Variables (m e : Z).

Definition exact : ratio := qmul (m, 1%Z) (scale2 e).

(** The reals that round to the number lie between the midpoints to its
    two neighbours; the midpoints themselves do when [m] is even. *)
Definition low_mid : ratio :=
  if ((m =? 2 ^ 52) && (-1074 <? e))%Z
  then qmul (4 * m - 1, 1)%Z (scale2 (e - 2))
  else qmul (2 * m - 1, 1)%Z (scale2 (e - 1)).

Definition high_mid : ratio := qmul (2 * m + 1, 1)%Z (scale2 (e - 1)).

Definition rounds_here (x : ratio) : bool :=
  if Z.even m then qle low_mid x && qle x high_mid
  else qlt low_mid x && qlt x high_mid.

(** The [n] with [10^(n-1) <= m * 2^e < 10^n]. *)
Fixpoint find_up (fuel : nat) (n : Z) : Z :=
  match fuel with
  | O => n
  | S f => if qle (scale10 n) exact then find_up f (n + 1) else n
  end.

Fixpoint find_down (fuel : nat) (n : Z) : Z :=
  match fuel with
  | O => n
  | S f => if qlt exact (scale10 (n - 1)) then find_down f (n - 1) else n
  end.

Definition magnitude : Z := find_down 400 (find_up 400 0).

(** The digits [s] and the exponent [n] for [k] digits, if [k] digits are
    enough: [s * 10^(n-k)] rounds to the number, and is the closest such. *)
Definition candidate (n k : Z) : option (Z * Z) :=
  let unit := scale10 (n - k) in
  let lo := qfloor (qmul exact (snd unit, fst unit)) in
  let hi := (lo + 1)%Z in
  let vlo := qmul (lo, 1%Z) unit in
  let vhi := qmul (hi, 1%Z) unit in
  let oklo := (10 ^ (k - 1) <=? lo)%Z && rounds_here vlo in
  let okhi := rounds_here vhi in
  let norm := fun s =>
    if (s =? 10 ^ k)%Z then (10 ^ (k - 1), n + 1)%Z else (s, n) in
  match oklo, okhi with
  | true, true =>
      let dlo := qdist vlo exact in
      let dhi := qdist vhi exact in
      if qlt dlo dhi then Some (lo, n)
      else if qlt dhi dlo then Some (norm hi)
      else if Z.even lo then Some (lo, n) else Some (norm hi)
  | true, false => Some (lo, n)
  | false, true => Some (norm hi)
  | false, false => None
  end.

(** The least number of digits that is enough, from [k] up. *)
Fixpoint shortest (fuel : nat) (n k : Z) : Z * Z * Z :=
  match fuel with
  | O => (m, k, n)
  | S f =>
      match candidate n k with
      | Some (s, n') => (s, k, n')
      | None => shortest f n (k + 1)
      end
  end.

End Shortest.

Definition zeros (n : Z) : string :=
  string_of_list_ascii (repeat "0"%char (Z.to_nat n)).

(** The text for the digits [s], [k] of them, and the exponent [n]. *)
Definition format_decimal (s k n : Z) : string :=
  let ds := digits_of s in
  (if ((k <=? n) && (n <=? 21))%Z then ds ++ zeros (n - k)
   else if ((0 <? n) && (n <=? 21))%Z then
     substring 0 (Z.to_nat n) ds ++ "."
     ++ substring (Z.to_nat n) (Z.to_nat (k - n)) ds
   else if ((-6 <? n) && (n <=? 0))%Z then "0." ++ zeros (- n) ++ ds
   else
     let ex := (n - 1)%Z in
     let sign := if (ex <? 0)%Z then "-" else "+" in
     let mant := if (k =? 1)%Z then ds
                 else substring 0 1 ds ++ "."
                      ++ substring 1 (Z.to_nat (k - 1)) ds in
     mant ++ "e" ++ sign ++ digits_of (Z.abs ex))%string.

(** [String(x)] *)
Definition number_to_string (x : float) : string :=
  match Prim2SF x with
  | S754_nan => "NaN"
  | S754_zero _ => "0"
  | S754_infinity false => "Infinity"
  | S754_infinity true => "-Infinity"
  | S754_finite sign m e =>
      let '(s, k, n) := shortest (Zpos m) e 17 (magnitude (Zpos m) e) 1 in
      ((if sign then "-" else "") ++ format_decimal s k n)%string
  end.

(** [Number.isFinite(x)] *)
Definition isFinite (x : float) : bool :=
  match Prim2SF x with
  | S754_zero _ | S754_finite _ _ _ => true
  | S754_infinity _ | S754_nan => false
  end.

(** ** Runtime values, literals and types *)

(** A JavaScript value as [valueToLiteral] sees it.  [JObj] is a plain
    object (its prototype is [Object.prototype]), given by the list of its
    own enumerable properties in the order [Object.keys] gives them.
    [JArr] is an [Array] without holes and with no property besides its
    elements and [length].  [JProto false] is [Object.prototype] itself and
    [JProto true] is [Array.prototype]: they are what reading [__proto__]
    gives.  [JOther] is a value of another kind ([typeof] is ["function"],
    ["symbol"] or ["bigint"]).  Other objects (a [Set], a [Map], a typed
    array, an object with accessors or with a prototype of its own) are not
    values of the model. *)
Inductive jsval : Type :=
| JUndefined
| JNull
| JBool (b : bool)
| JNum (x : float)
| JStr (s : string)
| JArr (items : list jsval)
| JObj (props : list (string * jsval))
| JProto (ofArrays : bool)
| JOther.

(** A [ConstValueNode]. *)
Inductive literal : Type :=
| LNull
| LBool (b : bool)
| LInt (text : string)
| LFloat (text : string)
| LString (text : string)
| LEnum (text : string)
| LList (values : list literal)
| LObject (fields : list (string * literal)).

(** A call that returns or throws. *)
Inductive res (A : Type) : Type :=
| Ok (a : A)
| Throws (msg : string).

Arguments Ok {A} a.
Arguments Throws {A} msg.

(** A [GraphQLInputType].  A leaf type may bring its own [valueToLiteral]
    method. *)
Inductive gtype : Type :=
| TNonNull (ofType : gtype)
| TList (ofType : gtype)
| TInputObject (fields : list input_field)
| TLeaf (custom : option (jsval -> res (option literal)))
with input_field : Type :=
| InputField (name : string) (type : gtype) (hasDefault : bool).

Definition field_name (f : input_field) : string :=
  match f with InputField n _ _ => n end.

Definition field_type (f : input_field) : gtype :=
  match f with InputField _ t _ => t end.

Definition isNonNullType (t : gtype) : bool :=
  match t with TNonNull _ => true | _ => false end.

(** Modelled from the spec: [isRequiredInput] of [type/definition] is not
    among the sources; a field is required when it is "non-null, no
    default". *)
Definition isRequiredInput (f : input_field) : bool :=
  match f with InputField _ t d => isNonNullType t && negb d end.

(** [value == null] *)
Definition js_nullish (v : jsval) : bool :=
  match v with JUndefined | JNull => true | _ => false end.

Definition js_undefined (v : jsval) : bool :=
  match v with JUndefined => true | _ => false end.

(** [isIterableObject] of [jsutils]: an object with an iterator; arrays
    have one, and so has [Array.prototype], an array itself. *)
Definition isIterableObject (v : jsval) : bool :=
  match v with JArr _ | JProto true => true | _ => false end.

(** [isObjectLike] of [jsutils]: [typeof value == 'object'] and not
    [null]. *)
Definition isObjectLike (v : jsval) : bool :=
  match v with JArr _ | JObj _ | JProto _ => true | _ => false end.

Fixpoint indexed (i : nat) (items : list jsval) : list (string * jsval) :=
  match items with
  | [] => []
  | x :: rest => (digits_of (Z.of_nat i), x) :: indexed (S i) rest
  end.

(** The own enumerable properties of a value; those of an array are its
    elements under their indices; the built-in prototypes have none. *)
Definition own_properties (v : jsval) : list (string * jsval) :=
  match v with
  | JObj props => props
  | JArr items => indexed 0 items
  | _ => []
  end.

(** [Object.keys(value)] *)
Definition object_keys (v : jsval) : list string :=
  map fst (own_properties v).

Fixpoint lookup (props : list (string * jsval)) (name : string) : jsval :=
  match props with
  | [] => JUndefined
  | (n, x) :: rest => if String.eqb n name then x else lookup rest name
  end.

(** The object has an own enumerable property of that name (its value may
    be [undefined]). *)
Definition has_own (props : list (string * jsval)) (name : string) : bool :=
  existsb (fun p => String.eqb (fst p) name) props.

(** The built-in prototypes of the engine the code runs on, as far as
    reading a property by name goes: the names under which
    [Object.prototype] and [Array.prototype] hold a function ([constructor]
    is among both), and whether [Object.prototype] has the accessor
    [__proto__].  Engines and editions of the language differ in them. *)
Record realm : Type := mkRealm {
  object_functions : list string;
  array_functions : list string;
  proto_accessor : bool
}.

(** ECMAScript 2020, with the additional properties of its Annex B. *)
Definition standard_realm : realm :=
  mkRealm
    ["constructor"; "hasOwnProperty"; "isPrototypeOf";
     "propertyIsEnumerable"; "toLocaleString"; "toString"; "valueOf";
     "__defineGetter__"; "__defineSetter__"; "__lookupGetter__";
     "__lookupSetter__"]
    ["constructor"; "concat"; "copyWithin"; "entries"; "every"; "fill";
     "filter"; "find"; "findIndex"; "flat"; "flatMap"; "forEach";
     "includes"; "indexOf"; "join"; "keys"; "lastIndexOf"; "map"; "pop";
     "push"; "reduce"; "reduceRight"; "reverse"; "shift"; "slice"; "some";
     "sort"; "splice"; "toLocaleString"; "toString"; "unshift"; "values"]
    true.

(** The number [n] as a JavaScript number; an array has fewer than [2^32]
    elements. *)
Definition number_of_nat (n : nat) : float :=
  PrimFloat.of_uint63 (Uint63.of_Z (Z.of_nat n)).

Section Realm.

Variable R : realm.

(** What [Object.prototype] holds under [name]: a function, or through the
    accessor [__proto__] the prototype [proto] of the object that is
    read. *)
Definition from_object_prototype (proto : jsval) (name : string) : jsval :=
  if existsb (String.eqb name) (object_functions R) then JOther
  else if proto_accessor R && String.eqb name "__proto__" then proto
  else JUndefined.

(** What [Array.prototype] holds under [name], or else inherits. *)
Definition from_array_prototype (proto : jsval) (name : string) : jsval :=
  if existsb (String.eqb name) (array_functions R) then JOther
  else from_object_prototype proto name.

(** [value[name]], read on an object: an own property if there is one of
    that name, else what the prototypes hold. *)
Definition js_get (v : jsval) (name : string) : jsval :=
  match v with
  | JObj props =>
      if has_own props name then lookup props name
      else from_object_prototype (JProto false) name
  | JArr items =>
      if has_own (indexed 0 items) name then lookup (indexed 0 items) name
      else if String.eqb name "length"
      then JNum (number_of_nat (List.length items))
      else from_array_prototype (JProto true) name
  | JProto false => from_object_prototype JNull name
  | JProto true =>
      if String.eqb name "length" then JNum (number_of_nat 0)
      else from_array_prototype (JProto false) name
  | _ => JUndefined
  end.

End Realm.

(** [hasOwnProperty(fieldDefs, name)] *)
Definition declares (fields : list input_field) (name : string) : bool :=
  existsb (fun f => String.eqb (field_name f) name) fields.

(** ** The default encoder of scalars *)

Definition is_digit (c : ascii) : bool :=
  let n := nat_of_ascii c in Nat.leb 48 n && Nat.leb n 57.

Definition is_nonzero_digit (c : ascii) : bool :=
  let n := nat_of_ascii c in Nat.leb 49 n && Nat.leb n 57.

Fixpoint all_digits (s : string) : bool :=
  match s with
  | EmptyString => true
  | String c rest => is_digit c && all_digits rest
  end.

(** [0] alone, or a digit from 1 to 9 followed by any digits. *)
Definition unsigned_int_text (s : string) : bool :=
  match s with
  | EmptyString => false
  | String c rest =>
      (Ascii.eqb c "0" && String.eqb rest "")
      || (is_nonzero_digit c && all_digits rest)
  end.

(** The test of the regular expression for an integer: an optional minus
    sign, then [0] alone or a digit from 1 to 9 followed by any digits. *)
Definition int_text (s : string) : bool :=
  match s with
  | String "-" rest => unsigned_int_text rest
  | _ => unsigned_int_text s
  end.

(** [defaultScalarValueToLiteral] *)
Fixpoint defaultScalarValueToLiteral (value : jsval) : res literal :=
  match value with
  | JUndefined | JNull => Ok LNull
  | JBool b => Ok (LBool b)
  | JStr s => Ok (LString s)
  | JNum x =>
      if negb (isFinite x) then Ok LNull
      else
        let stringValue := number_to_string x in
        if int_text stringValue then Ok (LInt stringValue)
        else Ok (LFloat stringValue)
  | JArr items =>
      match
        (fix each (l : list jsval) : res (list literal) :=
           match l with
           | [] => Ok []
           | x :: rest =>
               match defaultScalarValueToLiteral x with
               | Throws msg => Throws msg
               | Ok node =>
                   match each rest with
                   | Throws msg => Throws msg
                   | Ok nodes => Ok (node :: nodes)
                   end
               end
           end) items
      with
      | Ok values => Ok (LList values)
      | Throws msg => Throws msg
      end
  | JObj props =>
      (* the keys of an object are distinct: [value[fieldName]] is the value
         listed with the key *)
      match
        (fix each (l : list (string * jsval))
           : res (list (string * literal)) :=
           match l with
           | [] => Ok []
           | (fieldName, fieldValue) :: rest =>
               if js_undefined fieldValue then each rest
               else
                 match defaultScalarValueToLiteral fieldValue with
                 | Throws msg => Throws msg
                 | Ok node =>
                     match each rest with
                     | Throws msg => Throws msg
                     | Ok fields => Ok ((fieldName, node) :: fields)
                     end
                 end
           end) props
      with
      | Ok fields => Ok (LObject fields)
      | Throws msg => Throws msg
      end
  | JProto true => Ok (LList [])
  | JProto false => Ok (LObject [])
  | JOther => Throws "TypeError: Cannot convert value to AST"
  end.

(** ** The encoder directed by the type *)

Section Encoder.

Variable R : realm.

(** The loop over the declared fields of an input object, given the encoder
    for a field's type: the first field that is missing though required, or
    whose value has no literal, ends it with no value. *)
Fixpoint encode_fields (encode : gtype -> jsval -> res (option literal))
  (value : jsval) (fields : list input_field)
  : res (option (list (string * literal))) :=
  match fields with
  | [] => Ok (Some [])
  | field :: rest =>
      let fieldValue := js_get R value (field_name field) in
      if js_undefined fieldValue && isRequiredInput field then Ok None
      else
        match encode (field_type field) fieldValue with
        | Throws msg => Throws msg
        | Ok None => Ok None
        | Ok (Some fieldNode) =>
            match encode_fields encode value rest with
            | Throws msg => Throws msg
            | Ok None => Ok None
            | Ok (Some nodes) => Ok (Some ((field_name field, fieldNode) :: nodes))
            end
        end
  end.

(** [valueToLiteral(value, type)]; [Ok None] is "no value". *)
Fixpoint valueToLiteral (type : gtype) (value : jsval) {struct type}
  : res (option literal) :=
  match type with
  | TNonNull ofType =>
      if js_nullish value then Ok None else valueToLiteral ofType value
  | TList ofType =>
      if js_nullish value then Ok (Some LNull)
      else
        match value with
        | JArr items =>
            match
              (fix each (l : list jsval) : res (option (list literal)) :=
                 match l with
                 | [] => Ok (Some [])
                 | itemValue :: rest =>
                     match valueToLiteral ofType itemValue with
                     | Throws msg => Throws msg
                     | Ok None => Ok None
                     | Ok (Some itemNode) =>
                         match each rest with
                         | Throws msg => Throws msg
                         | Ok None => Ok None
                         | Ok (Some nodes) => Ok (Some (itemNode :: nodes))
                         end
                     end
                 end) items
            with
            | Throws msg => Throws msg
            | Ok None => Ok None
            | Ok (Some values) => Ok (Some (LList values))
            end
        | JProto true => Ok (Some (LList []))
        | _ => valueToLiteral ofType value
        end
  | TInputObject fields =>
      if js_nullish value then Ok (Some LNull)
      else if negb (isObjectLike value) then Ok None
      else if existsb (fun name => negb (declares fields name))
                (object_keys value)
      then Ok None
      else
        match
          (fix each (fs : list input_field)
             : res (option (list (string * literal))) :=
             match fs with
             | [] => Ok (Some [])
             | field :: rest =>
                 let fieldValue := js_get R value (field_name field) in
                 if js_undefined fieldValue && isRequiredInput field
                 then Ok None
                 else
                   match
                     (match field with
                      | InputField _ t _ => valueToLiteral t fieldValue
                      end)
                   with
                   | Throws msg => Throws msg
                   | Ok None => Ok None
                   | Ok (Some fieldNode) =>
                       match each rest with
                       | Throws msg => Throws msg
                       | Ok None => Ok None
                       | Ok (Some nodes) =>
                           Ok (Some ((field_name field, fieldNode) :: nodes))
                       end
                   end
             end) fields
        with
        | Throws msg => Throws msg
        | Ok None => Ok None
        | Ok (Some nodes) => Ok (Some (LObject nodes))
        end
  | TLeaf custom =>
      if js_nullish value then Ok (Some LNull)
      else
        match custom with
        | Some encode => encode value
        | None =>
            match defaultScalarValueToLiteral value with
            | Ok node => Ok (Some node)
            | Throws msg => Throws msg
            end
        end
  end.

(** ** What the specification says of input objects *)

(** The encoding of the value the object holds for a declared field. *)
Definition field_literal (value : jsval) (f : input_field)
  : res (option literal) :=
  valueToLiteral (field_type f) (js_get R value (field_name f)).

(** The four reasons the specification gives for "no value". *)
Definition has_no_literal (fields : list input_field) (value : jsval)
  : Prop :=
  isObjectLike value = false
  \/ (exists name,
        In name (object_keys value) /\ declares fields name = false)
  \/ (exists f,
        In f fields /\ js_get R value (field_name f) = JUndefined
        /\ isRequiredInput f = true)
  \/ (exists f, In f fields /\ field_literal value f = Ok None).

(** An object literal with the declared fields in their declared order, each
    with the literal of its value. *)
Definition object_literal_of (fields : list input_field) (value : jsval)
  (out : res (option literal)) : Prop :=
  exists nodes,
    out = Ok (Some (LObject nodes))
    /\ map fst nodes = map field_name fields
    /\ Forall2 (fun f node => field_literal value f = Ok (Some (snd node)))
         fields nodes.

(** The sentence of the specification, for one type and one value. *)
Definition input_object_rule (fields : list input_field) (value : jsval)
  : Prop :=
  (has_no_literal fields value ->
   valueToLiteral (TInputObject fields) value = Ok None)
  /\ (~ has_no_literal fields value ->
      object_literal_of fields value
        (valueToLiteral (TInputObject fields) value)).

(** ** The rule as the code has it *)

(** The declared field reads [undefined] though it is required. *)
Definition missing (value : jsval) (f : input_field) : Prop :=
  js_get R value (field_name f) = JUndefined /\ isRequiredInput f = true.

(** Each of the fields is given, or not required, and its value has a
    literal. *)
Definition all_encoded (value : jsval) (fs : list input_field) : Prop :=
  Forall (fun g => ~ missing value g
                   /\ exists node, field_literal value g = Ok (Some node))
    fs.

(** The value is object-like and all its keys are declared. *)
Definition closed_object (fields : list input_field) (value : jsval)
  : Prop :=
  isObjectLike value = true
  /\ forall name, In name (object_keys value) -> declares fields name = true.

(** The declared fields are taken in their order, and the first one that
    gets no literal decides: no value when it is missing though required or
    when its value has no literal, the error when encoding its value
    throws. *)
Definition first_failure_rule (fields : list input_field) (value : jsval)
  : Prop :=
  let out := valueToLiteral (TInputObject fields) value in
  (isObjectLike value = false -> out = Ok None)
  /\ ((exists name,
         In name (object_keys value) /\ declares fields name = false) ->
      out = Ok None)
  /\ (closed_object fields value ->
      forall pre f post,
        fields = pre ++ f :: post -> all_encoded value pre ->
        (missing value f -> out = Ok None)
        /\ (~ missing value f -> field_literal value f = Ok None ->
            out = Ok None)
        /\ (forall msg,
              ~ missing value f -> field_literal value f = Throws msg ->
              out = Throws msg))
  /\ (closed_object fields value -> all_encoded value fields ->
      object_literal_of fields value out).

End Encoder.

Module SampleTypes.

Definition Int : gtype := TLeaf None.

(** [input { a: Int, b: Int! }] *)
Definition ab : list input_field :=
  [InputField "a" Int false; InputField "b" (TNonNull Int) false].

(** [input { a: Int }] *)
Definition only_a : list input_field := [InputField "a" Int false].

(** [input { a: Int! }] *)
Definition required_a : list input_field :=
  [InputField "a" (TNonNull Int) false].

End SampleTypes.

(** * The literal of a default value, computed once *)

(** A [GraphQLDefaultValueUsage]: it is built with a literal or with a
    value, and [_memoizedLiteral] keeps the literal computed from the value.
    Literal objects are named by their place in the store. *)
Record usage : Type := mkUsage {
  u_literal : option nat;
  u_value : jsval;
  u_memoizedLiteral : option nat
}.

(** The objects the function reads and writes: the literal nodes that exist,
    the usages, and the number of conversions made so far. *)
Record store : Type := mkStore {
  literals : list literal;
  usages : list usage;
  conversions : nat
}.

Fixpoint set_nth {A : Type} (l : list A) (i : nat) (x : A) : list A :=
  match l, i with
  | [], _ => []
  | _ :: rest, O => x :: rest
  | y :: rest, S j => y :: set_nth rest j x
  end.

Section DefaultValue.

(** [astFromValue] of [utilities/astFromValue], which is not among the
    sources: the contents of the node it builds, or nothing. *)
Variable astFromValue : jsval -> gtype -> option literal.

(** [getLiteralDefaultValue(usage, type)], [usage] being the place of the
    object in the store.  A node that [astFromValue] builds is a new
    object. *)
Definition getLiteralDefaultValue (s : store) (usage_ref : nat)
  (type : gtype) : res nat * store :=
  match nth_error (usages s) usage_ref with
  | None => (Throws "TypeError: usage is not an object", s)
  | Some u =>
      match u_literal u with
      | Some l => (Ok l, s)
      | None =>
          match u_memoizedLiteral u with
          | Some l => (Ok l, s)
          | None =>
              match astFromValue (u_value u) type with
              | None =>
                  (Throws "Value cannot be converted to literal for this type",
                   mkStore (literals s) (usages s) (S (conversions s)))
              | Some node =>
                  let l := List.length (literals s) in
                  (Ok l,
                   mkStore (literals s ++ [node])
                     (set_nth (usages s) usage_ref
                        (mkUsage (u_literal u) (u_value u) (Some l)))
                     (S (conversions s)))
              end
          end
      end
  end.

End DefaultValue.

Module SampleUsage.

(** The conversion of the specification: [valueToLiteral], with "no value"
    and a throw both read as nothing. *)
Definition convert (value : jsval) (type : gtype) : option literal :=
  match valueToLiteral standard_realm type value with
  | Ok (Some node) => Some node
  | _ => None
  end.

(** One usage, built with the value [5]. *)
Definition start : store :=
  mkStore [] [mkUsage None (JNum 5) None] 0.

End SampleUsage.

(** An optional minus sign, then decimal digits with no leading zero: the
    shape of the text of an integer. *)
Definition integer_shape (s : string) : Prop :=
  exists sign digits : string,
    s = (sign ++ digits)%string
    /\ (sign = "" \/ sign = "-")
    /\ digits <> ""
    /\ all_digits digits = true
    /\ (forall rest, digits = String "0" rest -> rest = "").

(** * More of the encoders *)

(** A value the default encoder has a literal for: no function, symbol or
    bigint anywhere in it. *)
Fixpoint representable (v : jsval) : bool :=
  match v with
  | JOther => false
  | JArr items => forallb representable items
  | JObj props => forallb (fun p => representable (snd p)) props
  | _ => true
  end.

(** A type none of whose leaf types brings its own [valueToLiteral]. *)
Fixpoint plain_type (t : gtype) : bool :=
  match t with
  | TNonNull ofType => plain_type ofType
  | TList ofType => plain_type ofType
  | TInputObject fields =>
      forallb (fun f => match f with InputField _ ft _ => plain_type ft end)
        fields
  | TLeaf custom => match custom with None => true | Some _ => false end
  end.

(** The name is found on none of the built-in prototypes, and is not
    [length]. *)
Definition not_inherited (R : realm) (name : string) : bool :=
  negb (existsb (String.eqb name) (object_functions R))
  && negb (existsb (String.eqb name) (array_functions R))
  && negb (String.eqb name "length")
  && negb (proto_accessor R && String.eqb name "__proto__").

(** A type none of whose input fields has a name that an object or an array
    inherits. *)
Fixpoint own_fields (R : realm) (t : gtype) : bool :=
  match t with
  | TNonNull ofType => own_fields R ofType
  | TList ofType => own_fields R ofType
  | TInputObject fields =>
      forallb (fun f => match f with
                        | InputField n ft _ =>
                            not_inherited R n && own_fields R ft
                        end)
        fields
  | TLeaf _ => true
  end.

(** The properties of an object whose value is not [undefined]. *)
Definition defined_props (props : list (string * jsval))
  : list (string * jsval) :=
  filter (fun p => negb (js_undefined (snd p))) props.

(** The loop of [valueToLiteral] over the items of an iterable, given the
    encoder for the type of the items. *)
Fixpoint encode_items (encode : jsval -> res (option literal))
  (items : list jsval) : res (option (list literal)) :=
  match items with
  | [] => Ok (Some [])
  | itemValue :: rest =>
      match encode itemValue with
      | Throws msg => Throws msg
      | Ok None => Ok None
      | Ok (Some itemNode) =>
          match encode_items encode rest with
          | Throws msg => Throws msg
          | Ok None => Ok None
          | Ok (Some nodes) => Ok (Some (itemNode :: nodes))
          end
      end
  end.

(** [Array.from(value, defaultScalarValueToLiteral)] *)
Fixpoint default_items (items : list jsval) : res (list literal) :=
  match items with
  | [] => Ok []
  | x :: rest =>
      match defaultScalarValueToLiteral x with
      | Throws msg => Throws msg
      | Ok node =>
          match default_items rest with
          | Throws msg => Throws msg
          | Ok nodes => Ok (node :: nodes)
          end
      end
  end.

(** The loop of [defaultScalarValueToLiteral] over the keys of an object. *)
Fixpoint default_props (props : list (string * jsval))
  : res (list (string * literal)) :=
  match props with
  | [] => Ok []
  | (fieldName, fieldValue) :: rest =>
      if js_undefined fieldValue then default_props rest
      else
        match defaultScalarValueToLiteral fieldValue with
        | Throws msg => Throws msg
        | Ok node =>
            match default_props rest with
            | Throws msg => Throws msg
            | Ok fields => Ok ((fieldName, node) :: fields)
            end
        end
  end.

(** * The value of a default value, decoded once *)

(** What [getCoercedDefaultValue] works on: the store of the usages and the
    literals, the hidden field [_memoizedCoercedValue] of every usage
    ([undefined] while it is not set), kept beside them, and the number of
    decodings made so far. *)
Record cstore : Type := mkCStore {
  c_store : store;
  c_memo : nat -> jsval;
  decodings : nat
}.

(** [usage._memoizedCoercedValue = x], for the usage at place [u]. *)
Definition set_memo (memo : nat -> jsval) (u : nat) (x : jsval)
  : nat -> jsval :=
  fun i => if Nat.eqb i u then x else memo i.

Section CoercedValue.

(** [valueFromAST] of [utilities/valueFromAST], which is not among the
    sources: the value of a literal for a type, [undefined] when there is
    none.  It is given [usage.literal], that is nothing when the usage was
    built with a value. *)
Variable valueFromAST : option literal -> gtype -> jsval.

(** [usage.literal], as the node it names. *)
Definition usage_literal (s : store) (u : usage) : option literal :=
  match u_literal u with
  | Some l => nth_error (literals s) l
  | None => None
  end.

(** [getCoercedDefaultValue(usage, type)] *)
Definition getCoercedDefaultValue (s : cstore) (usage_ref : nat)
  (type : gtype) : res jsval * cstore :=
  match nth_error (usages (c_store s)) usage_ref with
  | None => (Throws "TypeError: usage is not an object", s)
  | Some u =>
      if negb (js_undefined (u_value u)) then (Ok (u_value u), s)
      else
        let memo := c_memo s usage_ref in
        if js_undefined memo then
          let coercedValue := valueFromAST (usage_literal (c_store s) u) type in
          if js_undefined coercedValue
          then (Throws "Literal cannot be converted to value for this type",
                mkCStore (c_store s) (c_memo s) (S (decodings s)))
          else (Ok coercedValue,
                mkCStore (c_store s)
                  (set_memo (c_memo s) usage_ref coercedValue)
                  (S (decodings s)))
        else (Ok memo, s)
  end.

End CoercedValue.

Module SampleCoerced.

(** A decoder for the sample: the number of an Int literal is not computed,
    its text is given back as a string. *)
Definition decode (l : option literal) (t : gtype) : jsval :=
  match l with
  | Some (LInt text) => JStr text
  | Some LNull => JNull
  | _ => JUndefined
  end.

(** One usage, built with the literal [5]; its memo slot is not set. *)
Definition start : cstore :=
  mkCStore (mkStore [LInt "5"] [mkUsage (Some 0) JUndefined None] 0)
    (fun _ => JUndefined) 0.

End SampleCoerced.

(** * Reducing with promises *)

(** A [PromiseOrValue]: a plain value, or a promise, taken as what it
    settles to (fulfilled with a value, or rejected with an error).  When
    and in which turn of the event loop it settles is not modelled. *)
Inductive PromiseOrValue (A : Type) : Type :=
| Plain (a : A)
| Promised (settled : res A).

Arguments Plain {A} a.
Arguments Promised {A} settled.

Section PromiseReduce.

Variables T U : Type.

(** The reducing callback: it returns a value or a promise, or throws. *)
Variable callback : U -> T -> res (PromiseOrValue U).

(** [previous.then((resolved) => callback(resolved, value))]: the promise
    that settles to what the callback gives for the value [previous] is
    fulfilled with; a promise it returns is followed, an error it throws
    rejects, and a rejection of [previous] passes through. *)
Definition then_callback (settled : res U) (value : T) : res U :=
  match settled with
  | Throws e => Throws e
  | Ok resolved =>
      match callback resolved value with
      | Throws e => Throws e
      | Ok (Plain b) => Ok b
      | Ok (Promised q) => q
      end
  end.

(** The function given to [reduce]. *)
Definition reducer (previous : PromiseOrValue U) (value : T)
  : res (PromiseOrValue U) :=
  match previous with
  | Promised settled => Ok (Promised (then_callback settled value))
  | Plain a => callback a value
  end.

(** [values.reduce(reducer, initialValue)]; an error thrown by the reducer
    ends it. *)
Fixpoint promiseReduce (values : list T) (initialValue : PromiseOrValue U)
  : res (PromiseOrValue U) :=
  match values with
  | [] => Ok initialValue
  | value :: rest =>
      match reducer initialValue value with
      | Throws e => Throws e
      | Ok next => promiseReduce rest next
      end
  end.

(** What a result comes to in the end: the value, or the error that was
    thrown or that rejected the promise. *)
Definition in_the_end (r : res (PromiseOrValue U)) : res U :=
  match r with
  | Throws e => Throws e
  | Ok (Plain a) => Ok a
  | Ok (Promised settled) => settled
  end.

(** The values reduced one after the other, each callback given what the
    one before came to in the end, until one fails. *)
Fixpoint reduce_in_turn (values : list T) (acc : res U) : res U :=
  match values with
  | [] => acc
  | value :: rest =>
      reduce_in_turn rest
        (match acc with
         | Throws e => Throws e
         | Ok a => in_the_end (callback a value)
         end)
  end.

End PromiseReduce.

Arguments then_callback {T U}.
Arguments reducer {T U}.
Arguments promiseReduce {T U}.
Arguments in_the_end {U}.
Arguments reduce_in_turn {T U}.

(** * More about visitors in parallel *)

(** The calls a combined function made: what it added to the record. *)
Definition new_calls {W : Type} (before after : pstate W) : list pevent :=
  skipn (List.length (pcalls before)) (pcalls after).

(** The visitors are called in their order, each once at most. *)
Fixpoint in_visitor_order (from : nat) (es : list pevent) : Prop :=
  match es with
  | [] => True
  | e :: rest => from <= pe_visitor e /\ in_visitor_order (S (pe_visitor e)) rest
  end.

(** None of the functions of the visitor ever returns an edit: each
    returns [undefined], [false] or [BREAK]. *)
Definition never_edits {W : Type} (v : visitor W) : Prop :=
  forall kind leaving h c u,
    getVisitFn v kind leaving = Some h ->
    fst (h c u) = VUndef \/ fst (h c u) = VBool false
    \/ fst (h c u) = VBreak.

(** The call returned no edit: [undefined], [false] or [BREAK]. *)
Definition no_edit (e : pevent) : Prop :=
  pe_result e = VUndef \/ pe_result e = VBool false \/ pe_result e = VBreak.

(** What one call of the loop from [i] on adds to the record: calls in the
    order of the visitors; when the loop returns a value, that value is an
    edit, the last call is the one that returned it and no call before it
    returned an edit; when the loop returns [undefined], no call returned an
    edit. *)
Definition short_circuit_spec {W : Type} (i : nat) (st : pstate W)
  (out : value * pstate W) : Prop :=
  exists new,
    pcalls (snd out) = pcalls st ++ new
    /\ in_visitor_order i new
    /\ (fst out <> VUndef ->
        exists before e,
          new = before ++ [e] /\ pe_result e = fst out
          /\ is_false (fst out) = false /\ is_break (fst out) = false
          /\ Forall no_edit before)
    /\ (fst out = VUndef -> Forall no_edit new).

(** * More about the traversal *)

(** A call the traversal may make with the visitor [v]: on a node, to the
    function [getVisitFn] chooses for the kind of the node and the
    direction, with what that function returned as the recorded result. *)
Definition chosen_call {W : Type} (v : visitor W) (e : event) : Prop :=
  isNode (c_node (ev_call e)) = true
  /\ exists h u,
       getVisitFn v (kind_of (c_node (ev_call e))) (ev_leaving e) = Some h
       /\ ev_result e = fst (h (ev_call e) u).

(** The value the edits leave under a field name: the value of the last
    edit made under that name, if there is one. *)
Fixpoint last_edit (name : string) (es : list edit) (found : option value)
  : option value :=
  match es with
  | [] => found
  | (KName s, x) :: rest =>
      last_edit name rest (if String.eqb s name then Some x else found)
  | _ :: rest => last_edit name rest found
  end.

(** The number of deletions among the edits. *)
Definition deletions (es : list edit) : nat :=
  List.length (filter (fun e => is_null (snd e)) es).

Module SampleBreak.

(** The end of the traversal of the sample tree by the visitor that
    replaces [a] and stops at [b]. *)
Definition final : state unit :=
  Eval vm_compute in
    match visit 20 Sample.tree Sample.replace_a_break_at_b tt with
    | Returned _ st _ => st
    | _ => initial Sample.tree tt
    end.

End SampleBreak.

(** ** The order of the calls *)

(** The slots of an array, from the index [i] on. *)
Fixpoint array_slots (i : nat) (items : list value) : list (key * value) :=
  match items with
  | [] => []
  | x :: rest => (KIdx (Z.of_nat i), x) :: array_slots (S i) rest
  end.

(** The slots the traversal walks below a value, in order, each with its
    key: the elements of an array, the fields of a node that the table
    lists for its kind. *)
Definition slots (c : value) : list (key * value) :=
  match c with
  | VArr _ items => array_slots 0 items
  | VNode _ kind fields =>
      map (fun name => (KName name, get_field fields name)) (child_keys kind)
  | _ => []
  end.

Section Listing.

Variable W : Type.
Variable v : visitor W.

(** The call on entering or leaving a node, when the visitor has a function
    for it. *)
Definition listed (leaving : bool) (c : call) : list (bool * call) :=
  match getVisitFn v (kind_of (c_node c)) leaving with
  | Some _ => [(leaving, c)]
  | None => []
  end.

(** The calls of a depth-first walk of [node], found under the key [k] of
    [par] at the path [pth], with [anc] above [par]: the node is entered,
    then its slots are walked in order, then it is left; an array is walked
    without a call of its own.  [fuel] bounds the depth. *)
Fixpoint depth_first (fuel : nat) (node : value) (k : key) (par : value)
  (pth : list key) (anc : list value) : list (bool * call) :=
  match fuel with
  | O => []
  | S fuel' =>
      let below := if truthy par then anc ++ [par] else anc in
      let inside :=
        flat_map
          (fun slot =>
             depth_first fuel' (snd slot) (fst slot) node
               (pth ++ [fst slot]) below)
          (slots node) in
      match node with
      | VArr _ _ => inside
      | VNode _ _ _ =>
          listed false (mkCall node k par pth anc) ++ inside
          ++ listed true (mkCall node k par pth anc)
      | _ => []
      end
  end.

(** The calls of a record, without their results. *)
Definition calls_made (cs : list event) : list (bool * call) :=
  map (fun e => (ev_leaving e, ev_call e)) cs.

(** The level being walked is the one of [parent]. *)
Definition at_level_of_parent (st : state W) : Prop :=
  inArray st = isArray (parent st) /\ keys st = keys_of (parent st).

(** The calls of the walk of the slots after the cursor. *)
Definition rest_of_level (fuel : nat) (st : state W) : list (bool * call) :=
  flat_map
    (fun slot =>
       depth_first fuel (snd slot) (fst slot) (parent st)
         (path st ++ [fst slot]) (ancestors st))
    (skipn (Z.to_nat (index st + 1)) (slots (parent st))).

End Listing.

Arguments listed {W}.
Arguments depth_first {W}.
Arguments at_level_of_parent {W}.
Arguments rest_of_level {W}.

Section Listing_run.

Variable W : Type.
Variable v : visitor W.
Variable root : value.

(** Walking the subtree [c] in the next slot makes the calls of its
    depth-first walk and changes nothing else. *)
Definition slot_listed (fuel : nat) (c : value) : Prop :=
  forall st : state W,
    stack st <> [] -> truthy (parent st) = true ->
    at_level_of_parent st ->
    (-1 <= index st)%Z ->
    (index st + 1 < keys_length (keys st))%Z ->
    get_prop (parent st) (slot_key st (index st + 1)) = c ->
    exists n u cs,
      advance v root n st = Some (moved_on st u cs)
      /\ all_undefined cs
      /\ calls_made cs
         = depth_first v fuel c (slot_key st (index st + 1)) (parent st)
             (path st ++ [slot_key st (index st + 1)]) (ancestors st).

End Listing_run.

Arguments slot_listed {W}.

(** ** The levels of a run *)

(** The least key an array level may still edit after the edits [es], when
    it was [lo] before them. *)
Fixpoint next_key (lo : Z) (es : list edit) : Z :=
  match es with
  | [] => lo
  | (KIdx i, x) :: rest => next_key (if is_null x then i + 1 else i)%Z rest
  | _ :: rest => next_key lo rest
  end.

(** The key of the slot a saved level stopped at. *)
Definition frame_key (fr : frame) : key :=
  if f_inArray fr then KIdx (f_index fr) else key_at (f_keys fr) (f_index fr).

(** The variables [inArray], [keys] and [index] are those of a walk of the
    slots of [par]. *)
Definition level_of (par : value) (inA : bool) (ks : keylist) (i : Z)
  : Prop :=
  inA = isArray par /\ ks = keys_of par /\ (-1 <= i < keys_length ks)%Z.

(** The edits [es] fit a level of [par] whose next edit has the key of the
    slot [hi] at least: below an array they are in order, below a node each
    one is made under a field name that the table lists for the kind of the
    node. *)
Definition level_edits (par : value) (es : list edit) (hi : Z) : Prop :=
  match par with
  | VArr _ items =>
      ordered_from 0 (Z.of_nat (List.length items)) es = true
      /\ (next_key 0 es <= hi)%Z
  | VNode _ kind _ =>
      Forall (fun e => exists name,
                fst e = KName name /\ In name (child_keys kind)) es
  | _ => False
  end.

(** The saved levels, the path and the ancestors fit together: the level of
    the root is saved last; every other saved level is a level of the last
    ancestor, stopped at the slot the last key of the path names. *)
Inductive coherent : list frame -> list key -> list value -> Prop :=
| coherent_root fr : coherent [fr] [] []
| coherent_push fr stk pth anc gp :
    coherent stk pth anc ->
    level_of gp (f_inArray fr) (f_keys fr) (f_index fr) ->
    (0 <= f_index fr)%Z ->
    level_edits gp (f_edits fr) (f_index fr) ->
    coherent (fr :: stk) (pth ++ [frame_key fr]) (anc ++ [gp]).

(** What holds of the variables of [visit] between two iterations, from the
    second iteration on. *)
Definition run_invariant {W : Type} (st : state W) : Prop :=
  level_of (parent st) (inArray st) (keys st) (index st)
  /\ level_edits (parent st) (edits st) (index st + 1)
  /\ coherent (stack st) (path st) (ancestors st).

(** The key [k] names a slot of the walk below [par]: an index of the array,
    or a field name that the table lists for the kind of the node. *)
Definition key_in_level (par : value) (k : key) : Prop :=
  match par with
  | VArr _ items =>
      exists i, k = KIdx i /\ (0 <= i < Z.of_nat (List.length items))%Z
  | VNode _ kind _ => exists name, k = KName name /\ In name (child_keys kind)
  | _ => False
  end.

(** What a visit function is told about the place of the node fits
    together.  For the root there is no key, no parent, an empty path and no
    ancestors.  Below the root the key names a slot of the parent and is
    the last step of the path, the path is one step longer than the list of
    ancestors, and on entering, the node is what the parent holds under the
    key. *)
Definition placed_call (e : event) : Prop :=
  let c := ev_call e in
  if truthy (c_parent c)
  then key_in_level (c_parent c) (c_key c)
       /\ c_key c = last (c_path c) KUndef
       /\ List.length (c_path c) = S (List.length (c_ancestors c))
       /\ (ev_leaving e = false -> get_prop (c_parent c) (c_key c) = c_node c)
  else c_key c = KUndef /\ c_path c = [] /\ c_ancestors c = [].

Module SampleLevels.

(** With [delete_x_then false], after twenty-six iterations: the one slot of
    the selections of the field [b] is behind, and its deletion is
    pending. *)
Definition x_deleted : state unit :=
  Eval vm_compute in
    SampleStates.reached (Sample.delete_x_then (VBool false)) 26.

(** One iteration later: the copy of the array is the edit pending for the
    selection set of [b]. *)
Definition selections_copied : state unit :=
  Eval vm_compute in
    SampleStates.reached (Sample.delete_x_then (VBool false)) 27.

(** The state at the end of that traversal. *)
Definition ended : state unit :=
  Eval vm_compute in
    match visit 60 Sample.tree (Sample.delete_x_then (VBool false)) tt with
    | Returned _ st _ => st
    | _ => initial Sample.tree tt
    end.

End SampleLevels.

(** The next slot of the level holds something the traversal cannot walk:
    not [null] or [undefined], not an array, not a node. *)
Definition invalid_slot {W : Type} (root : value) (st : state W) : Prop :=
  (index st + 1 < keys_length (keys st))%Z
  /\ let node :=
       if truthy (parent st)
       then get_prop (parent st) (slot_key st (index st + 1))
       else root in
     is_nullish node = false /\ isArray node = false /\ isNode node = false.

Module SampleEdits.

Import Sample.

(** [enter]: delete the field [a], replace the field [b] by [z]. *)
Definition delete_a_replace_b : visitor unit :=
  on_field (fun c =>
    if named "a" c then VNull else if named "b" c then z else VUndef).

(** After nineteen iterations all the selections are behind: the array is
    about to be left with the two edits pending. *)
Definition leaving_selections : state unit :=
  Eval vm_compute in SampleStates.reached delete_a_replace_b 19.

End SampleEdits.

(** * The state of the visitor along a run *)






Module SampleParallelRun.

Import SampleParallel.

(** The end of the traversal of the sample tree by [breaker] and [watcher]
    in parallel. *)
Definition ended : state (pstate unit) :=
  Eval vm_compute in
    match run [breaker; watcher] with
    | Returned _ st _ => st
    | _ => initial Sample.tree (parallel_start [breaker; watcher] tt)
    end.

End SampleParallelRun.

(** * What is kept to the end of a run *)

Definition key_eqb (a b : key) : bool :=
  match a, b with
  | KUndef, KUndef => true
  | KIdx i, KIdx j => Z.eqb i j
  | KName s, KName t => String.eqb s t
  | _, _ => false
  end.

(** The value of the last edit made under the key [k], if there is one. *)
Fixpoint last_edit_at (k : key) (es : list edit) (found : option value)
  : option value :=
  match es with
  | [] => found
  | (k', x) :: rest =>
      last_edit_at k rest (if key_eqb k' k then Some x else found)
  end.

(** What the slot [k] of [par] stands for once the edits [es] are made:
    the value of the last edit under [k], or what [par] holds. *)
Definition slot_value (par : value) (es : list edit) (k : key) : value :=
  match last_edit_at k es None with
  | Some x => x
  | None => get_prop par k
  end.

(** [newRoot] when the loop is over: the value of the last edit of the level
    of the root, or the root. *)
Definition root_value (root : value) (es : list edit) : value :=
  match es with
  | [] => root
  | e :: rest => snd (last rest e)
  end.

(** The key of the slot [i] of a walk of the slots of [par]. *)
Definition slot_key_of (par : value) (i : Z) : key :=
  if isArray par then KIdx i else key_at (keys_of par) i.

(** Every edit of the level was made under the key of a slot that the
    cursor [c] has reached. *)
Definition edits_behind (par : value) (c : Z) (es : list edit) : Prop :=
  Forall (fun e => exists j, (0 <= j <= c)%Z /\ fst e = slot_key_of par j)
    es.

(** The saved levels are linked: the value whose slots a level walks is
    what the slot the level below stopped at stands for, with the edits
    made there so far; below the first level it is [newRoot]. *)
Inductive linked (root : value) : list frame -> list value -> value -> Prop :=
| linked_root fr par :
    par = root_value root (f_edits fr) -> linked root [fr] [] par
| linked_push fr stk anc gp par :
    linked root stk anc gp ->
    edits_behind gp (f_index fr) (f_edits fr) ->
    par = slot_value gp (f_edits fr) (frame_key fr) ->
    linked root (fr :: stk) (anc ++ [gp]) par.

Definition run_links {W : Type} (root : value) (st : state W) : Prop :=
  linked root (stack st) (ancestors st) (parent st)
  /\ edits_behind (parent st) (index st) (edits st).

(** The path [q] starts with the path [p]. *)
Definition is_prefix (p q : list key) : Prop := exists rest, q = p ++ rest.

Section Carried.

(** A value [t] that the traversal has passed, at the path [p]. *)
Variable t : value.
Variable p : list key.

(** The slot [i] of the level of [par], found at the path [pth], is on the
    way to [p]; and when [ok] holds, what the slot stands for has [t] at a
    traversal position. *)
Definition carries (ok : Prop) (par : value) (es : list edit)
  (pth : list key) (i : Z) : Prop :=
  is_prefix (pth ++ [slot_key_of par i]) p
  /\ (ok -> occurs t (slot_value par es (slot_key_of par i))).

(** One of the saved levels carries [t], in a slot before the one it
    stopped at. *)
Inductive carried_in (ok : Prop)
  : list frame -> list key -> list value -> Prop :=
| carried_top fr stk pth anc gp i :
    (0 <= i < f_index fr)%Z -> carries ok gp (f_edits fr) pth i ->
    carried_in ok (fr :: stk) (pth ++ [frame_key fr]) (anc ++ [gp])
| carried_deeper fr stk pth anc gp :
    carried_in ok stk pth anc ->
    carried_in ok (fr :: stk) (pth ++ [frame_key fr]) (anc ++ [gp]).

(** The level being walked carries [t] in a slot the cursor has reached, or
    a saved level does. *)
Definition carried {W : Type} (ok : Prop) (st : state W) : Prop :=
  (exists i, (0 <= i <= index st)%Z
             /\ carries ok (parent st) (edits st) (path st) i)
  \/ carried_in ok (stack st) (path st) (ancestors st).

(** The calls on leaving a value above [p] that the record [cs] holds
    returned [undefined]. *)
Definition ancestors_left_alone (cs : list event) : Prop :=
  forall e,
    In e cs -> ev_leaving e = true ->
    (exists k rest, p = c_path (ev_call e) ++ k :: rest) ->
    ev_result e = VUndef.

(** No call that the record [cs] holds was made at [p] or below. *)
Definition none_below (cs : list event) : Prop :=
  Forall (fun e => ~ is_prefix p (c_path (ev_call e))) cs.

End Carried.

(** The calls that one iteration adds to the record: none, or one call with
    the path [pth]. *)
Definition one_call (leaving : bool) (pth : list key) (r : value)
  (new : list event) : Prop :=
  (new = [] /\ r = VUndef)
  \/ (exists c, new = [mkEvent leaving c r] /\ c_path c = pth).

(** The edits of a level after a value was left with the result [r]: the
    copy [node] is recorded when the result is [undefined] and the value
    was edited, nothing when it is [false], and the result otherwise. *)
Definition edits_after_leaving (es : list edit) (k : key) (edited : bool)
  (node r : value) : list edit :=
  if is_undefined r then (if edited then es ++ [(k, node)] else es)
  else if is_false r then es
  else es ++ [(k, r)].

(** The edits of a level after a slot was entered with the result [r]. *)
Definition edits_after_entering (es : list edit) (k : key) (r : value)
  : list edit :=
  if is_undefined r || is_false r then es else es ++ [(k, r)].

(** The path [q] does not go through a slot that a saved level has yet to
    reach. *)
Inductive ahead (q : list key) : list frame -> list key -> list value -> Prop :=
| ahead_root fr : ahead q [fr] [] []
| ahead_push fr stk pth anc gp :
    ahead q stk pth anc ->
    (forall j, (f_index fr < j < keys_length (keys_of gp))%Z ->
               ~ is_prefix (pth ++ [slot_key_of gp j]) q) ->
    ahead q (fr :: stk) (pth ++ [frame_key fr]) (anc ++ [gp]).

(** No recorded call was made at or below a slot that the traversal has yet
    to reach. *)
Definition calls_behind {W : Type} (st : state W) : Prop :=
  Forall (fun e =>
            (forall j, (index st < j < keys_length (keys_of (parent st)))%Z ->
               ~ is_prefix (path st ++ [slot_key_of (parent st) j])
                   (c_path (ev_call e)))
            /\ ahead (c_path (ev_call e)) (stack st) (path st) (ancestors st))
    (calls st).

(** Runs in which a value that was passed is kept, and runs in which it is
    lost. *)
Module SampleKept.

Import Sample.

(** The field [b] of the tree. *)
Definition b : value :=
  field 5 (name 6 "b") (selectionSet 7 8 [field 9 (name 10 "x") VUndef]).

(** A selection set of the visitor's own making. *)
Definition emptied : value := selectionSet 30 31 [].

(** The state at the end of the traversal with [skip_b]. *)
Definition skipped : state unit :=
  Eval vm_compute in
    match visit 40 tree skip_b tt with
    | Returned _ st _ => st
    | _ => initial tree tt
    end.

(** A field of the visitor's own making, with one field [y] inside. *)
Definition y : value := field 44 (name 45 "y") VUndef.

Definition b2 : value := field 40 (name 41 "b2") (selectionSet 42 43 [y]).

(** A visitor with [enter] and [leave] for the kind [Field], and a [leave]
    for the kind [SelectionSet] that answers [r] on the root and
    [undefined] on the other selection sets. *)
Definition with_root_leave (r : value) (f g : call -> value)
  : visitor unit :=
  mkVisitor
    (fun kind =>
       if String.eqb kind "Field"
       then Some (KindObj (Some (fun c u => (f c, u)))
                          (Some (fun c u => (g c, u))))
       else if String.eqb kind "SelectionSet"
       then Some (KindObj None
                    (Some (fun c u =>
                       (match c_path c with [] => r | _ => VUndef end, u))))
       else None)
    None None.

(** [enter]: skip the field [b]; the root is replaced on leaving. *)
Definition skip_b_replace_root : visitor unit :=
  with_root_leave emptied
    (fun c => if named "b" c then VBool false else VUndef)
    (fun _ => VUndef).

(** [enter]: replace the field [a] by [z], skip the field [b], stop at the
    field [c]. *)
Definition skip_b_break_at_c : visitor unit :=
  on_field (fun c =>
    if named "a" c then z else if named "b" c then VBool false
    else if named "c" c then VBreak else VUndef).

(** [enter]: replace the field [b] by [b2], skip the field [y] inside it;
    [false] on leaving the root. *)
Definition skip_y_refuse_root : visitor unit :=
  with_root_leave (VBool false)
    (fun c => if named "b" c then b2
              else if named "y" c then VBool false else VUndef)
    (fun _ => VUndef).

(** [leave]: delete the field [x], answer [false] on leaving [b]; the root
    is replaced on leaving. *)
Definition drop_x_replace_root : visitor unit :=
  with_root_leave emptied (fun _ => VUndef)
    (fun c => if named "x" c then VNull
              else if named "b" c then VBool false else VUndef).

(** [enter]: replace the field [a] by [z], stop at the field [c];
    [leave]: delete the field [x], answer [false] on leaving [b]. *)
Definition drop_x_break_at_c : visitor unit :=
  on_field_both
    (fun c => if named "a" c then z else if named "c" c then VBreak
              else VUndef)
    (fun c => if named "x" c then VNull
              else if named "b" c then VBool false else VUndef).

(** [enter]: replace the field [b] by [b2]; [leave]: delete the field [y]
    inside it, answer [false] on leaving [b2] and on leaving the root. *)
Definition drop_y_refuse_root : visitor unit :=
  with_root_leave (VBool false)
    (fun c => if named "b" c then b2 else VUndef)
    (fun c => if named "y" c then VNull
              else if named "b2" c then VBool false else VUndef).

(** [leave]: delete the fields [a] and [x], answer [false] on leaving
    [b]. *)
Definition drop_a_and_x : visitor unit :=
  on_field_both (fun _ => VUndef)
    (fun c => if named "a" c || named "x" c then VNull
              else if named "b" c then VBool false else VUndef).

(** What [visit] returns with [drop_a_and_x]: the tree without [a]. *)
Definition without_a : value :=
  Eval vm_compute in
    match visit 60 tree drop_a_and_x tt with
    | Returned x _ _ => x
    | _ => VUndef
    end.

(** The states at the end of the traversals with these visitors. *)
Definition final_of (r : result unit) : state unit :=
  match r with
  | Returned _ st _ => st
  | _ => initial tree tt
  end.

Definition skip_replaced : state unit :=
  Eval vm_compute in final_of (visit 40 tree skip_b_replace_root tt).

Definition skip_stopped : state unit :=
  Eval vm_compute in final_of (visit 40 tree skip_b_break_at_c tt).

Definition skip_refused : state unit :=
  Eval vm_compute in final_of (visit 60 tree skip_y_refuse_root tt).

Definition drop_replaced : state unit :=
  Eval vm_compute in final_of (visit 60 tree drop_x_replace_root tt).

Definition drop_stopped : state unit :=
  Eval vm_compute in final_of (visit 60 tree drop_x_break_at_c tt).

Definition drop_refused : state unit :=
  Eval vm_compute in final_of (visit 60 tree drop_y_refuse_root tt).

Definition drop_shifted : state unit :=
  Eval vm_compute in final_of (visit 60 tree drop_a_and_x tt).

End SampleKept.

(** Refutes that a node stands at a traversal position of a tree that is
    written out. *)
Ltac not_there :=
  repeat match goal with
         | H : False |- _ => contradiction
         | H : _ \/ _ |- _ => destruct H
         | H : In _ _ |- _ => simpl in H
         | H : _ = ?x |- _ => subst x
         | H : occurs _ _ |- _ => simpl in H; inversion H; clear H
         end.


(** * Properties *)

(** ** Trees *)

Lemma size_item x items : In x items -> size x <= list_sum (map size items).
Proof.
  induction items as [|y ys IH]; simpl; intros H; [contradiction|].
  destruct H as [->|H]; [lia|]. specialize (IH H). lia.
Qed.

Lemma size_get_field fields name :
  size (get_field fields name)
  <= list_sum (map (fun p => size (snd p)) fields).
Proof.
  induction fields as [|[n x] fs IH]; simpl; [lia|].
  destruct (String.eqb n name); simpl; lia.
Qed.

Lemma well_formed_get_field kind fields name :
  well_formed (VNode (Host 0) kind fields) = true ->
  In name (child_keys kind) ->
  well_formed (get_field fields name) = true.
Proof.
  simpl. intros Hwf Hin.
  induction fields as [|[n x] fs IH]; simpl in *; [reflexivity|].
  apply andb_true_iff in Hwf. destruct Hwf as [Hx Hfs].
  destruct (String.eqb n name) eqn:E.
  - apply String.eqb_eq in E. subst n.
    assert (is_child_key kind name = true) as Hk.
    { unfold is_child_key. apply existsb_exists. exists name.
      split; [assumption|apply String.eqb_refl]. }
    rewrite Hk in Hx. exact Hx.
  - apply IH. exact Hfs.
Qed.

(** ** A traversal in which every visit function returns [undefined] *)

Section Quiet_traversal.

Variable W : Type.
Variable v : visitor W.
Variable root : value.

Lemma advance_loop n : forall st st' fuel,
  advance v root n st = Some st' ->
  loop v root (n + fuel) st = loop v root fuel st'.
Proof.
  induction n as [|n IH]; simpl; intros st st' fuel H.
  - now inversion H.
  - destruct (body v root st) as [s1| |]; try discriminate.
    destruct (stack s1) eqn:E; try discriminate.
    now apply IH.
Qed.

Lemma advance_trans n m : forall st st1 st2,
  advance v root n st = Some st1 -> advance v root m st1 = Some st2 ->
  advance v root (n + m) st = Some st2.
Proof.
  induction n as [|n IH]; simpl; intros st st1 st2 H1 H2.
  - inversion H1; subst; assumption.
  - destruct (body v root st) as [s1| |]; try discriminate.
    destruct (stack s1) eqn:E; try discriminate.
    eapply IH; eassumption.
Qed.

(** A level whose remaining slots can each be walked is walked to its end. *)
Lemma level_done : forall m st,
  stack st <> [] -> truthy (parent st) = true ->
  (index st + 1 <= keys_length (keys st))%Z ->
  Z.to_nat (keys_length (keys st) - (index st + 1)) = m ->
  (forall i, (index st < i < keys_length (keys st))%Z ->
     slot_done v root (get_prop (parent st) (slot_key st i))) ->
  exists n u cs,
    advance v root n st = Some (at_end st u cs) /\ all_undefined cs.
Proof.
  induction m as [|m IH]; intros st Hstk Hpar Hidx Hm Hslots.
  - exists 0%nat, (user st), []. split; [|constructor].
    unfold at_end. simpl. rewrite app_nil_r.
    assert (keys_length (keys st) - 1 = index st)%Z as -> by lia.
    destruct st; reflexivity.
  - assert (index st + 1 < keys_length (keys st))%Z as Hlt by lia.
    destruct (Hslots (index st + 1)%Z ltac:(lia) st Hstk Hpar Hlt eq_refl)
      as (n1 & u1 & cs1 & Hn1 & Hcs1).
    destruct (IH (moved_on st u1 cs1)) as (n2 & u2 & cs2 & Hn2 & Hcs2);
      simpl; try assumption; try lia.
    { intros i Hi. apply (Hslots i). lia. }
    exists (n1 + n2)%nat, u2, (cs1 ++ cs2). split.
    + unfold at_end in *. simpl in Hn2. rewrite app_assoc.
      eapply advance_trans; eassumption.
    + apply Forall_app; split; assumption.
Qed.

Lemma quiet_call c leaving h k par pth anc u :
  quiet_on v c -> getVisitFn v (kind_of c) leaving = Some h ->
  exists u', h (mkCall c k par pth anc) u = (VUndef, u').
Proof.
  intros Hq Hh.
  pose proof (Hq c (occurs_here c) leaving h (mkCall c k par pth anc) u Hh
                eq_refl) as E.
  destruct (h (mkCall c k par pth anc) u) as [r u']. simpl in E. subst r.
  now exists u'.
Qed.

Lemma quiet_item r items x :
  quiet_on v (VArr r items) -> In x items -> quiet_on v x.
Proof.
  intros Hq Hin n Hn. apply Hq. eapply occurs_item; eassumption.
Qed.

Lemma quiet_field r kind fields name :
  quiet_on v (VNode r kind fields) -> In name (child_keys kind) ->
  quiet_on v (get_field fields name).
Proof.
  intros Hq Hin n Hn. apply Hq. eapply occurs_field; eassumption.
Qed.

(** An absent slot costs one iteration. *)
Lemma slot_nullish c : is_nullish c = true -> slot_done v root c.
Proof.
  intros Hc st Hstk Hpar Hlt Hslot.
  exists 1%nat, (user st), []. split; [|constructor].
  unfold advance, body.
  assert ((index st + 1 =? keys_length (keys st))%Z = false) as ->
    by (apply Z.eqb_neq; lia).
  simpl. rewrite Hpar. unfold slot_key in Hslot. rewrite Hslot, Hc.
  unfold with_index, moved_on; simpl. rewrite app_nil_r.
  destruct (stack st); [contradiction|reflexivity].
Qed.

(** What is called on the way in or out of [c] is one visit function at
    most, and it returns [undefined]; the state is otherwise the one given. *)
Lemma visit_node_quiet c leaving k st :
  isNode c = true \/ isArray c = true -> quiet_on v c ->
  exists u cs,
    visit_node v leaving false c k st =
      finish leaving false VUndef c k
        (mkState (stack st) (inArray st) (keys st) (index st) (edits st)
           (parent st) (path st) (ancestors st) (next st) u (calls st ++ cs))
    /\ all_undefined cs.
Proof.
  intros Hc Hq. unfold visit_node. destruct (isArray c) eqn:Harr.
  - exists (user st), []. split; [|constructor]. rewrite app_nil_r.
    destruct st; reflexivity.
  - destruct Hc as [Hn|Ha]; [|discriminate]. rewrite Hn. simpl.
    destruct (getVisitFn v (kind_of c) leaving) as [h|] eqn:Hh.
    + destruct (quiet_call c leaving h k (parent st) (path st) (ancestors st)
                  (user st) Hq Hh) as [u' Hu].
      rewrite Hu. simpl. eexists u', [_]. split; [reflexivity|].
      constructor; [reflexivity|constructor].
    + exists (user st), []. split; [|constructor]. rewrite app_nil_r.
      destruct st; reflexivity.
Qed.

Lemma container_not_nullish c :
  isNode c = true \/ isArray c = true -> is_nullish c = false.
Proof. intros [H|H]; destruct c; try discriminate; reflexivity. Qed.

Lemma container_dec c :
  well_formed c = true ->
  is_nullish c = true \/ (isNode c = true \/ isArray c = true).
Proof. destruct c; simpl; intros; try discriminate; auto. Qed.

(** Going into the container [c] that stands in the next slot. *)
Lemma slot_enter c st :
  isNode c = true \/ isArray c = true -> quiet_on v c ->
  truthy (parent st) = true ->
  (index st + 1 < keys_length (keys st))%Z ->
  get_prop (parent st) (slot_key st (index st + 1)) = c ->
  exists u cs,
    body v root st =
      Next (descend
              (mkState (stack st) (inArray st) (keys st) (index st + 1)%Z
                 (edits st) (parent st)
                 (path st ++ [slot_key st (index st + 1)]) (ancestors st)
                 (next st) u (calls st ++ cs)) c)
    /\ all_undefined cs.
Proof.
  intros Hc Hq Hpar Hlt Hslot. unfold body.
  assert ((index st + 1 =? keys_length (keys st))%Z = false) as ->
    by (apply Z.eqb_neq; lia).
  simpl. rewrite Hpar. unfold slot_key in *. rewrite Hslot.
  rewrite (container_not_nullish c Hc).
  match goal with |- context [visit_node v false false c ?k0 ?s] =>
    destruct (visit_node_quiet c false k0 s Hc Hq) as (u & cs & E & Hcs)
  end.
  exists u, cs. split; [|exact Hcs]. rewrite E. reflexivity.
Qed.

(** Coming out of the container [c] when none of its slots was edited. *)
Lemma slot_leave c fr stk inA ks pth k anc par nxt u cls :
  isNode c = true \/ isArray c = true -> quiet_on v c ->
  exists u' cs,
    body v root
      (mkState (fr :: stk) inA ks (keys_length ks - 1)%Z [] c (pth ++ [k])
         (anc ++ [par]) nxt u cls) =
      Next (mkState stk (f_inArray fr) (f_keys fr) (f_index fr) (f_edits fr)
              par pth anc nxt u' (cls ++ cs))
    /\ all_undefined cs.
Proof.
  intros Hc Hq. unfold body. simpl.
  replace (keys_length ks - 1 + 1)%Z with (keys_length ks) by lia.
  rewrite Z.eqb_refl. simpl.
  rewrite length_app. simpl. rewrite Nat.add_1_r. simpl.
  rewrite !last_last, !removelast_last.
  match goal with |- context [visit_node v true false c k ?s] =>
    destruct (visit_node_quiet c true k s Hc Hq) as (u' & cs & E & Hcs)
  end.
  exists u', cs. split; [|exact Hcs]. rewrite E.
  unfold finish, with_path; simpl. now rewrite removelast_last.
Qed.

(** The slots of a container whose parts can all be walked. *)
Lemma children_done c st :
  isNode c = true \/ isArray c = true ->
  well_formed c = true -> quiet_on v c ->
  (forall x, size x < size c -> well_formed x = true -> quiet_on v x ->
     slot_done v root x) ->
  exists n u cs,
    advance v root n (descend st c) = Some (at_end (descend st c) u cs)
    /\ all_undefined cs.
Proof.
  intros Hc Hwf Hq IH.
  apply (level_done (Z.to_nat (keys_length (keys_of c)))); simpl.
  - discriminate.
  - destruct Hc as [H|H]; destruct c; try discriminate; reflexivity.
  - destruct (keys_of c); simpl; lia.
  - f_equal. lia.
  - intros i Hi. unfold slot_key; simpl.
    destruct c as [| | | | |r items|r kind fields];
      try (destruct Hc; discriminate); simpl in *.
    + destruct (i <? 0)%Z eqn:Ei; [apply Z.ltb_lt in Ei; lia|].
      assert (In (nth (Z.to_nat i) items VUndef) items) as Hin
        by (apply nth_In; lia).
      apply IH.
      * pose proof (size_item _ _ Hin). lia.
      * rewrite forallb_forall in Hwf. now apply Hwf.
      * eapply quiet_item; eassumption.
    + destruct (i <? 0)%Z eqn:Ei; [apply Z.ltb_lt in Ei; lia|].
      destruct (nth_error (child_keys kind) (Z.to_nat i)) as [name|] eqn:En.
      2:{ apply nth_error_None in En. lia. }
      apply nth_error_In in En. simpl.
      apply IH.
      * pose proof (size_get_field fields name). lia.
      * eapply well_formed_get_field; [exact Hwf|exact En].
      * eapply quiet_field; eassumption.
Qed.

(** Every well-formed subtree on which the visitor is quiet is walked
    without a trace in the levels above it. *)
Lemma slot_quiet : forall sz c,
  size c <= sz -> well_formed c = true -> quiet_on v c -> slot_done v root c.
Proof.
  induction sz as [|sz IH]; intros c Hsz Hwf Hq;
    destruct (container_dec c Hwf) as [Hnull|Hc];
    try (now apply slot_nullish).
  - destruct Hc as [H|H]; destruct c; try discriminate; simpl in Hsz; lia.
  - intros st Hstk Hpar Hlt Hslot.
    destruct (slot_enter c st Hc Hq Hpar Hlt Hslot)
      as (u1 & cs1 & Hbody & Hcs1).
    set (k := slot_key st (index st + 1)) in *.
    set (st1 := mkState _ _ _ _ _ _ _ _ _ _ _) in Hbody.
    destruct (children_done c st1 Hc Hwf Hq) as (n2 & u2 & cs2 & Hn2 & Hcs2).
    { intros x Hx. apply IH. lia. }
    destruct (slot_leave c
                (mkFrame (inArray st) (index st + 1) (keys st) (edits st))
                (stack st) (isArray c) (keys_of c) (path st) k (ancestors st)
                (parent st) (next st) u2 ((calls st ++ cs1) ++ cs2) Hc Hq)
      as (u3 & cs3 & Hleave & Hcs3).
    exists (1 + (n2 + 1))%nat, u3, ((cs1 ++ cs2) ++ cs3). split.
    + eapply (advance_trans 1).
      { simpl. rewrite Hbody. simpl. reflexivity. }
      eapply advance_trans; [exact Hn2|].
      subst st1. unfold at_end, descend. simpl. rewrite Hpar.
      rewrite Hleave. simpl.
      unfold moved_on. rewrite !app_assoc.
      destruct (stack st); [contradiction|reflexivity].
    + repeat (apply Forall_app; split); assumption.
Qed.


(** More fuel does not change how a finished loop ended. *)
Lemma loop_more_fuel : forall fuel st st' b k,
  loop v root fuel st = Stopped st' b ->
  loop v root (fuel + k) st = Stopped st' b.
Proof.
  induction fuel as [|fuel IH]; simpl; intros st st' b k H; [discriminate|].
  destruct (body v root st) as [s1|s1|]; try assumption.
  destruct (stack s1); [assumption|]. now apply IH.
Qed.

Lemma quiet_run (u : W) :
  well_formed root = true -> quiet_on v root ->
  exists fuel final,
    loop v root fuel (initial root u) = Stopped final false
    /\ edits final = [] /\ next final = 0 /\ all_undefined (calls final).
Proof.
  intros Hwf Hq. destruct (container_dec root Hwf) as [Hnull|Hc].
  - exists 1%nat, (with_index (initial root u) 0). simpl.
    unfold body. simpl. rewrite Hnull. simpl.
    repeat split; constructor.
  - destruct (visit_node_quiet root false KUndef
                (with_index (initial root u) 0) Hc Hq)
      as (u1 & cs1 & Henter & Hcs1).
    set (st1 := mkState _ _ _ _ _ _ _ _ _ _ _) in Henter.
    destruct (children_done root st1 Hc Hwf Hq) as (n2 & u2 & cs2 & Hn2 & Hcs2).
    { intros x Hx. now apply (slot_quiet (size x)). }
    destruct (visit_node_quiet root true KUndef
                (mkState [] (isArray root) (KValues [root]) 0%Z [] VUndef []
                   [] 0 u2 (cs1 ++ cs2)) Hc Hq)
      as (u3 & cs3 & Hleave & Hcs3).
    eexists (1 + (n2 + 1))%nat, _. split; [|split; [|split]].
    + change (1 + (n2 + 1))%nat with (S (n2 + 1)). simpl.
      unfold body at 1. simpl. rewrite (container_not_nullish root Hc).
      rewrite Henter. unfold finish. simpl.
      rewrite (advance_loop n2 _ _ 1 Hn2).
      subst st1. unfold at_end, descend. simpl.
      unfold body. simpl.
      replace (keys_length (keys_of root) - 1 + 1)%Z
        with (keys_length (keys_of root)) by lia.
      rewrite Z.eqb_refl. simpl. rewrite Hleave. unfold finish. simpl.
      reflexivity.
    + reflexivity.
    + reflexivity.
    + simpl. repeat (apply Forall_app; split); assumption.
Qed.

End Quiet_traversal.

(** C1. When every visit function the traversal calls returns [undefined],
    [visit(root, visitor)] returns [root] itself: the loop ends without a
    [break], no edit is pending, no copy was made (the allocation counter is
    still 0), and more fuel gives the same answer. *)
Theorem visit_unedited_returns_root (W : Type) (v : visitor W) (root : value)
  (u : W) :
  well_formed root = true -> quiet_on v root ->
  exists fuel final,
    (forall k, visit (fuel + k) root v u = Returned root final false)
    /\ next final = 0 /\ edits final = []
    /\ all_undefined (calls final).
Proof.
  intros Hwf Hq.
  destruct (quiet_run W v root u Hwf Hq) as (fuel & final & Hrun & He & Hn & Hc).
  exists fuel, final. repeat split; try assumption.
  intros k. unfold visit. rewrite (loop_more_fuel W v root _ _ _ _ k Hrun).
  now rewrite He.
Qed.

Lemma visit_unedited_returns_root_witness :
  exists fuel final,
    (forall k, visit (fuel + k) Sample.tree Sample.silent tt
               = Returned Sample.tree final false)
    /\ next final = 0 /\ edits final = []
    /\ all_undefined (calls final).
Proof.
  apply (visit_unedited_returns_root unit Sample.silent Sample.tree tt).
  - reflexivity.
  - intros n _ leaving h c u Hh _. destruct leaving; simpl in Hh;
      inversion Hh; reflexivity.
Defined.

(** ** Edits of an array *)

Lemma set_cell_middle pre c c' post :
  set_cell (pre ++ c :: post) (List.length pre) c' = pre ++ c' :: post.
Proof. induction pre as [|x pre IH]; simpl; [reflexivity|now rewrite IH]. Qed.

Lemma compact_app a b : compact (a ++ b) = compact a ++ compact b.
Proof.
  induction a as [|[x|] a IH]; simpl; [reflexivity| |assumption].
  now rewrite IH.
Qed.

Lemma count_deleted_app a b :
  count_deleted (a ++ b) = count_deleted a + count_deleted b.
Proof. unfold count_deleted. now rewrite filter_app, length_app. Qed.

Lemma compact_length cs :
  List.length (compact cs) + count_deleted cs = List.length cs.
Proof.
  unfold count_deleted.
  induction cs as [|[x|] cs IH]; simpl; [reflexivity| |]; lia.
Qed.

Lemma firstn_prefix (A : Type) (a b : list A) :
  firstn (List.length a) (a ++ b) = a.
Proof. induction a as [|x a IH]; simpl; [now destruct b|now rewrite IH]. Qed.

Lemma skipn_past (A : Type) (a : list A) x b :
  skipn (S (List.length a)) (a ++ x :: b) = b.
Proof. induction a as [|y a IH]; simpl; [reflexivity|exact IH]. Qed.

Lemma array_set_middle a x b y :
  array_set (a ++ x :: b) (Z.of_nat (List.length a)) y = a ++ y :: b.
Proof.
  unfold array_set.
  destruct (Z.of_nat (List.length a) <? 0)%Z eqn:E;
    [apply Z.ltb_lt in E; lia|].
  rewrite Nat2Z.id.
  assert ((List.length a <? List.length (a ++ x :: b))%nat = true) as ->.
  { apply Nat.ltb_lt. rewrite length_app. simpl. lia. }
  now rewrite firstn_prefix, skipn_past.
Qed.

Lemma splice1_middle a x b :
  splice1 (a ++ x :: b) (Z.of_nat (List.length a)) = a ++ b.
Proof.
  unfold splice1.
  destruct (Z.of_nat (List.length a) <? 0)%Z eqn:E;
    [apply Z.ltb_lt in E; lia|].
  rewrite Z.min_l by (rewrite length_app; simpl; lia).
  rewrite Nat2Z.id.
  now rewrite firstn_prefix, skipn_past.
Qed.

Lemma live_split lo cs i :
  live_from lo cs -> (0 <= lo <= i)%Z ->
  (i < Z.of_nat (List.length cs))%Z ->
  exists pre x post,
    cs = pre ++ Some x :: post /\ List.length pre = Z.to_nat i
    /\ count_deleted post = 0 /\ live_from 0 post.
Proof.
  intros Hlive Hlo Hlt.
  assert (Z.to_nat i < List.length cs) as Hn by lia.
  destruct (nth_split cs None Hn) as (pre & post & Hcs & Hlen).
  pose proof (Hlive (Z.to_nat i) ltac:(lia) Hn) as Hx.
  destruct (nth (Z.to_nat i) cs None) as [x|] eqn:Ex; [|contradiction].
  exists pre, x, post. split; [exact Hcs|]. split; [exact Hlen|].
  assert (live_from 0 post) as Hpost.
  { intros j _ Hj. specialize (Hlive (List.length pre + 1 + j) ltac:(lia)).
    rewrite Hcs in Hlive.
    rewrite length_app in Hlive. simpl in Hlive.
    specialize (Hlive ltac:(lia)).
    rewrite app_nth2 in Hlive by lia.
    replace (List.length pre + 1 + j - List.length pre) with (S j) in Hlive
      by lia.
    exact Hlive. }
  split; [|exact Hpost].
  clear - Hpost. induction post as [|[y|] post IH].
  - reflexivity.
  - unfold count_deleted in *. simpl. apply IH.
    intros j _ Hj. apply (Hpost (S j)); simpl; lia.
  - exfalso. apply (Hpost 0); simpl; [lia|lia|reflexivity].
Qed.

Lemma live_after pre c post lo :
  c <> None -> live_from 0 post ->
  (Z.of_nat (List.length pre) <= lo)%Z ->
  live_from lo (pre ++ c :: post).
Proof.
  intros Hc Hpost Hlo j Hj Hlen.
  rewrite app_nth2 by lia.
  destruct (j - List.length pre) as [|k] eqn:E; simpl; [exact Hc|].
  apply Hpost; [lia|]. rewrite length_app in Hlen. simpl in Hlen. lia.
Qed.

Lemma live_after_deleted pre post lo :
  live_from 0 post ->
  (Z.of_nat (List.length pre) + 1 <= lo)%Z ->
  live_from lo (pre ++ None :: post).
Proof.
  intros Hpost Hlo j Hj Hlen.
  rewrite app_nth2 by lia.
  destruct (j - List.length pre) as [|k] eqn:E; simpl; [lia|].
  apply Hpost; [lia|]. rewrite length_app in Hlen. simpl in Hlen. lia.
Qed.

(** The loop of [visit] over the edits of an array, started in the middle:
    with [editOffset] the number of slots deleted so far, it does to the
    array what the edits say about the original slots. *)
Lemma apply_array_edits_cells : forall es cs lo,
  (0 <= lo)%Z -> live_from lo cs ->
  ordered_from lo (Z.of_nat (List.length cs)) es = true ->
  apply_array_edits (compact cs) es (Z.of_nat (count_deleted cs))
  = compact (fold_left edit_cell es cs).
Proof.
  induction es as [|[k x] es IH]; intros cs lo Hlo Hlive Hord;
    [reflexivity|].
  simpl in Hord. destruct k as [|i|s]; try discriminate.
  apply andb_true_iff in Hord. destruct Hord as [Hrange Hrest].
  apply andb_true_iff in Hrange. destruct Hrange as [Hge Hlt].
  apply Z.leb_le in Hge. apply Z.ltb_lt in Hlt.
  destruct (live_split lo cs i Hlive (conj Hlo Hge) Hlt)
    as (pre & y & post & Hcs & Hpre & Hdel & Hpost).
  assert (count_deleted cs = count_deleted pre) as Hoff.
  { rewrite Hcs, count_deleted_app. unfold count_deleted in *. simpl.
    rewrite Hdel. lia. }
  assert (i - Z.of_nat (count_deleted cs)
          = Z.of_nat (List.length (compact pre)))%Z as Htarget.
  { pose proof (compact_length pre). lia. }
  assert (compact cs = compact pre ++ y :: compact post) as Hcompact
    by (rewrite Hcs, compact_app; reflexivity).
  assert (List.length cs = List.length pre + S (List.length post)) as Hlen
    by (rewrite Hcs, length_app; reflexivity).
  simpl. rewrite Htarget, Hcompact.
  destruct (is_null x) eqn:Hx.
  - rewrite splice1_middle.
    assert (set_cell cs (Z.to_nat i) None = pre ++ None :: post) as Hset
      by (rewrite Hcs, <- Hpre; apply set_cell_middle).
    rewrite Hset.
    rewrite <- (IH (pre ++ None :: post) (i + 1)%Z).
    + rewrite compact_app. simpl. f_equal.
      rewrite count_deleted_app, Hoff. unfold count_deleted in *. simpl.
      rewrite Hdel. lia.
    + lia.
    + apply live_after_deleted; [exact Hpost|lia].
    + rewrite length_app. simpl. rewrite <- Hlen. exact Hrest.
  - rewrite array_set_middle.
    assert (set_cell cs (Z.to_nat i) (Some x) = pre ++ Some x :: post)
      as Hset by (rewrite Hcs, <- Hpre; apply set_cell_middle).
    rewrite Hset.
    rewrite <- (IH (pre ++ Some x :: post) i).
    + rewrite compact_app. simpl. f_equal.
      rewrite count_deleted_app, Hoff. unfold count_deleted in *. simpl.
      rewrite Hdel. lia.
    + lia.
    + apply live_after; [discriminate|exact Hpost|lia].
    + rewrite length_app. simpl. rewrite <- Hlen. exact Hrest.
Qed.

Lemma live_from_start arr : live_from 0 (map Some arr).
Proof.
  intros j _ Hj. rewrite length_map in Hj.
  rewrite (nth_indep _ None (Some VUndef)) by (now rewrite length_map).
  rewrite (map_nth Some). discriminate.
Qed.

Lemma count_deleted_start arr : count_deleted (map Some arr) = 0.
Proof. unfold count_deleted. induction arr; simpl; auto. Qed.

Lemma compact_start arr : compact (map Some arr) = arr.
Proof. induction arr as [|x arr IH]; simpl; [|rewrite IH]; reflexivity. Qed.

Lemma apply_array_edits_refines arr es :
  edits_in_order arr es = true ->
  apply_array_edits arr es 0 = edits_at_original_positions arr es.
Proof.
  intros H. unfold edits_at_original_positions.
  rewrite <- (apply_array_edits_cells es (map Some arr) 0).
  - now rewrite compact_start, count_deleted_start.
  - lia.
  - apply live_from_start.
  - rewrite length_map. exact H.
Qed.

(** Deleting the element at index [i] and then editing the one at index
    [i + 1] replaces the element that followed the deleted one. *)
Lemma delete_then_edit (arr : list value) i x :
  i + 1 < List.length arr -> is_null x = false ->
  apply_array_edits arr
    [(KIdx (Z.of_nat i), VNull); (KIdx (Z.of_nat i + 1), x)] 0
  = firstn i arr ++ x :: skipn (i + 2) arr.
Proof.
  intros Hi Hx.
  assert (exists pre a b rest,
            arr = pre ++ a :: b :: rest /\ List.length pre = i)
    as (pre & a & b & rest & E & Hl).
  { pose proof (firstn_skipn i arr) as Hsplit.
    destruct (skipn i arr) as [|a [|b rest]] eqn:Es.
    - apply (f_equal (@List.length value)) in Es.
      rewrite length_skipn in Es. simpl in Es. lia.
    - apply (f_equal (@List.length value)) in Es.
      rewrite length_skipn in Es. simpl in Es. lia.
    - exists (firstn i arr), a, b, rest. split; [now rewrite Hsplit|].
      rewrite length_firstn; lia. }
  subst arr i.
  rewrite firstn_prefix.
  assert (skipn (List.length pre + 2) (pre ++ a :: b :: rest) = rest) as ->.
  { replace (List.length pre + 2) with (S (List.length (pre ++ [a])))
      by (rewrite length_app; simpl; lia).
    replace (pre ++ a :: b :: rest) with ((pre ++ [a]) ++ b :: rest)
      by (now rewrite <- app_assoc).
    apply skipn_past. }
  simpl. rewrite Hx.
  replace (Z.of_nat (List.length pre) - 0)%Z
    with (Z.of_nat (List.length pre)) by lia.
  rewrite splice1_middle.
  replace (Z.of_nat (List.length pre) + 1 - 1)%Z
    with (Z.of_nat (List.length pre)) by lia.
  now rewrite array_set_middle.
Qed.

(** ** What [break] does *)

Section Break.

Variable W : Type.
Variable v : visitor W.
Variable root : value.

#[local] Arguments finish : simpl never.

Lemma finish_calls leaving edited r n k (st st' : state W) :
  finish leaving edited r n k st = Next st' -> calls st' = calls st.
Proof.
  unfold finish. destruct (is_undefined r && edited), leaving;
    intros H; inversion H; reflexivity.
Qed.

Lemma finish_not_broke leaving edited r n k (st st' : state W) :
  finish leaving edited r n k st <> Broke st'.
Proof. unfold finish. destruct (is_undefined r && edited), leaving; discriminate. Qed.

(** One call at most in an iteration; the loop goes on only when it did not
    return [BREAK], and breaks only just after it did. *)
Lemma visit_node_calls leaving edited n k (st : state W) :
  match visit_node v leaving edited n k st with
  | Next st' =>
      calls st' = calls st
      \/ exists e, calls st' = calls st ++ [e] /\ ev_result e <> VBreak
  | Broke st' =>
      exists e, calls st' = calls st ++ [e] /\ ev_result e = VBreak
  | Thrown _ => True
  end.
Proof.
  unfold visit_node. destruct (isArray n).
  { destruct (finish _ _ _ _ _ _) eqn:E; auto.
    - left. eapply finish_calls; eassumption.
    - now apply finish_not_broke in E. }
  destruct (isNode n); simpl; [|exact I].
  destruct (getVisitFn v (kind_of n) leaving) as [h|].
  2:{ destruct (finish _ _ _ _ _ _) eqn:E; auto.
      - left. eapply finish_calls; eassumption.
      - now apply finish_not_broke in E. }
  destruct (h _ _) as [r u]. simpl.
  destruct (is_break r) eqn:Hb.
  { destruct r; try discriminate. eexists. split; reflexivity. }
  assert (r <> VBreak) as Hr by (intros ->; discriminate).
  assert (forall o : outcome W,
            (forall st', o = Next st' ->
               calls st' = calls st ++ [mkEvent leaving
                 (mkCall n k (parent st) (path st) (ancestors st)) r]) ->
            (forall st', o <> Broke st') ->
            match o with
            | Next st' =>
                calls st' = calls st
                \/ exists e, calls st' = calls st ++ [e]
                             /\ ev_result e <> VBreak
            | Broke st' =>
                exists e, calls st' = calls st ++ [e] /\ ev_result e = VBreak
            | Thrown _ => True
            end) as Hout.
  { intros [s|s|m] H1 H2; auto.
    - right. eexists. split; [now apply H1|exact Hr].
    - now destruct (H2 s). }
  apply Hout.
  - intros st'.
    destruct (is_false r); [destruct leaving; simpl|];
      [intros E; apply finish_calls in E; exact E
      |intros E; inversion E; reflexivity|].
    destruct (is_undefined r); simpl;
      [intros E; apply finish_calls in E; exact E|].
    destruct leaving; simpl;
      [intros E; apply finish_calls in E; exact E|].
    destruct (isNode r);
      [intros E; apply finish_calls in E; exact E
      |intros E; inversion E; reflexivity].
  - intros st'.
    destruct (is_false r); [destruct leaving; simpl|];
      [apply finish_not_broke|discriminate|].
    destruct (is_undefined r); simpl; [apply finish_not_broke|].
    destruct leaving; simpl; [apply finish_not_broke|].
    destruct (isNode r); [apply finish_not_broke|discriminate].
Qed.

Lemma body_calls (st : state W) :
  match body v root st with
  | Next st' =>
      calls st' = calls st
      \/ exists e, calls st' = calls st ++ [e] /\ ev_result e <> VBreak
  | Broke st' =>
      exists e, calls st' = calls st ++ [e] /\ ev_result e = VBreak
  | Thrown _ => True
  end.
Proof.
  unfold body.
  destruct (index st + 1 =? keys_length (keys st))%Z.
  - destruct (stack st) as [|fr prev]; [exact I|].
    match goal with |- context [visit_node v ?l ?e ?n ?k ?s] =>
      exact (visit_node_calls l e n k s)
    end.
  - destruct (is_nullish _); [left; reflexivity|].
    destruct (truthy (parent st));
      match goal with |- context [visit_node v ?l ?e ?n ?k ?s] =>
        exact (visit_node_calls l e n k s)
      end.
Qed.

(** When the loop has ended, a call that returned [BREAK] is the last call
    that was made. *)
Lemma loop_break_last : forall fuel st final b,
  no_break (calls st) ->
  loop v root fuel st = Stopped final b ->
  forall before e after,
    calls final = before ++ e :: after -> ev_result e = VBreak ->
    after = [] /\ b = true.
Proof.
  induction fuel as [|fuel IH]; simpl; intros st final b Hclean Hrun;
    [discriminate|].
  pose proof (body_calls st) as Hbody.
  assert (forall cs before e after,
            no_break cs -> cs = before ++ e :: after ->
            ev_result e = VBreak -> False) as Hnever.
  { intros cs before e after Hcs -> He.
    apply Forall_app in Hcs. destruct Hcs as [_ Hcs].
    inversion Hcs; subst; contradiction. }
  destruct (body v root st) as [s1|s1|m]; try discriminate.
  - assert (no_break (calls s1)) as Hclean1.
    { destruct Hbody as [->|(e & -> & He)]; [assumption|].
      apply Forall_app; split; [assumption|]. now repeat constructor. }
    destruct (stack s1).
    + inversion Hrun; subst. intros before e after Hsplit He.
      exfalso. eapply Hnever; eassumption.
    + eapply IH; eassumption.
  - inversion Hrun; subst. destruct Hbody as (e0 & Hcalls & He0).
    intros before e after Hsplit He. split; [|reflexivity].
    rewrite Hcalls in Hsplit.
    destruct after as [|a after] using rev_ind; [reflexivity|].
    exfalso. clear IHafter.
    replace (before ++ e :: after ++ [a])
      with ((before ++ e :: after) ++ [a]) in Hsplit
      by (now rewrite <- app_assoc).
    apply app_inj_tail in Hsplit. destruct Hsplit as [Hsplit _].
    eapply Hnever; eassumption.
Qed.

End Break.

(** X17. In the record of a finished [visit], nothing follows a call that
    returned [BREAK]. *)
Lemma visit_break_is_last_call (W : Type) fuel root (v : visitor W) u r final
  b :
  visit fuel root v u = Returned r final b ->
  forall before e after,
    calls final = before ++ e :: after -> ev_result e = VBreak ->
    after = [] /\ b = true.
Proof.
  unfold visit. intros H.
  destruct (loop v root fuel (initial root u)) as [st b'| |] eqn:Hrun;
    try discriminate.
  inversion H; subst.
  eapply loop_break_last; [|exact Hrun]. constructor.
Qed.

(** C2, at the input the claim fails on.  The visitor replaces the field [a]
    by [z] on entering it and returns [BREAK] on entering the field [b].
    Two functions were called and none after the [BREAK], but what [visit]
    returns is [z] alone, the last edit pending in the array of selections,
    and not the document. *)
Theorem break_returns_pending_edit :
  Sample.returned (visit 20 Sample.tree Sample.replace_a_break_at_b tt)
  = Some Sample.z
  /\ Sample.visited (visit 20 Sample.tree Sample.replace_a_break_at_b tt)
     = [(false, "a"); (false, "b")].
Proof. split; vm_compute; reflexivity. Qed.

(** The same visitor when it stops one level further down, inside [b]: the
    level it stops in has no edit pending, [visit] returns the document it
    was given and the replacement of [a] is lost. *)
Lemma break_below_drops_edits :
  Sample.returned (visit 20 Sample.tree Sample.replace_a_break_at_x tt)
  = Some Sample.tree.
Proof. vm_compute. reflexivity. Qed.

(** ** Skipping a subtree *)

(** Whenever the loop comes to a node and the visit function chosen for
    entering it returns [false], the iteration ends there: that one call is
    recorded, no level is saved on the stack, no edit is recorded, and the
    next iteration starts at the following slot of the same level. *)
Lemma enter_false_iteration (W : Type) (v : visitor W) (root : value)
  (st : state W) (h : handler W) (u' : W) :
  let i := (index st + 1)%Z in
  let k := if truthy (parent st) then slot_key st i else KUndef in
  let node := if truthy (parent st) then get_prop (parent st) k else root in
  let p := if truthy (parent st) then path st ++ [k] else path st in
  let c := mkCall node k (parent st) p (ancestors st) in
  i <> keys_length (keys st) ->
  isNode node = true ->
  getVisitFn v (kind_of node) false = Some h ->
  h c (user st) = (VBool false, u') ->
  body v root st =
    Next (mkState (stack st) (inArray st) (keys st) i (edits st) (parent st)
            (removelast p) (ancestors st) (next st) u'
            (calls st ++ [mkEvent false c (VBool false)])).
Proof.
  intros i k node p c Hi Hnode Hfn Hcall. unfold body.
  fold i. apply Z.eqb_neq in Hi. rewrite Hi. simpl.
  unfold slot_key in k. fold k. fold node.
  assert (is_nullish node = false) as -> by (now destruct node).
  unfold visit_node.
  assert (isArray node = false) as -> by (now destruct node).
  rewrite Hnode. simpl. rewrite Hfn.
  subst c p. destruct (truthy (parent st)); simpl in *; rewrite Hcall;
    reflexivity.
Qed.

(** On the whole tree: [b] is entered, nothing below it is, it is not left,
    and [visit] returns the tree it was given. *)
Lemma skip_b_run :
  Sample.returned (visit 40 Sample.tree Sample.skip_b tt) = Some Sample.tree
  /\ Sample.visited (visit 40 Sample.tree Sample.skip_b tt)
     = [(false, "a"); (false, "b"); (false, "c")].
Proof. split; vm_compute; reflexivity. Qed.

(** ** A [false] on the way out *)

(** When the loop leaves a node whose level has pending edits and the
    visit function chosen for leaving returns [false], the copy of the node
    that was just built with those edits is handed to the function and then
    dropped: the edits of the level above are what they were when the node
    was entered. *)
Lemma leave_false_iteration (W : Type) (v : visitor W)
  (root : value) (st : state W) (fr : frame) (prev : list frame)
  (h : handler W) (u' : W) :
  let node := clone_with_edits (inArray st) (parent st) (edits st) (next st) in
  let k := if Nat.eqb (List.length (ancestors st)) 0 then KUndef
           else last (path st) KUndef in
  let c := mkCall node k (last (ancestors st) VUndef) (path st)
             (removelast (ancestors st)) in
  (index st + 1)%Z = keys_length (keys st) ->
  edits st <> [] ->
  stack st = fr :: prev ->
  isNode (parent st) = true ->
  getVisitFn v (kind_of node) true = Some h ->
  h c (user st) = (VBool false, u') ->
  body v root st =
    Next (mkState prev (f_inArray fr) (f_keys fr) (f_index fr) (f_edits fr)
            (last (ancestors st) VUndef) (removelast (path st))
            (removelast (ancestors st)) (S (next st)) u'
            (calls st ++ [mkEvent true c (VBool false)])).
Proof.
  intros node k c Hi He Hstack Hnode Hfn Hcall. unfold body.
  rewrite Hi, Z.eqb_refl, Hstack. simpl.
  assert ((List.length (edits st) =? 0)%nat = false) as ->
    by (destruct (edits st); [contradiction|reflexivity]).
  simpl. fold node. fold k. unfold visit_node.
  assert (isNode node = true) as Hn.
  { subst node. destruct (parent st); try discriminate.
    simpl. now destruct (inArray st). }
  assert (isArray node = false) as -> by (now destruct node).
  rewrite Hn. simpl. rewrite Hfn. fold c. rewrite Hcall. reflexivity.
Qed.

(** On the whole tree: [x] is deleted below [b], but [false] on leaving [b]
    drops the copy, and [visit] returns the tree it was given; with
    [undefined] instead the copy goes up and a new tree comes back. *)
Lemma leave_false_run :
  Sample.returned
    (visit 40 Sample.tree (Sample.delete_x_then (VBool false)) tt)
  = Some Sample.tree
  /\ Sample.returned (visit 40 Sample.tree (Sample.delete_x_then VUndef) tt)
     <> Some Sample.tree.
Proof. split; vm_compute; [reflexivity|discriminate]. Qed.

(** ** Visitors in parallel *)

Lemma nth_array_set (l : list value) i j x :
  nth j (array_set l (Z.of_nat i) x) VUndef
  = if Nat.eqb i j then x else nth j l VUndef.
Proof.
  unfold array_set.
  destruct (Z.of_nat i <? 0)%Z eqn:E; [apply Z.ltb_lt in E; lia|].
  rewrite Nat2Z.id.
  destruct (i <? List.length l)%nat eqn:Hlt.
  - apply Nat.ltb_lt in Hlt.
    destruct (nth_split l VUndef Hlt) as (a & b & Hl & Ha).
    remember (nth i l VUndef) as y eqn:Ey. clear Ey Hlt E. subst l i.
    rewrite firstn_prefix, skipn_past.
    destruct (Nat.eqb (List.length a) j) eqn:Hij.
    + apply Nat.eqb_eq in Hij. subst j.
      rewrite app_nth2 by lia. rewrite Nat.sub_diag. reflexivity.
    + apply Nat.eqb_neq in Hij.
      destruct (Nat.lt_ge_cases j (List.length a)) as [Hj|Hj].
      * now rewrite !app_nth1 by lia.
      * rewrite !app_nth2 by lia.
        destruct (j - List.length a) as [|d] eqn:Hd; [lia|]. reflexivity.
  - apply Nat.ltb_ge in Hlt.
    destruct (Nat.eqb i j) eqn:Hij.
    + apply Nat.eqb_eq in Hij. subst j.
      rewrite app_nth2 by lia.
      rewrite app_nth2 by (rewrite repeat_length; lia).
      rewrite repeat_length.
      replace (i - List.length l - (i - List.length l)) with 0 by lia.
      reflexivity.
    + apply Nat.eqb_neq in Hij.
      destruct (Nat.lt_ge_cases j (List.length l)) as [Hj|Hj].
      * now rewrite app_nth1 by lia.
      * rewrite app_nth2 by lia. rewrite (nth_overflow l) by lia.
        destruct (Nat.lt_ge_cases (j - List.length l) (i - List.length l))
          as [Hk|Hk].
        -- rewrite app_nth1 by (rewrite repeat_length; lia).
           apply nth_repeat.
        -- rewrite app_nth2 by (rewrite repeat_length; lia).
           rewrite repeat_length.
           destruct (j - List.length l - (i - List.length l)) as [|d] eqn:Hd;
             [lia|]. simpl. now destruct d.
Qed.

Section Parallel_visitors.

Variable W : Type.

(** The loop is done: nothing was called, nothing changed. *)
Lemma loop_from_done i leaving c (st : pstate W) :
  loop_from_spec i [] leaving c st (VUndef, st).
Proof.
  split; [discriminate|]. exists []. simpl. rewrite app_nil_r.
  repeat split; auto.
  intros _ k vk fn Hk. now destruct k.
Qed.

(** The loop returns the edit [r] of the visitor number [i]. *)
Lemma loop_from_edit i vi rest leaving c (st : pstate W) w r :
  r <> VBreak -> r <> VUndef ->
  is_nullish (nth i (skipping st) VUndef) = true ->
  loop_from_spec i (vi :: rest) leaving c st
    (r, after_pcall st w (mkPEvent i leaving (c_node c) r)).
Proof.
  intros Hb Hu Hnull. split; [exact Hb|].
  eexists [_]. simpl. repeat split; auto.
  - repeat constructor; simpl; auto. intros; contradiction.
  - intros; contradiction.
Qed.

(** One turn of the loop, for the visitor number [i], followed by the rest
    of the loop. *)
Lemma loop_from_step i vi rest leaving c (st st1 : pstate W) out
  (called : option pevent) :
  pcalls st1
  = pcalls st ++ (match called with Some e => [e] | None => [] end) ->
  (forall j, j <> i ->
     nth j (skipping st1) VUndef = nth j (skipping st) VUndef) ->
  (nth i (skipping st) VUndef = VBreak ->
   nth i (skipping st1) VUndef = VBreak) ->
  match called with
  | Some e =>
      pe_visitor e = i
      /\ is_nullish (nth i (skipping st) VUndef) = true
      /\ (pe_result e = VBreak -> nth i (skipping st1) VUndef = VBreak)
  | None =>
      is_nullish (nth i (skipping st) VUndef) = false
      \/ getVisitFn vi (kind_of (c_node c)) leaving = None
  end ->
  loop_from_spec (S i) rest leaving c st1 out ->
  loop_from_spec i (vi :: rest) leaving c st out.
Proof.
  intros Hcalls Hother Hsame Hcalled (Hout & new & Hnew & Hlow & Hkeep & Hev & Hall).
  split; [exact Hout|].
  exists ((match called with Some e => [e] | None => [] end) ++ new).
  split; [now rewrite Hnew, Hcalls, app_assoc|].
  split; [intros j Hj; rewrite Hlow by lia; apply Hother; lia|].
  split.
  { intros j Hj. apply Hkeep.
    destruct (Nat.eq_dec j i) as [->|Hji]; [now apply Hsame|].
    now rewrite Hother. }
  split.
  { apply Forall_app. split.
    - destruct called as [e|]; [|constructor].
      destruct Hcalled as (Hi & Hnull & Hbreak).
      constructor; [|constructor].
      rewrite Hi. split; [lia|]. split; [exact Hnull|].
      intros Hr. rewrite Hlow by lia. now apply Hbreak.
    - eapply Forall_impl; [|exact Hev]. simpl.
      intros e (Hge & Hnull & Hbreak). repeat split; [lia| |exact Hbreak].
      rewrite <- Hother by lia. exact Hnull. }
  intros Hundef k vk fn Hk Hnull Hfn.
  destruct k as [|k]; simpl in Hk.
  - inversion Hk; subst vk. rewrite Nat.add_0_r in *.
    destruct called as [e|].
    + exists e. split; [now left|apply Hcalled].
    + destruct Hcalled as [Hc|Hc]; congruence.
  - destruct (Hall Hundef k vk fn Hk) as (e & He & Hv).
    + rewrite Hother by lia.
      replace (S i + k) with (i + S k) by lia. exact Hnull.
    + exact Hfn.
    + exists e. split; [apply in_or_app; now right|lia].
Qed.

Lemma skipping_set_other (st : pstate W) i x j :
  j <> i ->
  nth j (skipping (set_skipping st i x)) VUndef = nth j (skipping st) VUndef.
Proof.
  intros H. simpl. rewrite nth_array_set.
  destruct (Nat.eqb i j) eqn:E; [apply Nat.eqb_eq in E; congruence|reflexivity].
Qed.

Lemma skipping_set_same (st : pstate W) i x :
  nth i (skipping (set_skipping st i x)) VUndef = x.
Proof. simpl. now rewrite nth_array_set, Nat.eqb_refl. Qed.

Lemma nullish_not_break x : is_nullish x = true -> x = VBreak -> False.
Proof. intros H ->. discriminate. Qed.

Lemma enter_from_spec : forall vs i c (st : pstate W),
  loop_from_spec i vs false c st (enter_from i vs c st).
Proof.
  induction vs as [|vi rest IH]; intros i c st; simpl;
    [apply loop_from_done|].
  destruct (is_nullish (nth i (skipping st) VUndef)) eqn:Hnull.
  2:{ apply (loop_from_step i vi rest false c st st _ None); auto.
      now rewrite app_nil_r. }
  destruct (getVisitFn vi (kind_of (c_node c)) false) as [fn|] eqn:Hfn.
  2:{ apply (loop_from_step i vi rest false c st st _ None); auto.
      now rewrite app_nil_r. }
  destruct (fn c (inner st)) as [r w].
  destruct (is_false r) eqn:Hfalse.
  { eapply (loop_from_step i vi rest false c st _ _ (Some _)); [| | | |apply IH].
    - reflexivity.
    - intros j Hj. rewrite skipping_set_other by exact Hj. reflexivity.
    - intros Hb. exfalso. eapply nullish_not_break; eassumption.
    - simpl. repeat split; auto. intros ->. discriminate. }
  destruct (is_break r) eqn:Hbreak.
  { eapply (loop_from_step i vi rest false c st _ _ (Some _)); [| | | |apply IH].
    - reflexivity.
    - intros j Hj. rewrite skipping_set_other by exact Hj. reflexivity.
    - intros Hb. exfalso. eapply nullish_not_break; eassumption.
    - simpl. repeat split; auto. intros _. now rewrite nth_array_set, Nat.eqb_refl. }
  destruct (is_undefined r) eqn:Hundef; simpl.
  { eapply (loop_from_step i vi rest false c st _ _ (Some _)); [| | | |apply IH].
    - reflexivity.
    - reflexivity.
    - auto.
    - simpl. repeat split; auto. intros ->. discriminate. }
  apply loop_from_edit; auto; intros ->; discriminate.
Qed.

Lemma leave_from_spec : forall vs i c (st : pstate W),
  isNode (c_node c) = true ->
  loop_from_spec i vs true c st (leave_from i vs c st).
Proof.
  induction vs as [|vi rest IH]; intros i c st Hnode; simpl;
    [apply loop_from_done|].
  destruct (is_nullish (nth i (skipping st) VUndef)) eqn:Hnull.
  2:{ destruct (strict_eq (nth i (skipping st) VUndef) (c_node c)) eqn:Heq.
      - eapply (loop_from_step i vi rest true c st _ _ None);
          [| | | |now apply IH].
        + simpl. now rewrite app_nil_r.
        + intros j Hj. rewrite skipping_set_other by exact Hj. reflexivity.
        + intros Hb. rewrite Hb in Heq.
          destruct (c_node c); discriminate.
        + now left.
      - apply (loop_from_step i vi rest true c st st _ None); auto.
        now rewrite app_nil_r. }
  destruct (getVisitFn vi (kind_of (c_node c)) true) as [fn|] eqn:Hfn.
  2:{ apply (loop_from_step i vi rest true c st st _ None); auto.
      now rewrite app_nil_r. }
  destruct (fn c (inner st)) as [r w].
  destruct (is_break r) eqn:Hbreak.
  { eapply (loop_from_step i vi rest true c st _ _ (Some _));
      [| | | |now apply IH].
    - reflexivity.
    - intros j Hj. rewrite skipping_set_other by exact Hj. reflexivity.
    - intros Hb. exfalso. eapply nullish_not_break; eassumption.
    - simpl. repeat split; auto. intros _. now rewrite nth_array_set, Nat.eqb_refl. }
  destruct (negb (is_undefined r) && negb (is_false r)) eqn:Hedit.
  { apply andb_true_iff in Hedit. destruct Hedit as [Hu _].
    apply loop_from_edit; auto; intros ->; discriminate. }
  eapply (loop_from_step i vi rest true c st _ _ (Some _));
    [| | | |now apply IH].
  - reflexivity.
  - reflexivity.
  - auto.
  - simpl. repeat split; auto. intros ->. discriminate.
Qed.

End Parallel_visitors.

#[local] Arguments finish : simpl never.






(** On the whole tree: the first visitor stops at the first field, the
    second one still sees every field, and the traversal runs to its end. *)
Lemma parallel_break_run :
  SampleParallel.aborted
    (SampleParallel.run [SampleParallel.breaker; SampleParallel.watcher])
  = Some false
  /\ SampleParallel.seen_by 0
       (SampleParallel.run [SampleParallel.breaker; SampleParallel.watcher])
     = [(false, "a")]
  /\ SampleParallel.seen_by 1
       (SampleParallel.run [SampleParallel.breaker; SampleParallel.watcher])
     = [(false, "a"); (false, "b"); (false, "x"); (false, "c")].
Proof. repeat split; vm_compute; reflexivity. Qed.

(** C6, at the input the claim fails on.  Two visitors in parallel over
    [{ a, b { x }, c }]: the first replaces the field [b] on leaving it, the
    second returns [false] on entering [b].  The second is not called on
    [x], as the claim says; but on leaving [b] the first visitor's edit
    ends the loop of [leave] before it reaches the second visitor's marker,
    which is never cleared: the second visitor is not called on [c] either.
    In the other order the marker is cleared and [c] is seen. *)
Theorem skip_marker_survives_an_edit :
  SampleParallel.seen_by 1
    (SampleParallel.run [SampleParallel.editor; SampleParallel.skipper])
  = [(false, "a"); (false, "b")]
  /\ SampleParallel.seen_by 0
       (SampleParallel.run [SampleParallel.skipper; SampleParallel.editor])
     = [(false, "a"); (false, "b"); (false, "c")].
Proof. split; vm_compute; reflexivity. Qed.

(** * Values to literals *)

(** ** Input objects *)

Section Input_objects.

Variable R : realm.

Lemma valueToLiteral_input_object fields value :
  valueToLiteral R (TInputObject fields) value
  = if js_nullish value then Ok (Some LNull)
    else if negb (isObjectLike value) then Ok None
    else if existsb (fun name => negb (declares fields name))
              (object_keys value)
    then Ok None
    else match encode_fields R (valueToLiteral R) value fields with
         | Throws msg => Throws msg
         | Ok None => Ok None
         | Ok (Some nodes) => Ok (Some (LObject nodes))
         end.
Proof.
  simpl. destruct (js_nullish value); [reflexivity|].
  destruct (negb (isObjectLike value)); [reflexivity|].
  destruct (existsb _ _); [reflexivity|].
  match goal with |- match ?a with _ => _ end = match ?b with _ => _ end =>
    replace a with b; [reflexivity|]
  end.
  induction fields as [|[n t d] rest IH]; simpl; [reflexivity|].
  destruct (js_undefined _ && _); [reflexivity|].
  destruct (valueToLiteral R t _) as [[node|]|msg]; try reflexivity.
  now rewrite IH.
Qed.

Lemma not_missing_test value f :
  ~ missing R value f ->
  js_undefined (js_get R value (field_name f)) && isRequiredInput f = false.
Proof.
  intros H. apply not_true_is_false. intros E.
  apply andb_true_iff in E. destruct E as [Hu Hr]. apply H.
  split; [|exact Hr].
  destruct (js_get R value (field_name f)); try discriminate; reflexivity.
Qed.

(** The loop over the fields passes those that are encoded and goes on
    with the rest. *)
Lemma encode_fields_app value : forall pre rest,
  all_encoded R value pre ->
  exists nodes,
    map fst nodes = map field_name pre
    /\ Forall2 (fun f node => field_literal R value f = Ok (Some (snd node)))
         pre nodes
    /\ encode_fields R (valueToLiteral R) value (pre ++ rest)
       = match encode_fields R (valueToLiteral R) value rest with
         | Throws msg => Throws msg
         | Ok None => Ok None
         | Ok (Some more) => Ok (Some (nodes ++ more))
         end.
Proof.
  induction pre as [|g pre IH]; intros rest Hall.
  - exists []. repeat split; [constructor|]. simpl.
    now destruct (encode_fields _ _ _ rest) as [[more|]|msg].
  - inversion Hall as [|g' l (Hgiven & node & Hnode) Hpre]; subst.
    destruct (IH rest Hpre) as (nodes & Hnames & Hnodes & Heq).
    exists ((field_name g, node) :: nodes). simpl.
    split; [now rewrite Hnames|]. split; [now constructor|].
    rewrite (not_missing_test value g Hgiven).
    unfold field_literal in Hnode. rewrite Hnode, Heq.
    now destruct (encode_fields _ _ _ rest) as [[more|]|msg].
Qed.

Lemma closed_object_test fields value :
  closed_object fields value ->
  negb (isObjectLike value) = false
  /\ existsb (fun name => negb (declares fields name)) (object_keys value)
     = false.
Proof.
  intros [Hobj Hkeys]. rewrite Hobj. split; [reflexivity|].
  apply not_true_is_false. intros E. apply existsb_exists in E.
  destruct E as (name & Hin & Hd). rewrite (Hkeys name Hin) in Hd.
  discriminate.
Qed.

End Input_objects.

(** C7, as amended.  For an input object type and a value that is not
    null: [valueToLiteral] returns no value when the value is not
    object-like or has a key that is not declared.  Otherwise the declared
    fields are taken in their declared order, each read from the value
    under its name, and the first one that gets no literal decides: no
    value when it is required and reads [undefined], or when its value has
    no literal; the error, when encoding its value throws.  When every
    declared field gets a literal the result is an object literal with the
    declared fields in their declared order. *)
Theorem input_object_literal (R : realm) (fields : list input_field)
  (value : jsval) :
  js_nullish value = false -> first_failure_rule R fields value.
Proof.
  intros Hnn. unfold first_failure_rule.
  rewrite valueToLiteral_input_object, Hnn.
  split; [intros ->; reflexivity|]. split.
  { intros (name & Hin & Hdecl).
    destruct (negb (isObjectLike value)); [reflexivity|].
    assert (existsb (fun name => negb (declares fields name))
              (object_keys value) = true) as ->; [|reflexivity].
    apply existsb_exists. exists name. split; [exact Hin|].
    now rewrite Hdecl. }
  split.
  - intros Hclosed pre f post -> Hpre.
    destruct (closed_object_test _ value Hclosed) as [-> ->].
    destruct (encode_fields_app R value pre (f :: post) Hpre)
      as (nodes & _ & _ & ->).
    simpl. split; [|split].
    + intros [Hu Hr]. now rewrite Hu, Hr.
    + intros Hgiven Hnone. rewrite (not_missing_test R value f Hgiven).
      unfold field_literal in Hnone. now rewrite Hnone.
    + intros msg Hgiven Hthrows.
      rewrite (not_missing_test R value f Hgiven).
      unfold field_literal in Hthrows. now rewrite Hthrows.
  - intros Hclosed Hall.
    destruct (closed_object_test fields value Hclosed) as [-> ->].
    destruct (encode_fields_app R value fields [] Hall)
      as (nodes & Hnames & Hnodes & Heq).
    rewrite app_nil_r in Heq. rewrite Heq. simpl. rewrite app_nil_r.
    now exists nodes.
Qed.

Lemma input_object_literal_witness :
  first_failure_rule standard_realm SampleTypes.ab
    (JObj [("b", JNum 5); ("a", JStr "x")])
  /\ valueToLiteral standard_realm (TInputObject SampleTypes.ab)
       (JObj [("b", JNum 5); ("a", JStr "x")])
     = Ok (Some (LObject [("a", LString "x"); ("b", LInt "5")])).
Proof.
  split; [|vm_compute; reflexivity].
  apply (input_object_literal standard_realm SampleTypes.ab
           (JObj [("b", JNum 5); ("a", JStr "x")])).
  reflexivity.
Defined.

(** C7, as stated, fails where a field value has no representable shape:
    the object [{ a: f }] with [f] a function, for the type
    [{ a: Int, b: Int! }], misses the required field [b], and the encoder
    throws on [a] before it finds out. *)
Lemma input_object_rule_fails_on_throw :
  js_nullish (JObj [("a", JOther)]) = false
  /\ ~ input_object_rule standard_realm SampleTypes.ab
         (JObj [("a", JOther)]).
Proof.
  split; [reflexivity|].
  intros [Habsent _].
  assert (valueToLiteral standard_realm (TInputObject SampleTypes.ab)
            (JObj [("a", JOther)])
          = Ok None) as H.
  { apply Habsent. right; right; left.
    exists (InputField "b" (TNonNull SampleTypes.Int) false).
    repeat split. simpl. auto. }
  vm_compute in H. discriminate.
Qed.

(** The examples of the specification, and what the rule gives where the
    order of the fields or an inherited property counts: a required field
    that is missing before the field that throws ends the call with no
    value; the property [constructor], that every object inherits, is read
    as the value of a field of that name; [length] is read on an array. *)
Lemma input_object_examples :
  valueToLiteral standard_realm (TInputObject SampleTypes.only_a)
    (JObj [("extra", JNum 1)]) = Ok None
  /\ valueToLiteral standard_realm (TInputObject SampleTypes.required_a)
       (JObj []) = Ok None
  /\ valueToLiteral standard_realm (TInputObject SampleTypes.required_a)
       (JObj [("a", JUndefined)]) = Ok None
  /\ valueToLiteral standard_realm (TInputObject SampleTypes.required_a)
       JUndefined
     = Ok (Some LNull)
  /\ valueToLiteral standard_realm
       (TNonNull (TInputObject SampleTypes.required_a)) JUndefined = Ok None
  /\ valueToLiteral standard_realm
       (TInputObject [InputField "b" (TNonNull SampleTypes.Int) false;
                      InputField "a" SampleTypes.Int false])
       (JObj [("a", JOther)]) = Ok None
  /\ (exists msg,
        valueToLiteral standard_realm
          (TInputObject [InputField "constructor" SampleTypes.Int false])
          (JObj []) = Throws msg)
  /\ valueToLiteral standard_realm
       (TInputObject [InputField "length" SampleTypes.Int false])
       (JArr []) = Ok (Some (LObject [("length", LInt "0")])).
Proof.
  repeat split; try (vm_compute; reflexivity).
  eexists. vm_compute. reflexivity.
Qed.

(** ** Numbers *)

Lemma digit_zero_or_not c :
  is_digit c = true -> c = "0"%char \/ is_nonzero_digit c = true.
Proof.
  unfold is_digit, is_nonzero_digit. intros H.
  apply andb_true_iff in H. destruct H as [Hlo Hhi].
  apply Nat.leb_le in Hlo.
  destruct (Nat.eq_dec (nat_of_ascii c) 48) as [E|E].
  - left. rewrite <- (ascii_nat_embedding c), E. reflexivity.
  - right. rewrite Hhi, andb_true_r. apply Nat.leb_le. lia.
Qed.

Lemma nonzero_digit_is_digit c :
  is_nonzero_digit c = true -> is_digit c = true /\ c <> "0"%char.
Proof.
  unfold is_digit, is_nonzero_digit. intros H.
  apply andb_true_iff in H. destruct H as [Hlo Hhi].
  apply Nat.leb_le in Hlo. split.
  - rewrite Hhi, andb_true_r. apply Nat.leb_le. lia.
  - intros ->. vm_compute in Hlo. lia.
Qed.

Lemma unsigned_int_text_shape d :
  unsigned_int_text d = true <->
  d <> "" /\ all_digits d = true
  /\ (forall rest, d = String "0" rest -> rest = "").
Proof.
  destruct d as [|c rest]; simpl.
  - split; [discriminate|]. now intros [H _].
  - split.
    + intros H. apply orb_true_iff in H. destruct H as [H|H];
        apply andb_true_iff in H; destruct H as [Hc Hr].
      * apply Ascii.eqb_eq in Hc. apply String.eqb_eq in Hr. subst.
        repeat split; [discriminate|]. intros r E. now inversion E.
      * destruct (nonzero_digit_is_digit c Hc) as [Hd Hnz].
        repeat split; [discriminate|now rewrite Hd|].
        intros r E. inversion E. contradiction.
    + intros (_ & Hall & Hzero).
      apply andb_true_iff in Hall. destruct Hall as [Hc Hr].
      apply orb_true_iff.
      destruct (digit_zero_or_not c Hc) as [->|Hnz].
      * left. rewrite (Hzero rest eq_refl). reflexivity.
      * right. now rewrite Hnz, Hr.
Qed.

(** The test of the regular expression accepts exactly the texts of
    integers. *)
Lemma int_text_shape s : int_text s = true <-> integer_shape s.
Proof.
  unfold integer_shape. split.
  - intros H.
    assert (unsigned_int_text s = true
            \/ exists rest, s = String "-" rest
                            /\ unsigned_int_text rest = true) as [Hu|Hm].
    { destruct s as [|c rest]; [now left|].
      destruct (Ascii.eqb c "-") eqn:E.
      - apply Ascii.eqb_eq in E. subst c. right. now exists rest.
      - left. simpl in H.
        destruct c as [[] [] [] [] [] [] [] []]; try exact H;
          discriminate. }
    + apply unsigned_int_text_shape in Hu. exists "", s. simpl. tauto.
    + destruct Hm as (rest & -> & Hu).
      apply unsigned_int_text_shape in Hu. exists "-", rest. simpl. tauto.
  - intros (sign & digits & -> & [->| ->] & Hne & Hall & Hzero); simpl.
    + assert (unsigned_int_text digits = true) as Hu
        by (apply unsigned_int_text_shape; tauto).
      destruct digits as [|c rest]; [contradiction|].
      destruct (Ascii.eqb c "-") eqn:E.
      * apply Ascii.eqb_eq in E. subst c. simpl in Hall. discriminate.
      * destruct c as [[] [] [] [] [] [] [] []]; try exact Hu;
          discriminate.
    + apply unsigned_int_text_shape. tauto.
Qed.

(** C8. The default encoder on a number: a number that is not finite gives
    the null literal; a finite one gives its decimal text, as an Int when
    the text has the shape of an integer (an optional minus sign, then [0]
    or digits that do not start with [0]) and as a Float otherwise.  So [5]
    gives Int "5", [5.5] gives Float "5.5", and [NaN] and the infinities
    give Null. *)
Theorem default_scalar_number (x : float) :
  (isFinite x = false -> defaultScalarValueToLiteral (JNum x) = Ok LNull)
  /\ (isFinite x = true ->
      (integer_shape (number_to_string x) ->
       defaultScalarValueToLiteral (JNum x) = Ok (LInt (number_to_string x)))
      /\ (~ integer_shape (number_to_string x) ->
          defaultScalarValueToLiteral (JNum x)
          = Ok (LFloat (number_to_string x))))
  /\ defaultScalarValueToLiteral (JNum 5) = Ok (LInt "5")
  /\ defaultScalarValueToLiteral (JNum 5.5) = Ok (LFloat "5.5")
  /\ defaultScalarValueToLiteral (JNum nan) = Ok LNull
  /\ defaultScalarValueToLiteral (JNum infinity) = Ok LNull
  /\ defaultScalarValueToLiteral (JNum neg_infinity) = Ok LNull.
Proof.
  split; [|split].
  - intros H. simpl. now rewrite H.
  - intros H. simpl. rewrite H. simpl. split.
    + intros Hs. apply int_text_shape in Hs. now rewrite Hs.
    + intros Hs. destruct (int_text (number_to_string x)) eqn:E;
        [|reflexivity].
      exfalso. apply Hs. now apply int_text_shape.
  - repeat split; vm_compute; reflexivity.
Qed.

Lemma default_scalar_number_witness :
  isFinite (-15)%float = true
  /\ integer_shape (number_to_string (-15)%float)
  /\ defaultScalarValueToLiteral (JNum (-15)%float) = Ok (LInt "-15")
  /\ isFinite (0.1 + 0.2)%float = true
  /\ ~ integer_shape (number_to_string (0.1 + 0.2)%float)
  /\ defaultScalarValueToLiteral (JNum (0.1 + 0.2)%float)
     = Ok (LFloat "0.30000000000000004").
Proof.
  assert (integer_shape (number_to_string (-15)%float)) as H15
    by (apply int_text_shape; vm_compute; reflexivity).
  assert (~ integer_shape (number_to_string (0.1 + 0.2)%float)) as H03.
  { intros H. apply int_text_shape in H. vm_compute in H. discriminate. }
  split; [vm_compute; reflexivity|]. split; [exact H15|]. split.
  - exact (proj1 (proj1 (proj2 (default_scalar_number (-15)%float))
                    ltac:(vm_compute; reflexivity)) H15).
  - split; [vm_compute; reflexivity|]. split; [exact H03|].
    exact (proj2 (proj1 (proj2 (default_scalar_number (0.1 + 0.2)%float))
                    ltac:(vm_compute; reflexivity)) H03).
Defined.

(** More texts of numbers, as [String] gives them. *)
Lemma number_texts :
  map number_to_string
    [0; (-0); 100; 0.5; 1e21; 1e-7; 0.000001; 123456789012345680000;
     9007199254740992; 5e-324; 1.7976931348623157e308; (-2.5)]%float
  = ["0"; "0"; "100"; "0.5"; "1e+21"; "1e-7"; "0.000001";
     "123456789012345680000"; "9007199254740992"; "5e-324";
     "1.7976931348623157e+308"; "-2.5"].
Proof. vm_compute. reflexivity. Qed.

(** * The literal of a default value *)

Lemma nth_error_set_nth (A : Type) (l : list A) i x y :
  nth_error l i = Some y -> nth_error (set_nth l i x) i = Some x.
Proof.
  revert i. induction l as [|z l IH]; intros [|i] H; simpl in *;
    try discriminate; [reflexivity|now apply IH].
Qed.

(** C9. A call of [getLiteralDefaultValue] that returns leaves the usage in
    a state where every later call, for whatever type, returns the very
    same literal object and changes nothing: no node is built and no
    conversion is made again.  The call that converts writes the node it
    built, a new object, into the memo slot. *)
Theorem literal_default_value_is_computed_once
  (astFromValue : jsval -> gtype -> option literal)
  (s s1 : store) (u : nat) (type : gtype) (l : nat) :
  getLiteralDefaultValue astFromValue s u type = (Ok l, s1) ->
  (forall type', getLiteralDefaultValue astFromValue s1 u type' = (Ok l, s1))
  /\ (conversions s1 <> conversions s ->
      l = List.length (literals s)
      /\ conversions s1 = S (conversions s)
      /\ exists usage0,
           nth_error (usages s1) u
           = Some (mkUsage (u_literal usage0) (u_value usage0) (Some l))).
Proof.
  unfold getLiteralDefaultValue. intros H.
  destruct (nth_error (usages s) u) as [usage0|] eqn:Hu; [|discriminate].
  destruct (u_literal usage0) as [l0|] eqn:Hl.
  { inversion H; subst. split; [|intros C; now destruct C].
    intros type'. now rewrite Hu, Hl. }
  destruct (u_memoizedLiteral usage0) as [l0|] eqn:Hm.
  { inversion H; subst. split; [|intros C; now destruct C].
    intros type'. now rewrite Hu, Hl, Hm. }
  destruct (astFromValue (u_value usage0) type) as [node|]; [|discriminate].
  inversion H; subst. simpl.
  rewrite (nth_error_set_nth _ _ _ _ _ Hu). simpl.
  split; [reflexivity|]. intros _. repeat split.
  exists usage0. now rewrite Hl.
Qed.

Lemma literal_default_value_is_computed_once_witness :
  exists l s1,
    getLiteralDefaultValue SampleUsage.convert SampleUsage.start 0
      SampleTypes.Int = (Ok l, s1)
    /\ getLiteralDefaultValue SampleUsage.convert s1 0 SampleTypes.Int
       = (Ok l, s1)
    /\ nth_error (literals s1) l = Some (LInt "5")
    /\ conversions s1 = 1.
Proof.
  eexists _, _. split; [vm_compute; reflexivity|]. split.
  - apply (proj1 (literal_default_value_is_computed_once SampleUsage.convert
                    SampleUsage.start _ 0 SampleTypes.Int _
                    ltac:(vm_compute; reflexivity))).
  - split; reflexivity.
Defined.

(** * More about the encoders *)

(** Induction on a value, with the parts of arrays and objects. *)
Lemma jsval_induction (P : jsval -> Prop) :
  P JUndefined -> P JNull -> (forall b, P (JBool b)) ->
  (forall x, P (JNum x)) -> (forall s, P (JStr s)) ->
  (forall items, Forall P items -> P (JArr items)) ->
  (forall props, Forall (fun p => P (snd p)) props -> P (JObj props)) ->
  (forall b, P (JProto b)) ->
  P JOther ->
  forall v, P v.
Proof.
  intros Hu Hn Hb Hx Hs Ha Ho Hp Hf.
  refine (fix F (v : jsval) : P v :=
            match v with
            | JUndefined => Hu
            | JNull => Hn
            | JBool b => Hb b
            | JNum x => Hx x
            | JStr s => Hs s
            | JArr items =>
                Ha items
                  ((fix G (l : list jsval) : Forall P l :=
                      match l with
                      | [] => Forall_nil _
                      | x :: rest => Forall_cons _ (F x) (G rest)
                      end) items)
            | JObj props =>
                Ho props
                  ((fix G (l : list (string * jsval))
                      : Forall (fun p => P (snd p)) l :=
                      match l with
                      | [] => Forall_nil _
                      | p :: rest => Forall_cons _ (F (snd p)) (G rest)
                      end) props)
            | JProto b => Hp b
            | JOther => Hf
            end).
Qed.

(** Induction on a type, with the types of the fields of input objects. *)
Lemma gtype_induction (P : gtype -> Prop) :
  (forall t, P t -> P (TNonNull t)) ->
  (forall t, P t -> P (TList t)) ->
  (forall fields, Forall (fun f => P (field_type f)) fields ->
     P (TInputObject fields)) ->
  (forall custom, P (TLeaf custom)) ->
  forall t, P t.
Proof.
  intros Hn Hl Ho Hf.
  refine (fix F (t : gtype) : P t :=
            match t with
            | TNonNull t' => Hn t' (F t')
            | TList t' => Hl t' (F t')
            | TInputObject fields =>
                Ho fields
                  ((fix G (l : list input_field)
                      : Forall (fun f => P (field_type f)) l :=
                      match l with
                      | [] => Forall_nil _
                      | f :: rest =>
                          Forall_cons _
                            (match f return P (field_type f) with
                             | InputField _ ft _ => F ft
                             end) (G rest)
                      end) fields)
            | TLeaf custom => Hf custom
            end).
Qed.

Lemma default_scalar_array items :
  defaultScalarValueToLiteral (JArr items)
  = match default_items items with
    | Ok values => Ok (LList values)
    | Throws msg => Throws msg
    end.
Proof.
  simpl.
  match goal with |- match ?a with _ => _ end = _ =>
    replace a with (default_items items); [reflexivity|]
  end.
  induction items as [|x rest IH]; simpl; [reflexivity|].
  destruct (defaultScalarValueToLiteral x); [|reflexivity]. now rewrite IH.
Qed.

Lemma default_scalar_object props :
  defaultScalarValueToLiteral (JObj props)
  = match default_props props with
    | Ok fields => Ok (LObject fields)
    | Throws msg => Throws msg
    end.
Proof.
  simpl.
  match goal with |- match ?a with _ => _ end = _ =>
    replace a with (default_props props); [reflexivity|]
  end.
  induction props as [|[n x] rest IH]; simpl; [reflexivity|].
  destruct (js_undefined x); [exact IH|].
  destruct (defaultScalarValueToLiteral x); [|reflexivity]. now rewrite IH.
Qed.

Lemma valueToLiteral_list (R : realm) t value :
  valueToLiteral R (TList t) value
  = if js_nullish value then Ok (Some LNull)
    else match value with
         | JArr items =>
             match encode_items (valueToLiteral R t) items with
             | Throws msg => Throws msg
             | Ok None => Ok None
             | Ok (Some values) => Ok (Some (LList values))
             end
         | JProto true => Ok (Some (LList []))
         | _ => valueToLiteral R t value
         end.
Proof.
  simpl. destruct (js_nullish value); [reflexivity|].
  destruct value as [| | | | |items| |[|]|]; try reflexivity.
  match goal with |- match ?a with _ => _ end = _ =>
    replace a with (encode_items (valueToLiteral R t) items); [reflexivity|]
  end.
  induction items as [|x rest IH]; simpl; [reflexivity|].
  destruct (valueToLiteral R t x) as [[node|]|]; try reflexivity.
  now rewrite IH.
Qed.

(** X1. The default encoder returns a literal for a value exactly when the value
    holds no function, symbol or bigint, however deep; otherwise it
    throws. *)
Theorem default_scalar_throws_iff_unrepresentable (v : jsval) :
  (representable v = true -> exists l, defaultScalarValueToLiteral v = Ok l)
  /\ (representable v = false ->
      exists msg, defaultScalarValueToLiteral v = Throws msg).
Proof.
  induction v as [| | b | x | s | items IH | props IH | p |]
    using jsval_induction;
    try (split; [intros _; eexists; reflexivity|discriminate]).
  - split; [intros _|discriminate]. simpl.
    destruct (negb (isFinite x)); [eexists; reflexivity|].
    destruct (int_text _); eexists; reflexivity.
  - rewrite default_scalar_array.
    assert ((forallb representable items = true ->
             exists ns, default_items items = Ok ns)
            /\ (forallb representable items = false ->
                exists msg, default_items items = Throws msg)) as [Hok Hno].
    { induction IH as [|x rest [Hx1 Hx2] _ [IH1 IH2]]; simpl.
      - split; [intros _; eexists; reflexivity|discriminate].
      - split.
        + intros H. apply andb_true_iff in H. destruct H as [Hx Hr].
          destruct (Hx1 Hx) as (l & ->). destruct (IH1 Hr) as (ns & ->).
          eexists; reflexivity.
        + intros H. apply andb_false_iff in H.
          destruct (representable x) eqn:Hx.
          * destruct (Hx1 eq_refl) as (l & ->).
            destruct H as [H|H]; [discriminate|].
            destruct (IH2 H) as (msg & ->). eexists; reflexivity.
          * destruct (Hx2 eq_refl) as (msg & ->). eexists; reflexivity. }
    simpl. split; intros H.
    + destruct (Hok H) as (ns & ->). eexists; reflexivity.
    + destruct (Hno H) as (msg & ->). eexists; reflexivity.
  - rewrite default_scalar_object.
    assert ((forallb (fun p => representable (snd p)) props = true ->
             exists ns, default_props props = Ok ns)
            /\ (forallb (fun p => representable (snd p)) props = false ->
                exists msg, default_props props = Throws msg)) as [Hok Hno].
    { induction IH as [|[n x] rest [Hx1 Hx2] _ [IH1 IH2]]; simpl in *.
      - split; [intros _; eexists; reflexivity|discriminate].
      - split.
        + intros H. apply andb_true_iff in H. destruct H as [Hx Hr].
          destruct (js_undefined x); [now apply IH1|].
          destruct (Hx1 Hx) as (l & ->). destruct (IH1 Hr) as (ns & ->).
          eexists; reflexivity.
        + intros H. apply andb_false_iff in H.
          destruct (representable x) eqn:Hx.
          * destruct H as [H|H]; [discriminate|].
            destruct (js_undefined x); [now apply IH2|].
            destruct (Hx1 eq_refl) as (l & ->).
            destruct (IH2 H) as (msg & ->). eexists; reflexivity.
          * assert (js_undefined x = false) as -> by (now destruct x).
            destruct (Hx2 eq_refl) as (msg & ->). eexists; reflexivity. }
    simpl. split; intros H.
    + destruct (Hok H) as (ns & ->). eexists; reflexivity.
    + destruct (Hno H) as (msg & ->). eexists; reflexivity.
  - split; [intros _; destruct p; eexists; reflexivity|discriminate].
  - split; [discriminate|intros _; eexists; reflexivity].
Qed.

Lemma default_scalar_throws_iff_unrepresentable_witness :
  (exists l,
     defaultScalarValueToLiteral
       (JObj [("a", JArr [JNum 1; JStr "x"]); ("b", JNull)]) = Ok l)
  /\ (exists msg,
        defaultScalarValueToLiteral
          (JObj [("a", JArr [JNum 1; JOther])]) = Throws msg).
Proof.
  split.
  - apply (proj1 (default_scalar_throws_iff_unrepresentable _)). reflexivity.
  - apply (proj2 (default_scalar_throws_iff_unrepresentable _)). reflexivity.
Defined.

(** X2. The object literal of the default encoder has one field for each
    property whose value is not [undefined], under the same name and in the
    order of the keys, with the literal of that value. *)
Theorem default_scalar_object_fields (props : list (string * jsval))
  (l : literal) :
  defaultScalarValueToLiteral (JObj props) = Ok l ->
  exists fields,
    l = LObject fields
    /\ map fst fields = map fst (defined_props props)
    /\ Forall2 (fun p f => defaultScalarValueToLiteral (snd p) = Ok (snd f))
         (defined_props props) fields.
Proof.
  rewrite default_scalar_object.
  destruct (default_props props) as [fields|] eqn:E; [|discriminate].
  intros H. inversion H; subst. exists fields. split; [reflexivity|].
  clear H. revert fields E.
  induction props as [|[n x] rest IH]; simpl; intros fields E.
  - inversion E. split; constructor.
  - unfold defined_props in *. simpl.
    destruct (js_undefined x); simpl; [now apply IH|].
    destruct (defaultScalarValueToLiteral x) as [node|] eqn:Ex;
      [|discriminate].
    destruct (default_props rest) as [fs|]; [|discriminate].
    inversion E; subst. destruct (IH fs eq_refl) as [Hn Hall].
    split; simpl; [now rewrite Hn|]. constructor; [exact Ex|exact Hall].
Qed.

Lemma default_scalar_object_fields_witness :
  exists fields,
    LObject [("b", LInt "2"); ("c", LNull)] = LObject fields
    /\ map fst fields
       = map fst (defined_props
                    [("a", JUndefined); ("b", JNum 2); ("c", JNull)])
    /\ Forall2 (fun p f => defaultScalarValueToLiteral (snd p) = Ok (snd f))
         (defined_props [("a", JUndefined); ("b", JNum 2); ("c", JNull)])
         fields.
Proof.
  apply (default_scalar_object_fields
           [("a", JUndefined); ("b", JNum 2); ("c", JNull)]).
  vm_compute. reflexivity.
Defined.

(** X3. The list literal of the default encoder has the literal of each item,
    in order. *)
Theorem default_scalar_array_items (items : list jsval) (l : literal) :
  defaultScalarValueToLiteral (JArr items) = Ok l ->
  exists values,
    l = LList values
    /\ Forall2 (fun x y => defaultScalarValueToLiteral x = Ok y) items values.
Proof.
  rewrite default_scalar_array.
  destruct (default_items items) as [values|] eqn:E; [|discriminate].
  intros H. inversion H; subst. exists values. split; [reflexivity|].
  clear H. revert values E.
  induction items as [|x rest IH]; simpl; intros values E.
  - inversion E. constructor.
  - destruct (defaultScalarValueToLiteral x) as [node|] eqn:Ex;
      [|discriminate].
    destruct (default_items rest) as [ns|]; [|discriminate].
    inversion E; subst. constructor; [exact Ex|now apply IH].
Qed.

Lemma default_scalar_array_items_witness :
  exists values,
    LList [LInt "1"; LString "x"; LNull] = LList values
    /\ Forall2 (fun x y => defaultScalarValueToLiteral x = Ok y)
         [JNum 1; JStr "x"; JUndefined] values.
Proof.
  apply (default_scalar_array_items [JNum 1; JStr "x"; JUndefined]).
  vm_compute. reflexivity.
Defined.

Lemma default_scalar_ok (v : jsval) :
  representable v = true -> exists l, defaultScalarValueToLiteral v = Ok l.
Proof.
  induction v as [| | b | x | s | items IH | props IH | p |]
    using jsval_induction;
    try (intros _; eexists; reflexivity); try discriminate.
  - intros _. simpl. destruct (negb (isFinite x)); [eexists; reflexivity|].
    destruct (int_text _); eexists; reflexivity.
  - rewrite default_scalar_array. simpl. intros H.
    assert (exists ns, default_items items = Ok ns) as (ns & ->);
      [|eexists; reflexivity].
    induction IH as [|x rest Hx _ IH]; simpl in *; [eexists; reflexivity|].
    apply andb_true_iff in H. destruct H as [H1 H2].
    destruct (Hx H1) as (l & ->). destruct (IH H2) as (ns & ->).
    eexists; reflexivity.
  - rewrite default_scalar_object. simpl. intros H.
    assert (exists ns, default_props props = Ok ns) as (ns & ->);
      [|eexists; reflexivity].
    induction IH as [|[n x] rest Hx _ IH]; simpl in *; [eexists; reflexivity|].
    apply andb_true_iff in H. destruct H as [H1 H2].
    destruct (js_undefined x); [now apply IH|].
    destruct (Hx H1) as (l & ->). destruct (IH H2) as (ns & ->).
    eexists; reflexivity.
  - intros _. destruct p; eexists; reflexivity.
Qed.

Lemma lookup_representable props name :
  forallb (fun p => representable (snd p)) props = true ->
  representable (lookup props name) = true.
Proof.
  induction props as [|[n x] rest IH]; simpl; [reflexivity|].
  intros H. apply andb_true_iff in H. destruct H as [Hx Hr].
  destruct (String.eqb n name); [exact Hx|now apply IH].
Qed.

Lemma indexed_representable items : forall i,
  forallb representable items = true ->
  forallb (fun p => representable (snd p)) (indexed i items) = true.
Proof.
  induction items as [|x rest IH]; simpl; intros i H; [reflexivity|].
  apply andb_true_iff in H. destruct H as [Hx Hr].
  rewrite Hx. simpl. now apply IH.
Qed.

Lemma lookup_no_own props name :
  has_own props name = false -> lookup props name = JUndefined.
Proof.
  unfold has_own. induction props as [|[n x] rest IH]; simpl;
    [reflexivity|].
  destruct (String.eqb n name); [discriminate|exact IH].
Qed.

Lemma not_inherited_reads (R : realm) name proto :
  not_inherited R name = true ->
  String.eqb name "length" = false
  /\ from_array_prototype R proto name = JUndefined
  /\ from_object_prototype R proto name = JUndefined.
Proof.
  unfold not_inherited, from_array_prototype, from_object_prototype.
  intros H. repeat (apply andb_true_iff in H; destruct H as [H ?]).
  apply negb_true_iff in H. rewrite H.
  repeat match goal with
         | E : negb _ = true |- _ => apply negb_true_iff in E; rewrite E
         end.
  repeat split; reflexivity.
Qed.

(** A name that is not inherited is read among the own properties. *)
Lemma js_get_representable (R : realm) v name :
  not_inherited R name = true ->
  representable v = true -> representable (js_get R v name) = true.
Proof.
  intros Hname. unfold js_get.
  destruct v as [| | | | |items|props|[|]|]; simpl; intros H;
    try reflexivity.
  - destruct (not_inherited_reads R name (JProto true) Hname)
      as (-> & -> & _).
    destruct (has_own _ _); [|reflexivity].
    apply lookup_representable. now apply indexed_representable.
  - destruct (not_inherited_reads R name (JProto false) Hname)
      as (_ & _ & ->).
    destruct (has_own _ _); [|reflexivity].
    now apply lookup_representable.
  - destruct (not_inherited_reads R name (JProto false) Hname)
      as (-> & -> & _). reflexivity.
  - destruct (not_inherited_reads R name JNull Hname) as (_ & _ & ->).
    reflexivity.
Qed.

(** X4. With no encoder of its own in the type, and no input field named as
    a property that objects or arrays inherit, [valueToLiteral] never
    throws on a value without functions, symbols or bigints: it returns a
    literal or no value. *)
Theorem valueToLiteral_total_on_data (R : realm) (t : gtype) (v : jsval) :
  plain_type t = true -> own_fields R t = true -> representable v = true ->
  exists o, valueToLiteral R t v = Ok o.
Proof.
  revert v.
  induction t as [t IH|t IH|fields IH|custom] using gtype_induction;
    intros v Ht Hown Hv.
  - simpl. destruct (js_nullish v); [eexists; reflexivity|].
    now apply IH.
  - rewrite valueToLiteral_list.
    destruct (js_nullish v); [eexists; reflexivity|].
    destruct v as [| | | | |items| |[|]|]; try (now apply IH);
      [|eexists; reflexivity].
    simpl in Hv.
    assert (exists o, encode_items (valueToLiteral R t) items = Ok o)
      as ([ns|] & ->); [|eexists; reflexivity..].
    induction items as [|x rest IHr]; simpl in *; [eexists; reflexivity|].
    apply andb_true_iff in Hv. destruct Hv as [Hx Hr].
    destruct (IH x Ht Hown Hx) as ([node|] & ->); [|eexists; reflexivity].
    destruct (IHr Hr) as ([ns|] & ->); eexists; reflexivity.
  - rewrite valueToLiteral_input_object.
    destruct (js_nullish v); [eexists; reflexivity|].
    destruct (negb (isObjectLike v)); [eexists; reflexivity|].
    destruct (existsb _ _); [eexists; reflexivity|].
    assert (exists o, encode_fields R (valueToLiteral R) v fields = Ok o)
      as ([ns|] & ->); [|eexists; reflexivity..].
    simpl in Ht, Hown.
    induction IH as [|[n ft d] rest Hf _ IHr]; simpl in *;
      [eexists; reflexivity|].
    apply andb_true_iff in Ht. destruct Ht as [Hft Hrest].
    apply andb_true_iff in Hown. destruct Hown as [Hn Hownrest].
    apply andb_true_iff in Hn. destruct Hn as [Hn Hownft].
    destruct (js_undefined _ && _); [eexists; reflexivity|].
    destruct (Hf (js_get R v n) Hft Hownft
                (js_get_representable R v n Hn Hv))
      as ([node|] & ->); [|eexists; reflexivity].
    destruct (IHr Hrest Hownrest) as ([ns|] & ->); eexists; reflexivity.
  - destruct custom; [discriminate|]. simpl.
    destruct (js_nullish v); [eexists; reflexivity|].
    destruct (default_scalar_ok v Hv) as (l & ->). eexists; reflexivity.
Qed.

Lemma valueToLiteral_total_on_data_witness :
  exists o,
    valueToLiteral standard_realm (TList (TInputObject SampleTypes.ab))
      (JArr [JObj [("a", JNum 1)]; JNull; JStr "x"]) = Ok o.
Proof.
  apply (valueToLiteral_total_on_data standard_realm
           (TList (TInputObject SampleTypes.ab))
           (JArr [JObj [("a", JNum 1)]; JNull; JStr "x"]));
    reflexivity.
Defined.

Lemma encode_items_forall2 encode items values :
  encode_items encode items = Ok (Some values) <->
  Forall2 (fun x y => encode x = Ok (Some y)) items values.
Proof.
  revert values. induction items as [|x rest IH]; simpl; intros values.
  - split; [intros H; inversion H; constructor|].
    intros H. inversion H. reflexivity.
  - split.
    + destruct (encode x) as [[node|]|] eqn:Ex; try discriminate.
      destruct (encode_items encode rest) as [[ns|]|]; try discriminate.
      intros H. inversion H; subst. constructor; [exact Ex|now apply IH].
    + intros H. inversion H as [|? y ? ys Hx Hr]; subst.
      rewrite Hx. apply IH in Hr. now rewrite Hr.
Qed.

(** X5. For a list type and an array, [valueToLiteral] returns a list literal
    exactly when every item has a literal for the item type, and the list
    literal holds those literals in the order of the items. *)
Theorem valueToLiteral_list_of_items (R : realm) (t : gtype)
  (items : list jsval) (values : list literal) :
  valueToLiteral R (TList t) (JArr items) = Ok (Some (LList values)) <->
  Forall2 (fun x y => valueToLiteral R t x = Ok (Some y)) items values.
Proof.
  rewrite valueToLiteral_list. simpl.
  rewrite <- encode_items_forall2.
  destruct (encode_items (valueToLiteral R t) items) as [[ns|]|]; split;
    intros H; inversion H; reflexivity.
Qed.

Lemma lookup_in props name x :
  NoDup (map fst props) -> In (name, x) props -> lookup props name = x.
Proof.
  induction props as [|[n y] rest IH]; simpl; intros Hnd Hin;
    [contradiction|].
  inversion Hnd as [|? ? Hn Hrest]; subst.
  destruct Hin as [E|Hin].
  - inversion E; subst. now rewrite String.eqb_refl.
  - destruct (String.eqb n name) eqn:E; [|now apply IH].
    apply String.eqb_eq in E. subst n. exfalso. apply Hn.
    apply in_map_iff. now exists (name, x).
Qed.

Lemma lookup_absent props name :
  ~ In name (map fst props) -> lookup props name = JUndefined.
Proof.
  induction props as [|[n y] rest IH]; simpl; intros H; [reflexivity|].
  destruct (String.eqb n name) eqn:E.
  - apply String.eqb_eq in E. subst. exfalso. apply H. now left.
  - apply IH. intros Hin. apply H. now right.
Qed.

Lemma lookup_found props name :
  In name (map fst props) -> In (name, lookup props name) props.
Proof.
  induction props as [|[n y] rest IH]; simpl; intros H; [contradiction|].
  destruct (String.eqb n name) eqn:E.
  - apply String.eqb_eq in E. subst. now left.
  - right. apply IH. destruct H as [H|H]; [|exact H].
    apply String.eqb_neq in E. contradiction.
Qed.

Lemma lookup_permutation props props' name :
  NoDup (map fst props) -> Permutation props props' ->
  lookup props name = lookup props' name.
Proof.
  intros Hnd Hp.
  assert (NoDup (map fst props')) as Hnd'
    by (eapply Permutation_NoDup; [apply Permutation_map; exact Hp|exact Hnd]).
  destruct (in_dec string_dec name (map fst props)) as [Hin|Hout].
  - apply lookup_found in Hin. symmetry. apply lookup_in; [exact Hnd'|].
    eapply Permutation_in; eassumption.
  - rewrite (lookup_absent props name Hout). symmetry.
    apply lookup_absent. intros Hin. apply Hout.
    eapply Permutation_in; [apply Permutation_sym, Permutation_map; exact Hp|].
    exact Hin.
Qed.

Lemma existsb_permutation (A : Type) (p : A -> bool) l l' :
  Permutation l l' -> existsb p l = existsb p l'.
Proof.
  induction 1; simpl; try congruence.
  - now rewrite !orb_assoc, (orb_comm (p y)).
Qed.

Lemma has_own_permutation props props' name :
  Permutation props props' -> has_own props name = has_own props' name.
Proof. intros Hp. unfold has_own. now apply existsb_permutation. Qed.

Lemma encode_fields_same_reads (R : realm) encode v v' fields :
  (forall name, js_get R v name = js_get R v' name) ->
  encode_fields R encode v fields = encode_fields R encode v' fields.
Proof.
  intros H. induction fields as [|f rest IH]; simpl; [reflexivity|].
  now rewrite H, IH.
Qed.

(** X6. For an input object type the order of the keys of the value does not
    count: two objects with the same properties in another order get the
    same result, the fields of the literal following the type. *)
Theorem valueToLiteral_ignores_key_order (R : realm)
  (fields : list input_field) (props props' : list (string * jsval)) :
  NoDup (map fst props) -> Permutation props props' ->
  valueToLiteral R (TInputObject fields) (JObj props)
  = valueToLiteral R (TInputObject fields) (JObj props').
Proof.
  intros Hnd Hp. rewrite !valueToLiteral_input_object. simpl.
  unfold object_keys. simpl.
  rewrite (existsb_permutation _ _ (map fst props) (map fst props'))
    by (now apply Permutation_map).
  destruct (existsb _ _); [reflexivity|].
  rewrite (encode_fields_same_reads R (valueToLiteral R) (JObj props)
             (JObj props'));
    [reflexivity|].
  intros name. unfold js_get.
  rewrite (has_own_permutation props props' name Hp).
  now rewrite (lookup_permutation props props' name Hnd Hp).
Qed.

Lemma valueToLiteral_ignores_key_order_witness :
  valueToLiteral standard_realm (TInputObject SampleTypes.ab)
    (JObj [("b", JNum 5); ("a", JStr "x")])
  = valueToLiteral standard_realm (TInputObject SampleTypes.ab)
      (JObj [("a", JStr "x"); ("b", JNum 5)]).
Proof.
  apply valueToLiteral_ignores_key_order.
  - repeat constructor; simpl; intuition discriminate.
  - apply perm_swap.
Defined.

(** * More about default values *)

Lemma nth_error_set_nth_other (A : Type) (l : list A) i j x :
  i <> j -> nth_error (set_nth l i x) j = nth_error l j.
Proof.
  revert i j. induction l as [|y l IH]; intros [|i] [|j] H; simpl;
    try reflexivity; try congruence.
  apply IH. congruence.
Qed.

(** X7. A call of [getLiteralDefaultValue] that returns writes nothing but the
    memo slot of its usage and a new literal node at the end of the store:
    every other usage, the value and the literal of the usage itself, and
    every literal node that existed keep what they held. *)
Theorem literal_default_value_frame
  (astFromValue : jsval -> gtype -> option literal)
  (s s1 : store) (u : nat) (type : gtype) (l : nat) :
  getLiteralDefaultValue astFromValue s u type = (Ok l, s1) ->
  (forall u', u' <> u -> nth_error (usages s1) u' = nth_error (usages s) u')
  /\ (forall l', l' < List.length (literals s) ->
        nth_error (literals s1) l' = nth_error (literals s) l')
  /\ (exists before after,
        nth_error (usages s) u = Some before
        /\ nth_error (usages s1) u = Some after
        /\ u_literal after = u_literal before
        /\ u_value after = u_value before).
Proof.
  unfold getLiteralDefaultValue. intros H.
  destruct (nth_error (usages s) u) as [usage0|] eqn:Hu; [|discriminate].
  destruct (u_literal usage0) as [l0|] eqn:Hl.
  { inversion H; subst. repeat split; auto. now exists usage0, usage0. }
  destruct (u_memoizedLiteral usage0) as [l0|] eqn:Hm.
  { inversion H; subst. repeat split; auto. now exists usage0, usage0. }
  destruct (astFromValue (u_value usage0) type) as [node|]; [|discriminate].
  inversion H; subst. simpl. split; [|split].
  - intros u' Hne. apply nth_error_set_nth_other. congruence.
  - intros l' Hl'. now apply nth_error_app1.
  - eexists usage0, _. split; [reflexivity|]. split.
    + eapply nth_error_set_nth. exact Hu.
    + simpl. now rewrite Hl.
Qed.

Lemma literal_default_value_frame_witness :
  exists before after,
    nth_error (usages SampleUsage.start) 0 = Some before
    /\ nth_error
         (usages (snd (getLiteralDefaultValue SampleUsage.convert
                         SampleUsage.start 0 SampleTypes.Int))) 0
       = Some after
    /\ u_literal after = u_literal before
    /\ u_value after = u_value before.
Proof.
  exact (proj2 (proj2 (literal_default_value_frame SampleUsage.convert
                         SampleUsage.start _ 0 SampleTypes.Int _
                         ltac:(vm_compute; reflexivity)))).
Defined.

(** X8. A call of [getLiteralDefaultValue] that throws remembers nothing: no
    usage is written and no literal node is added, so the next call
    converts again. *)
Theorem literal_default_value_failure_not_cached
  (astFromValue : jsval -> gtype -> option literal)
  (s s1 : store) (u : nat) (type : gtype) (msg : string) :
  getLiteralDefaultValue astFromValue s u type = (Throws msg, s1) ->
  usages s1 = usages s /\ literals s1 = literals s
  /\ forall type' node,
       (exists before, nth_error (usages s) u = Some before) ->
       astFromValue
         (match nth_error (usages s) u with
          | Some before => u_value before
          | None => JUndefined
          end) type' = Some node ->
       exists s2,
         getLiteralDefaultValue astFromValue s1 u type'
         = (Ok (List.length (literals s)), s2)
         /\ nth_error (literals s2) (List.length (literals s)) = Some node.
Proof.
  unfold getLiteralDefaultValue. intros H.
  destruct (nth_error (usages s) u) as [usage0|] eqn:Hu.
  2:{ inversion H; subst. repeat split. intros ? ? (b & Hb). discriminate. }
  destruct (u_literal usage0) as [l0|] eqn:Hl; [discriminate|].
  destruct (u_memoizedLiteral usage0) as [l0|] eqn:Hm; [discriminate|].
  destruct (astFromValue (u_value usage0) type) as [node|]; [discriminate|].
  inversion H; subst. simpl. repeat split.
  intros type' node _ Hconv. rewrite Hu, Hl, Hm, Hconv.
  eexists. split; [reflexivity|]. simpl.
  rewrite nth_error_app2 by lia. now rewrite Nat.sub_diag.
Qed.

Lemma literal_default_value_failure_not_cached_witness :
  exists s2,
    getLiteralDefaultValue SampleUsage.convert
      (snd (getLiteralDefaultValue SampleUsage.convert
              (mkStore [] [mkUsage None (JNum 5) None] 0) 0
              (TInputObject SampleTypes.ab)))
      0 SampleTypes.Int
    = (Ok 0, s2)
    /\ nth_error (literals s2) 0 = Some (LInt "5").
Proof.
  refine (proj2 (proj2 (literal_default_value_failure_not_cached
                          SampleUsage.convert
                          (mkStore [] [mkUsage None (JNum 5) None] 0) _ 0
                          (TInputObject SampleTypes.ab) _
                          ltac:(vm_compute; reflexivity)))
            SampleTypes.Int (LInt "5") _ _).
  - eexists; reflexivity.
  - vm_compute. reflexivity.
Defined.

(** X9. A call of [getCoercedDefaultValue] that returns leaves the usage so that
    every later call, for whatever type, returns the same value and changes
    nothing: the literal is decoded once at most. *)
Theorem coerced_default_value_is_decoded_once
  (valueFromAST : option literal -> gtype -> jsval)
  (s s1 : cstore) (u : nat) (type : gtype) (x : jsval) :
  getCoercedDefaultValue valueFromAST s u type = (Ok x, s1) ->
  x <> JUndefined
  /\ forall type', getCoercedDefaultValue valueFromAST s1 u type' = (Ok x, s1).
Proof.
  unfold getCoercedDefaultValue. intros H.
  destruct (nth_error (usages (c_store s)) u) as [usage0|] eqn:Hu;
    [|discriminate].
  destruct (js_undefined (u_value usage0)) eqn:Hv; simpl in H.
  2:{ inversion H; subst. split; [intros E; now rewrite E in Hv|].
      intros type'. now rewrite Hu, Hv. }
  destruct (js_undefined (c_memo s u)) eqn:Hm.
  2:{ inversion H; subst. split; [intros E; now rewrite E in Hm|].
      intros type'. now rewrite Hu, Hv, Hm. }
  destruct (js_undefined (valueFromAST _ type)) eqn:Hd; [discriminate|].
  inversion H; subst. split; [intros E; now rewrite E in Hd|].
  intros type'. simpl. rewrite Hu, Hv. simpl.
  unfold set_memo. rewrite Nat.eqb_refl. now rewrite Hd.
Qed.

Lemma coerced_default_value_is_decoded_once_witness :
  exists s1,
    getCoercedDefaultValue SampleCoerced.decode SampleCoerced.start 0
      SampleTypes.Int = (Ok (JStr "5"), s1)
    /\ getCoercedDefaultValue SampleCoerced.decode s1 0 SampleTypes.Int
       = (Ok (JStr "5"), s1)
    /\ decodings s1 = 1.
Proof.
  eexists. split; [vm_compute; reflexivity|]. split; [|reflexivity].
  apply (proj2 (coerced_default_value_is_decoded_once SampleCoerced.decode
                  SampleCoerced.start _ 0 SampleTypes.Int _
                  ltac:(vm_compute; reflexivity))).
Defined.

(** * Reducing with promises *)

Lemma reduce_in_turn_failed (T U : Type)
  (callback : U -> T -> res (PromiseOrValue U)) values e :
  reduce_in_turn callback values (Throws e) = Throws e.
Proof. induction values as [|x rest IH]; simpl; [reflexivity|exact IH]. Qed.

(** X10. Whatever mix of values and promises the callback returns, what
    [promiseReduce] comes to in the end is what reducing the values one
    after the other comes to: the callbacks run from left to right, each on
    the outcome of the one before, and the first error (thrown or rejected)
    is the outcome. *)
Theorem promise_reduce_is_sequential (T U : Type)
  (callback : U -> T -> res (PromiseOrValue U)) (values : list T)
  (initialValue : PromiseOrValue U) :
  in_the_end (promiseReduce callback values initialValue)
  = reduce_in_turn callback values (in_the_end (Ok initialValue)).
Proof.
  revert initialValue. induction values as [|x rest IH];
    intros initialValue; [reflexivity|].
  simpl. destruct initialValue as [a|settled]; simpl.
  - destruct (callback a x) as [next|e]; simpl.
    + apply IH.
    + now rewrite reduce_in_turn_failed.
  - rewrite IH. simpl. destruct settled as [a|e]; reflexivity.
Qed.

(** X11. When the initial value is not a promise and the callback returns plain
    values only, [promiseReduce] returns a plain value too, the one
    [reduce] would give; with no values at all it is the initial value. *)
Theorem promise_reduce_stays_plain (T U : Type)
  (callback : U -> T -> res (PromiseOrValue U)) (f : U -> T -> U)
  (values : list T) (a : U) :
  (forall b x, callback b x = Ok (Plain (f b x))) ->
  promiseReduce callback values (Plain a) = Ok (Plain (fold_left f values a))
  /\ promiseReduce callback [] (Plain a) = Ok (Plain a).
Proof.
  intros Hf. split; [|reflexivity].
  revert a. induction values as [|x rest IH]; intros a; simpl;
    [reflexivity|].
  rewrite Hf. apply IH.
Qed.

Lemma promise_reduce_stays_plain_witness :
  promiseReduce (fun b x => Ok (Plain (b + x))) [1; 2; 3] (Plain 0)
  = Ok (Plain 6)
  /\ promiseReduce (fun b x => Ok (Plain (b + x))) [] (Plain 0)
     = Ok (Plain 0).
Proof.
  exact (promise_reduce_stays_plain nat nat
           (fun b x => Ok (Plain (b + x))) Nat.add [1; 2; 3] 0
           (fun b x => eq_refl)).
Defined.

(** X12. Once the value carried along is a promise, [promiseReduce] returns a
    promise and never throws itself: an error of the callback rejects the
    promise instead; this holds even if the callback never returns a
    promise. *)
Theorem promise_reduce_promise_stays (T U : Type)
  (callback : U -> T -> res (PromiseOrValue U)) (values : list T)
  (settled : res U) :
  exists settled',
    promiseReduce callback values (Promised settled) = Ok (Promised settled').
Proof.
  revert settled. induction values as [|x rest IH]; intros settled; simpl.
  - now exists settled.
  - apply IH.
Qed.

(** * More about visitors in parallel *)

Section More_parallel.

Variable W : Type.

Lemma new_calls_app (st st' : pstate W) new :
  pcalls st' = pcalls st ++ new -> new_calls st st' = new.
Proof.
  intros H. unfold new_calls. rewrite H.
  rewrite skipn_app, skipn_all, Nat.sub_diag. reflexivity.
Qed.

Lemma in_visitor_order_weaken es : forall i j,
  i <= j -> in_visitor_order j es -> in_visitor_order i es.
Proof.
  destruct es as [|e rest]; simpl; intros i j Hij H; [exact I|].
  destruct H as [H1 H2]. split; [lia|exact H2].
Qed.

Lemma short_circuit_done i (st : pstate W) :
  short_circuit_spec i st (VUndef, st).
Proof.
  exists []. simpl. rewrite app_nil_r. repeat split; auto.
  intros H. now destruct H.
Qed.

Lemma short_circuit_skip i (st st1 : pstate W) out :
  pcalls st1 = pcalls st ->
  short_circuit_spec (S i) st1 out -> short_circuit_spec i st out.
Proof.
  intros Hc (new & Hnew & Hord & Hlast & Hall).
  exists new. rewrite Hnew, Hc. repeat split; auto.
  apply (in_visitor_order_weaken new i (S i)); [lia|exact Hord].
Qed.

Lemma short_circuit_call i (st st1 : pstate W) out e :
  pcalls st1 = pcalls st ++ [e] -> pe_visitor e = i ->
  (pe_result e = VUndef \/ pe_result e = VBool false
   \/ pe_result e = VBreak) ->
  short_circuit_spec (S i) st1 out -> short_circuit_spec i st out.
Proof.
  intros Hc Hi He (new & Hnew & Hord & Hlast & Hall).
  exists (e :: new). rewrite Hnew, Hc, <- app_assoc. simpl.
  split; [reflexivity|]. split; [|split].
  - rewrite Hi. split; [lia|exact Hord].
  - intros Hr.
    destruct (Hlast Hr) as (before & e' & -> & He' & Hf & Hb & Hbefore).
    exists (e :: before), e'. repeat split; auto.
  - intros Hr. constructor; [exact He|now apply Hall].
Qed.

Lemma short_circuit_edit i (st : pstate W) w leaving n r :
  is_false r = false -> is_break r = false ->
  short_circuit_spec i st
    (r, after_pcall st w (mkPEvent i leaving n r)).
Proof.
  intros Hf Hb. exists [mkPEvent i leaving n r]. simpl.
  split; [reflexivity|]. split; [split; [lia|exact I]|].
  split.
  - intros _. exists [], (mkPEvent i leaving n r).
    repeat split; auto.
  - intros ->. constructor; [now left|constructor].
Qed.

Lemma value_cases r :
  is_false r = true -> r = VBool false.
Proof. destruct r as [| |[|]| | | |]; try discriminate; reflexivity. Qed.

Lemma enter_from_short_circuit : forall vs i c (st : pstate W),
  short_circuit_spec i st (enter_from i vs c st).
Proof.
  induction vs as [|vi rest IH]; intros i c st; simpl;
    [apply short_circuit_done|].
  destruct (is_nullish _);
    [|eapply short_circuit_skip; cycle 1; [apply IH|reflexivity]].
  destruct (getVisitFn _ _ _) as [fn|];
    [|eapply short_circuit_skip; cycle 1; [apply IH|reflexivity]].
  destruct (fn c (inner st)) as [r w].
  destruct (is_false r) eqn:Hf.
  { eapply short_circuit_call; cycle 3; [apply IH|reflexivity|reflexivity|].
    simpl. right; left. now apply value_cases. }
  destruct (is_break r) eqn:Hb.
  { eapply short_circuit_call; cycle 3; [apply IH|reflexivity|reflexivity|].
    simpl. right; right. now destruct r. }
  destruct (is_undefined r) eqn:Hu; simpl.
  { eapply short_circuit_call; cycle 3; [apply IH|reflexivity|reflexivity|].
    simpl. left. now destruct r. }
  now apply short_circuit_edit.
Qed.

Lemma leave_from_short_circuit : forall vs i c (st : pstate W),
  short_circuit_spec i st (leave_from i vs c st).
Proof.
  induction vs as [|vi rest IH]; intros i c st; simpl;
    [apply short_circuit_done|].
  destruct (is_nullish _).
  2:{ destruct (strict_eq _ _);
        (eapply short_circuit_skip; cycle 1; [apply IH|reflexivity]). }
  destruct (getVisitFn _ _ _) as [fn|];
    [|eapply short_circuit_skip; cycle 1; [apply IH|reflexivity]].
  destruct (fn c (inner st)) as [r w].
  destruct (is_break r) eqn:Hb.
  { eapply short_circuit_call; cycle 3; [apply IH|reflexivity|reflexivity|].
    simpl. right; right. now destruct r. }
  destruct (negb (is_undefined r) && negb (is_false r)) eqn:He.
  { apply andb_true_iff in He. destruct He as [_ He].
    apply negb_true_iff in He. now apply short_circuit_edit. }
  eapply short_circuit_call; cycle 3; [apply IH|reflexivity|reflexivity|].
  simpl. apply andb_false_iff in He.
  destruct He as [He|He]; apply negb_false_iff in He.
  - left. now destruct r.
  - right; left. now apply value_cases.
Qed.

End More_parallel.

(** X13. A combined function calls the visitors in their order, each once at
    most, and stops at the first one that edits the node.  When it returns
    a value, that value is an edit (not [false], not [BREAK]), the last
    call made is the one that returned it, and no call before it returned
    an edit: so the first edit is the one returned, and no visitor after
    the one that edits sees the node.  When it returns [undefined], no call
    returned an edit. *)
Theorem parallel_first_edit_wins (W : Type) (visitors : list (visitor W))
  (leaving : bool) (c : call) (st : pstate W) :
  let out := parallel_fn visitors leaving c st in
  let new := new_calls st (snd out) in
  pcalls (snd out) = pcalls st ++ new
  /\ in_visitor_order 0 new
  /\ (fst out <> VUndef ->
      exists before e,
        new = before ++ [e] /\ pe_result e = fst out
        /\ is_false (fst out) = false /\ is_break (fst out) = false
        /\ Forall no_edit before)
  /\ (fst out = VUndef -> Forall no_edit new).
Proof.
  intros out new.
  assert (short_circuit_spec 0 st out) as (new' & Hnew & Hord & Hlast & Hall).
  { subst out. destruct leaving; simpl;
      [apply leave_from_short_circuit|apply enter_from_short_circuit]. }
  assert (new = new') as -> by (now apply new_calls_app).
  repeat split; assumption.
Qed.

Lemma parallel_first_edit_wins_witness :
  let st := parallel_start [SampleParallel.skipper; SampleParallel.editor;
                            SampleParallel.watcher] tt in
  let c := mkCall (Sample.field 5 (Sample.name 6 "b") VUndef) (KIdx 1) VUndef
             [KName "selections"; KIdx 1] [] in
  let out := parallel_fn [SampleParallel.skipper; SampleParallel.editor;
                          SampleParallel.watcher] true c st in
  fst out = Sample.z
  /\ exists before e,
       new_calls st (snd out) = before ++ [e] /\ pe_result e = fst out
       /\ is_false (fst out) = false /\ is_break (fst out) = false
       /\ Forall no_edit before.
Proof.
  intros st c out. split; [reflexivity|].
  apply (proj1 (proj2 (proj2 (parallel_first_edit_wins unit
           [SampleParallel.skipper; SampleParallel.editor;
            SampleParallel.watcher] true c st)))).
  discriminate.
Defined.

Section Markers.

Variable W : Type.

Lemma spec_new_calls i vs leaving c (st : pstate W) out :
  loop_from_spec i vs leaving c st out ->
  pcalls (snd out) = pcalls st ++ new_calls st (snd out)
  /\ (forall j, j < i ->
        nth j (skipping (snd out)) VUndef = nth j (skipping st) VUndef)
  /\ Forall (fun e => is_nullish (nth (pe_visitor e) (skipping st) VUndef)
                      = true) (new_calls st (snd out)).
Proof.
  intros (_ & new & Hnew & Hlow & _ & Hev & _).
  rewrite (new_calls_app W st (snd out) new Hnew).
  split; [exact Hnew|]. split; [exact Hlow|].
  eapply Forall_impl; [|exact Hev]. simpl. tauto.
Qed.

(** [enter] never touches a marker that is set. *)
Lemma enter_from_keeps_markers : forall vs i c (st : pstate W) j,
  is_nullish (nth j (skipping st) VUndef) = false ->
  nth j (skipping (snd (enter_from i vs c st))) VUndef
  = nth j (skipping st) VUndef.
Proof.
  induction vs as [|vi rest IH]; intros i c st j Hj; simpl; [reflexivity|].
  destruct (is_nullish (nth i (skipping st) VUndef)) eqn:Hi;
    [|now apply IH].
  assert (j <> i) as Hne by (intros ->; congruence).
  destruct (getVisitFn _ _ _) as [fn|]; [|now apply IH].
  destruct (fn c (inner st)) as [r w].
  destruct (is_false r).
  { rewrite IH; rewrite skipping_set_other by exact Hne; [reflexivity|exact Hj]. }
  destruct (is_break r).
  { rewrite IH; rewrite skipping_set_other by exact Hne; [reflexivity|exact Hj]. }
  destruct (negb (is_undefined r)); [reflexivity|].
  now rewrite IH.
Qed.

(** A visitor whose [enter] returns [false] is marked with the node. *)
Lemma enter_from_marks : forall vs i c (st : pstate W),
  exists new,
    pcalls (snd (enter_from i vs c st)) = pcalls st ++ new
    /\ Forall (fun e => pe_result e = VBool false ->
                 nth (pe_visitor e) (skipping (snd (enter_from i vs c st)))
                   VUndef = c_node c) new.
Proof.
  induction vs as [|vi rest IH]; intros i c st; simpl.
  { exists []. now rewrite app_nil_r. }
  destruct (is_nullish _); [|apply IH].
  destruct (getVisitFn _ _ _) as [fn|]; [|apply IH].
  destruct (fn c (inner st)) as [r w].
  assert (forall st1 : pstate W,
            pcalls st1 = pcalls st ++ [mkPEvent i false (c_node c) r] ->
            (r = VBool false -> nth i (skipping st1) VUndef = c_node c) ->
            exists new,
              pcalls (snd (enter_from (S i) rest c st1)) = pcalls st ++ new
              /\ Forall (fun e => pe_result e = VBool false ->
                           nth (pe_visitor e)
                             (skipping (snd (enter_from (S i) rest c st1)))
                             VUndef = c_node c) new) as Hstep.
  { intros st1 Hc Hmark. destruct (IH (S i) c st1) as (new & Hnew & Hall).
    exists (mkPEvent i false (c_node c) r :: new).
    rewrite Hnew, Hc, <- app_assoc. split; [reflexivity|].
    constructor; [|exact Hall]. simpl. intros Hr.
    destruct (spec_new_calls (S i) rest false c st1 _
                (enter_from_spec W rest (S i) c st1)) as (_ & Hlow & _).
    rewrite Hlow by lia. now apply Hmark. }
  destruct (is_false r) eqn:Hf.
  { apply Hstep; [reflexivity|]. intros _. apply skipping_set_same. }
  destruct (is_break r) eqn:Hb.
  { apply Hstep; [reflexivity|]. intros ->. discriminate. }
  destruct (negb (is_undefined r)) eqn:Hu.
  - exists [mkPEvent i false (c_node c) r]. split; [reflexivity|].
    constructor; [|constructor]. simpl. intros ->. discriminate.
  - apply Hstep; [reflexivity|]. intros ->. discriminate.
Qed.

(** When [leave] runs to the end of its loop, every marker that is the node
    is cleared. *)
Lemma leave_from_clears : forall vs i c (st : pstate W),
  isNode (c_node c) = true ->
  fst (leave_from i vs c st) = VUndef ->
  forall k, k < List.length vs ->
    strict_eq (nth (i + k) (skipping st) VUndef) (c_node c) = true ->
    nth (i + k) (skipping (snd (leave_from i vs c st))) VUndef = VNull.
Proof.
  induction vs as [|vi rest IH]; intros i c st Hnode Hout k Hk Heq;
    simpl in *; [lia|].
  assert (forall st1 : pstate W,
            (forall j, j <> i ->
               nth j (skipping st1) VUndef = nth j (skipping st) VUndef) ->
            (k = 0 -> nth i (skipping st1) VUndef = VNull) ->
            fst (leave_from (S i) rest c st1) = VUndef ->
            nth (i + k) (skipping (snd (leave_from (S i) rest c st1))) VUndef
            = VNull) as Hstep.
  { intros st1 Hother Hhere Hout1. destruct k as [|k].
    - rewrite Nat.add_0_r.
      destruct (spec_new_calls (S i) rest true c st1 _
                  (leave_from_spec W rest (S i) c st1 Hnode))
        as (_ & Hlow & _).
      rewrite Hlow by lia. now apply Hhere.
    - replace (i + S k) with (S i + k) by lia.
      apply IH; [exact Hnode|exact Hout1|lia|].
      rewrite Hother by lia. now replace (S i + k) with (i + S k) by lia. }
  assert (k = 0 -> is_nullish (nth i (skipping st) VUndef) = false) as Hmine.
  { intros ->. rewrite Nat.add_0_r in Heq.
    destruct (nth i (skipping st) VUndef), (c_node c);
      try discriminate; reflexivity. }
  destruct (is_nullish (nth i (skipping st) VUndef)) eqn:Hi.
  - assert (k <> 0) as Hk0 by (intros E; specialize (Hmine E); discriminate).
    destruct (getVisitFn _ _ _) as [fn|].
    2:{ apply Hstep; auto. intros E; contradiction. }
    destruct (fn c (inner st)) as [r w].
    destruct (is_break r).
    { apply Hstep; [|intros E; contradiction|exact Hout].
      intros j Hj. now rewrite skipping_set_other. }
    destruct (negb (is_undefined r) && negb (is_false r)) eqn:He.
    { simpl in Hout. subst r. discriminate. }
    apply Hstep; auto. intros E; contradiction.
  - destruct (strict_eq (nth i (skipping st) VUndef) (c_node c)) eqn:Hs.
    + apply Hstep; [|intros _; apply skipping_set_same|exact Hout].
      intros j Hj. now rewrite skipping_set_other.
    + apply Hstep; auto. intros ->. rewrite Nat.add_0_r in Heq. congruence.
Qed.

End Markers.

(** X14. A visitor whose marker is set is not called, neither on entering nor on
    leaving, and [enter] leaves its marker as it is: a visitor that returned
    [false] at a node stays hidden from everything below the node. *)
Theorem parallel_marked_visitor_is_not_called (W : Type)
  (visitors : list (visitor W)) (leaving : bool) (c : call) (st : pstate W)
  (j : nat) :
  isNode (c_node c) = true ->
  is_nullish (nth j (skipping st) VUndef) = false ->
  let st' := snd (parallel_fn visitors leaving c st) in
  Forall (fun e => pe_visitor e <> j) (new_calls st st')
  /\ (leaving = false ->
      nth j (skipping st') VUndef = nth j (skipping st) VUndef).
Proof.
  intros Hnode Hj st'. split.
  - assert (loop_from_spec 0 visitors leaving c st
              (parallel_fn visitors leaving c st)) as Hspec.
    { destruct leaving; simpl;
        [now apply leave_from_spec|apply enter_from_spec]. }
    destruct (spec_new_calls W 0 visitors leaving c st _ Hspec)
      as (_ & _ & Hev).
    eapply Forall_impl; [|exact Hev]. simpl. intros e He E.
    rewrite E in He. congruence.
  - intros ->. subst st'. simpl. now apply enter_from_keeps_markers.
Qed.

Lemma parallel_marked_visitor_is_not_called_witness :
  let b := Sample.field 5 (Sample.name 6 "b") VUndef in
  let x := Sample.field 9 (Sample.name 10 "x") VUndef in
  let vs := [SampleParallel.skipper; SampleParallel.watcher] in
  let st := mkPState [b; VUndef] tt [] in
  let st' := snd (parallel_fn vs false (mkCall x (KIdx 0) VUndef [] []) st) in
  Forall (fun e => pe_visitor e <> 0) (new_calls st st')
  /\ (false = false -> nth 0 (skipping st') VUndef = nth 0 (skipping st) VUndef).
Proof.
  intros b x vs st st'.
  apply (parallel_marked_visitor_is_not_called unit vs false
           (mkCall x (KIdx 0) VUndef [] []) st 0); reflexivity.
Defined.

(** X15. A visitor whose [enter] returns [false] at a node is marked with that
    node; and when [leave] is called on a node and no visitor edits it,
    every marker that is this node is cleared, so the visitor is called
    again from there on. *)
Theorem parallel_skip_marker_set_and_cleared (W : Type)
  (visitors : list (visitor W)) (c : call) (st : pstate W) :
  isNode (c_node c) = true ->
  Forall (fun e => pe_result e = VBool false ->
            nth (pe_visitor e)
              (skipping (snd (parallel_fn visitors false c st))) VUndef
            = c_node c)
    (new_calls st (snd (parallel_fn visitors false c st)))
  /\ (fst (parallel_fn visitors true c st) = VUndef ->
      forall j, j < List.length visitors ->
        strict_eq (nth j (skipping st) VUndef) (c_node c) = true ->
        nth j (skipping (snd (parallel_fn visitors true c st))) VUndef
        = VNull).
Proof.
  intros Hnode. split.
  - simpl. destruct (enter_from_marks W visitors 0 c st) as (new & Hnew & Hall).
    now rewrite (new_calls_app W st _ new Hnew).
  - simpl. intros Hout j Hj Heq.
    now apply (leave_from_clears W visitors 0 c st Hnode Hout j Hj).
Qed.

Lemma parallel_skip_marker_set_and_cleared_witness :
  let b := Sample.field 5 (Sample.name 6 "b") VUndef in
  let vs := [SampleParallel.watcher; SampleParallel.skipper] in
  let c := mkCall b (KIdx 1) VUndef [] [] in
  let st1 := snd (parallel_fn vs false c (parallel_start vs tt)) in
  skipping st1 = [VUndef; b]
  /\ nth 1 (skipping (snd (parallel_fn vs true c st1))) VUndef = VNull.
Proof.
  intros b vs c st1. split; [reflexivity|].
  exact (proj2 (parallel_skip_marker_set_and_cleared unit vs c st1 eq_refl)
           eq_refl 1 ltac:(simpl; lia) eq_refl).
Defined.

Lemma parallel_fn_quiet (W : Type) (visitors : list (visitor W)) leaving c
  (st : pstate W) :
  Forall never_edits visitors ->
  fst (parallel_fn visitors leaving c st) = VUndef.
Proof.
  intros Hq. unfold parallel_fn.
  assert (forall i, fst (enter_from i visitors c st) = VUndef
                    /\ fst (leave_from i visitors c st) = VUndef) as H;
    [|destruct leaving; apply (H 0)].
  revert st. induction Hq as [|vi rest Hvi _ IH]; intros st i; simpl;
    [split; reflexivity|].
  split.
  - destruct (is_nullish _); [|apply IH].
    destruct (getVisitFn vi (kind_of (c_node c)) false) as [fn|] eqn:Hfn;
      [|apply IH].
    pose proof (Hvi _ _ fn c (inner st) Hfn) as Hr.
    destruct (fn c (inner st)) as [r w]. simpl in Hr.
    destruct Hr as [-> | [-> | ->]]; simpl; apply IH.
  - destruct (is_nullish _); [|destruct (strict_eq _ _); apply IH].
    destruct (getVisitFn vi (kind_of (c_node c)) true) as [fn|] eqn:Hfn;
      [|apply IH].
    pose proof (Hvi _ _ fn c (inner st) Hfn) as Hr.
    destruct (fn c (inner st)) as [r w]. simpl in Hr.
    destruct Hr as [-> | [-> | ->]]; simpl; apply IH.
Qed.

(** X16. Visitors that never return an edit (they return [undefined],
    [false] or [BREAK] only) can be run in parallel, however many (none at
    all too): the traversal comes to its end and [visit] returns the root
    it was given, with no copy made. *)
Theorem parallel_of_quiet_visitors_returns_root (W : Type)
  (visitors : list (visitor W)) (root : value) (w : W) :
  well_formed root = true ->
  Forall never_edits visitors ->
  exists fuel final,
    (forall k,
       visit (fuel + k) root (visitInParallel visitors)
         (parallel_start visitors w) = Returned root final false)
    /\ next final = 0.
Proof.
  intros Hwf Hq.
  destruct (quiet_run (pstate W) (visitInParallel visitors) root
              (parallel_start visitors w) Hwf)
    as (fuel & final & Hrun & He & Hn & _).
  { intros n _ leaving h c u Hh _. destruct leaving; simpl in Hh;
      inversion Hh; subst.
    - now apply (parallel_fn_quiet W visitors true).
    - now apply (parallel_fn_quiet W visitors false). }
  exists fuel, final. split; [|exact Hn].
  intros k. unfold visit. rewrite (loop_more_fuel _ _ root _ _ _ _ k Hrun).
  now rewrite He.
Qed.

Lemma parallel_of_quiet_visitors_returns_root_witness :
  exists fuel final,
    (forall k,
       visit (fuel + k) Sample.tree
         (visitInParallel [SampleParallel.skipper; SampleParallel.breaker;
                           Sample.silent])
         (parallel_start [SampleParallel.skipper; SampleParallel.breaker;
                          Sample.silent] tt)
       = Returned Sample.tree final false)
    /\ next final = 0.
Proof.
  apply (parallel_of_quiet_visitors_returns_root unit
           [SampleParallel.skipper; SampleParallel.breaker; Sample.silent]
           Sample.tree tt); [reflexivity|].
  apply Forall_cons; [|apply Forall_cons; [|apply Forall_cons;
    [|apply Forall_nil]]]; intros kind leaving h c u Hh.
  - unfold SampleParallel.skipper, Sample.on_field, getVisitFn in Hh.
    simpl in Hh. destruct (String.eqb kind "Field"), leaving;
      inversion Hh; simpl.
    destruct (Sample.named "b" c); auto.
  - unfold SampleParallel.breaker, Sample.on_field, getVisitFn in Hh.
    simpl in Hh. destruct (String.eqb kind "Field"), leaving;
      inversion Hh; simpl; auto.
  - destruct leaving; inversion Hh; simpl; auto.
Defined.

(** * More about the traversal *)

Lemma visit_break_is_last_call_witness :
  skipn 2 (calls SampleBreak.final) = [] /\ true = true.
Proof.
  apply (visit_break_is_last_call unit 20 Sample.tree
           Sample.replace_a_break_at_b tt Sample.z SampleBreak.final true
           ltac:(vm_compute; reflexivity)
           (firstn 1 (calls SampleBreak.final))
           (nth 1 (calls SampleBreak.final)
              (mkEvent false (mkCall VUndef KUndef VUndef [] []) VUndef))
           (skipn 2 (calls SampleBreak.final))).
  - reflexivity.
  - reflexivity.
Defined.

Section Calls.

Variable W : Type.
Variable v : visitor W.
Variable root : value.

Lemma visit_node_chosen leaving edited n k (st : state W) :
  match visit_node v leaving edited n k st with
  | Next st' | Broke st' =>
      calls st' = calls st
      \/ exists e, calls st' = calls st ++ [e] /\ chosen_call v e
                   /\ ev_leaving e = leaving /\ c_node (ev_call e) = n
  | Thrown _ => True
  end.
Proof.
  unfold visit_node. destruct (isArray n).
  { destruct (finish _ _ _ _ _ _) eqn:E; auto.
    - left. eapply finish_calls; eassumption.
    - now apply finish_not_broke in E. }
  destruct (isNode n) eqn:Hn; simpl; [|exact I].
  destruct (getVisitFn v (kind_of n) leaving) as [h|] eqn:Hh.
  2:{ destruct (finish _ _ _ _ _ _) eqn:E; auto.
      - left. eapply finish_calls; eassumption.
      - now apply finish_not_broke in E. }
  destruct (h _ _) as [r u] eqn:Hr. simpl.
  set (c := mkCall n k (parent st) (path st) (ancestors st)) in *.
  assert (chosen_call v (mkEvent leaving c r)) as Hchosen.
  { split; [exact Hn|]. exists h, (user st). simpl. split; [exact Hh|].
    now rewrite Hr. }
  assert (forall o : outcome W,
            (forall st', o = Next st' \/ o = Broke st' ->
               calls st' = calls st ++ [mkEvent leaving c r]) ->
            match o with
            | Next st' | Broke st' =>
                calls st' = calls st
                \/ exists e, calls st' = calls st ++ [e] /\ chosen_call v e
                             /\ ev_leaving e = leaving
                             /\ c_node (ev_call e) = n
            | Thrown _ => True
            end) as Hout.
  { intros [s|s|m] H; auto; right; exists (mkEvent leaving c r);
      (split; [apply H; auto|auto]). }
  apply Hout. intros st' Hst'.
  destruct (is_break r); [destruct Hst' as [E|E]; inversion E; reflexivity|].
  assert (forall l' e' r' n' k' s0,
            calls s0 = calls st ++ [mkEvent leaving c r] ->
            finish l' e' r' n' k' s0 = Next st' \/
            finish l' e' r' n' k' s0 = Broke st' ->
            calls st' = calls st ++ [mkEvent leaving c r]) as Hfin.
  { intros l' e' r' n' k' s0 Hs0 [E|E].
    - apply finish_calls in E. congruence.
    - now apply finish_not_broke in E. }
  destruct (is_false r).
  { destruct leaving; simpl in Hst'.
    - eapply Hfin; [|exact Hst']. reflexivity.
    - destruct Hst' as [E|E]; inversion E; reflexivity. }
  destruct (is_undefined r); simpl in Hst'.
  { eapply Hfin; [|exact Hst']. reflexivity. }
  destruct leaving; simpl in Hst'.
  { eapply Hfin; [|exact Hst']. reflexivity. }
  destruct (isNode r).
  - eapply Hfin; [|exact Hst']. reflexivity.
  - destruct Hst' as [E|E]; inversion E; reflexivity.
Qed.

Lemma body_chosen (st : state W) :
  Forall (chosen_call v) (calls st) ->
  match body v root st with
  | Next st' | Broke st' => Forall (chosen_call v) (calls st')
  | Thrown _ => True
  end.
Proof.
  intros Hall.
  assert (forall o : outcome W,
            match o with
            | Next st' | Broke st' =>
                calls st' = calls st
                \/ exists e, calls st' = calls st ++ [e] /\ chosen_call v e
                             /\ ev_leaving e = ev_leaving e
                             /\ c_node (ev_call e) = c_node (ev_call e)
            | Thrown _ => True
            end ->
            match o with
            | Next st' | Broke st' => Forall (chosen_call v) (calls st')
            | Thrown _ => True
            end) as Hout.
  { intros [s|s|m] H; auto;
      (destruct H as [->|(e & -> & He & _)];
       [exact Hall|apply Forall_app; split; [exact Hall|now constructor]]). }
  apply Hout. unfold body.
  destruct (index st + 1 =? keys_length (keys st))%Z.
  - destruct (stack st) as [|fr prev]; [exact I|].
    match goal with |- context [visit_node v ?l ?e ?n ?k ?s] =>
      pose proof (visit_node_chosen l e n k s) as H
    end.
    destruct (visit_node _ _ _ _ _ _); auto;
      (destruct H as [H|(e & H1 & H2 & _)]; [now left|right; now exists e]).
  - destruct (is_nullish _); [now left|].
    destruct (truthy (parent st));
      match goal with |- context [visit_node v ?l ?e ?n ?k ?s] =>
        pose proof (visit_node_chosen l e n k s) as H
      end;
      (destruct (visit_node _ _ _ _ _ _); auto;
       (destruct H as [H|(e & H1 & H2 & _)]; [now left|right; now exists e])).
Qed.

Lemma loop_chosen : forall fuel (st final : state W) b,
  Forall (chosen_call v) (calls st) ->
  loop v root fuel st = Stopped final b ->
  Forall (chosen_call v) (calls final).
Proof.
  induction fuel as [|fuel IH]; simpl; intros st final b Hall Hrun;
    [discriminate|].
  pose proof (body_chosen st Hall) as Hbody.
  destruct (body v root st) as [s1|s1|m]; try discriminate.
  - destruct (stack s1); [now inversion Hrun; subst|].
    eapply IH; eassumption.
  - now inversion Hrun; subst.
Qed.

End Calls.

(** X18. Whatever the tree and the visitor, every call [visit] makes is made on
    a node (never on an array, on a value that is no node, or on nothing),
    and to the function [getVisitFn] chooses for the kind of that node and
    the direction; what is recorded is what that function returned. *)
Theorem visit_calls_chosen_functions_on_nodes (W : Type) (fuel : nat)
  (root : value) (v : visitor W) (u : W) (r : value) (final : state W)
  (b : bool) :
  visit fuel root v u = Returned r final b ->
  Forall (chosen_call v) (calls final).
Proof.
  unfold visit. intros H.
  destruct (loop v root fuel (initial root u)) as [st b'| |] eqn:Hrun;
    try discriminate.
  inversion H; subst.
  eapply loop_chosen; [|exact Hrun]. constructor.
Qed.

Lemma visit_calls_chosen_functions_on_nodes_witness :
  Forall (chosen_call Sample.replace_a_break_at_b) (calls SampleBreak.final).
Proof.
  apply (visit_calls_chosen_functions_on_nodes unit 20 Sample.tree
           Sample.replace_a_break_at_b tt Sample.z SampleBreak.final true).
  vm_compute. reflexivity.
Defined.

Lemma set_field_get fields name x name' :
  get_field (set_field fields name x) name'
  = if String.eqb name name' then x else get_field fields name'.
Proof.
  induction fields as [|[n y] rest IH]; simpl.
  - destruct (String.eqb name name'); reflexivity.
  - destruct (String.eqb n name) eqn:E; simpl.
    + apply String.eqb_eq in E. subst n.
      destruct (String.eqb name name'); reflexivity.
    + destruct (String.eqb n name') eqn:E'; [|exact IH].
      apply String.eqb_eq in E'. subst n.
      destruct (String.eqb name name') eqn:E2; [|reflexivity].
      apply String.eqb_eq in E2. subst. rewrite String.eqb_refl in E.
      discriminate.
Qed.

Lemma last_edit_found name es : forall y,
  last_edit name es (Some y) <> None.
Proof.
  induction es as [|[[|i|s] x] rest IH]; intros y; simpl;
    try discriminate; try apply IH.
  destruct (String.eqb s name); apply IH.
Qed.

Lemma apply_object_edits_get name es : forall fields found,
  match found with
  | Some y => get_field fields name = y
  | None => True
  end ->
  get_field (apply_object_edits fields es) name
  = match last_edit name es found with
    | Some x => x
    | None => get_field fields name
    end.
Proof.
  induction es as [|[[|i|s] x] rest IH]; intros fields found Hfound; simpl.
  - destruct found; [exact Hfound|reflexivity].
  - now apply IH.
  - now apply IH.
  - rewrite (IH (set_field fields s x)
               (if String.eqb s name then Some x else found)).
    + destruct (last_edit name rest
                  (if String.eqb s name then Some x else found)) eqn:E;
        [reflexivity|].
      rewrite set_field_get.
      destruct (String.eqb s name); [|reflexivity].
      now apply last_edit_found in E.
    + rewrite set_field_get.
      destruct (String.eqb s name); [reflexivity|].
      destruct found; [exact Hfound|exact I].
Qed.

(** X20. The copy of a node made on leaving it has the kind of the node and a
    new identity; under each field name it holds the value of the last edit
    recorded under that name, and what the node held when no edit was: the
    children that were not edited are the same objects in the copy as in
    the original. *)
Theorem node_copy_keeps_unedited_fields (r : ref) (kind : string)
  (fields : list (string * value)) (es : list edit) (next : nat) :
  exists fields',
    clone_with_edits false (VNode r kind fields) es next
    = VNode (Fresh next) kind fields'
    /\ forall name,
         get_field fields' name
         = match last_edit name es None with
           | Some x => x
           | None => get_field fields name
           end.
Proof.
  exists (apply_object_edits fields es). split; [reflexivity|].
  intros name. now apply apply_object_edits_get.
Qed.

Lemma apply_array_edits_length : forall es cs lo,
  (0 <= lo)%Z -> live_from lo cs ->
  ordered_from lo (Z.of_nat (List.length cs)) es = true ->
  List.length (apply_array_edits (compact cs) es (Z.of_nat (count_deleted cs)))
  + deletions es = List.length (compact cs).
Proof.
  induction es as [|[k x] es IH]; intros cs lo Hlo Hlive Hord;
    [simpl; unfold deletions; simpl; lia|].
  simpl in Hord. destruct k as [|i|s]; try discriminate.
  apply andb_true_iff in Hord. destruct Hord as [Hrange Hrest].
  apply andb_true_iff in Hrange. destruct Hrange as [Hge Hlt].
  apply Z.leb_le in Hge. apply Z.ltb_lt in Hlt.
  destruct (live_split lo cs i Hlive (conj Hlo Hge) Hlt)
    as (pre & y & post & Hcs & Hpre & Hdel & Hpost).
  assert (count_deleted cs = count_deleted pre) as Hoff.
  { rewrite Hcs, count_deleted_app. unfold count_deleted in *. simpl.
    rewrite Hdel. lia. }
  assert (i - Z.of_nat (count_deleted cs)
          = Z.of_nat (List.length (compact pre)))%Z as Htarget.
  { pose proof (compact_length pre). lia. }
  assert (compact cs = compact pre ++ y :: compact post) as Hcompact
    by (rewrite Hcs, compact_app; reflexivity).
  assert (List.length cs = List.length pre + S (List.length post)) as Hlen
    by (rewrite Hcs, length_app; reflexivity).
  simpl. rewrite Htarget, Hcompact. unfold deletions. simpl.
  fold (deletions es).
  destruct (is_null x) eqn:Hx; simpl.
  - rewrite splice1_middle.
    pose proof (IH (pre ++ None :: post) (i + 1)%Z) as H.
    rewrite compact_app in H. simpl in H.
    replace (Z.of_nat (count_deleted (pre ++ None :: post)))
      with (Z.of_nat (count_deleted cs) + 1)%Z in H.
    2:{ rewrite count_deleted_app, Hoff. unfold count_deleted in *. simpl.
        rewrite Hdel. lia. }
    rewrite !length_app in *. simpl.
    assert (List.length
              (apply_array_edits (compact pre ++ compact post) es
                 (Z.of_nat (count_deleted cs) + 1)) + deletions es
            = List.length (compact pre) + List.length (compact post)) as H'.
    { apply H; [lia| |].
      - apply live_after_deleted; [exact Hpost|lia].
      - simpl. rewrite <- Hlen. exact Hrest. }
    unfold deletions in *. lia.
  - rewrite array_set_middle.
    pose proof (IH (pre ++ Some x :: post) i) as H.
    rewrite compact_app in H. simpl in H.
    replace (Z.of_nat (count_deleted (pre ++ Some x :: post)))
      with (Z.of_nat (count_deleted cs)) in H.
    2:{ rewrite count_deleted_app, Hoff. unfold count_deleted in *. simpl.
        rewrite Hdel. lia. }
    rewrite !length_app in *. simpl in *. unfold deletions in *.
    apply H; [lia| |].
    + apply live_after; [discriminate|exact Hpost|lia].
    + rewrite <- Hlen. exact Hrest.
Qed.

(** X21. The copy of an array made on leaving it has one element less for each
    deletion among its edits and as many as the array otherwise: a
    replacement takes the place of the element it replaces. *)
Theorem array_copy_length (arr : list value) (es : list edit) :
  edits_in_order arr es = true ->
  List.length (apply_array_edits arr es 0) + deletions es = List.length arr.
Proof.
  intros H.
  pose proof (apply_array_edits_length es (map Some arr) 0 ltac:(lia)
                (live_from_start arr)) as Hlen.
  rewrite length_map, compact_start, count_deleted_start in Hlen.
  now apply Hlen.
Qed.

Lemma array_copy_length_witness :
  List.length
    (apply_array_edits [VNull; VBool true; VStr "c"]
       [(KIdx 0, VStr "a"); (KIdx 1, VNull); (KIdx 2, VStr "z")] 0)
  + 1 = 3.
Proof.
  exact (array_copy_length [VNull; VBool true; VStr "c"]
           [(KIdx 0, VStr "a"); (KIdx 1, VNull); (KIdx 2, VStr "z")] eq_refl).
Defined.

(** ** The order of the calls *)

Lemma array_slots_nth items : forall j n,
  n < List.length items ->
  nth_error (array_slots j items) n
  = Some (KIdx (Z.of_nat (j + n)), nth n items VUndef).
Proof.
  induction items as [|x rest IH]; intros j [|n] H; simpl in *; try lia.
  - now rewrite Nat.add_0_r.
  - rewrite IH by lia. do 3 f_equal. lia.
Qed.

Lemma array_slots_length items : forall j,
  List.length (array_slots j items) = List.length items.
Proof. induction items as [|x rest IH]; intros j; simpl; auto. Qed.

Lemma slots_length c :
  Z.of_nat (List.length (slots c)) = keys_length (keys_of c)
  \/ (isNode c = false /\ isArray c = false).
Proof.
  destruct c; simpl; auto; left.
  - now rewrite array_slots_length.
  - now rewrite length_map.
Qed.

Section Listed_traversal.

Variable W : Type.
Variable v : visitor W.
Variable root : value.

(** The slot under the cursor, as the state reads it and as [slots] lists
    it. *)
Lemma slot_of_state (st : state W) i :
  truthy (parent st) = true -> at_level_of_parent st ->
  (0 <= i < keys_length (keys st))%Z ->
  nth_error (slots (parent st)) (Z.to_nat i)
  = Some (slot_key st i, get_prop (parent st) (slot_key st i)).
Proof.
  intros Hpar [HinA Hkeys] Hi. unfold slot_key. rewrite HinA.
  rewrite Hkeys in *.
  destruct (parent st) as [| | | | |r items|r kind fields]; simpl in *;
    try discriminate; try (exfalso; lia).
  - rewrite array_slots_nth by lia. simpl.
    destruct (i <? 0)%Z eqn:E; [apply Z.ltb_lt in E; lia|].
    do 3 f_equal. lia.
  - destruct (i <? 0)%Z eqn:E; [apply Z.ltb_lt in E; lia|].
    rewrite nth_error_map.
    destruct (nth_error (child_keys kind) (Z.to_nat i)) as [name|] eqn:En;
      [reflexivity|].
    apply nth_error_None in En. lia.
Qed.

Lemma skipn_nth_error (A : Type) (l : list A) n x :
  nth_error l n = Some x -> skipn n l = x :: skipn (S n) l.
Proof.
  revert n. induction l as [|y l IH]; intros [|n] H; simpl in *;
    try discriminate.
  - now inversion H.
  - now apply IH.
Qed.

Lemma rest_of_level_next fuel (st : state W) u cs :
  truthy (parent st) = true -> at_level_of_parent st ->
  (-1 <= index st)%Z -> (index st + 1 < keys_length (keys st))%Z ->
  rest_of_level v fuel st
  = depth_first v fuel
      (get_prop (parent st) (slot_key st (index st + 1)))
      (slot_key st (index st + 1)) (parent st)
      (path st ++ [slot_key st (index st + 1)]) (ancestors st)
    ++ rest_of_level v fuel (moved_on st u cs).
Proof.
  intros Hpar Hlevel Hlo Hlt. unfold rest_of_level.
  rewrite (skipn_nth_error _ _ _ _
             (slot_of_state st (index st + 1) Hpar Hlevel ltac:(lia))).
  simpl.
  replace (Z.to_nat (index st + 1 + 1)) with (S (Z.to_nat (index st + 1)))
    by lia.
  reflexivity.
Qed.

Lemma rest_of_level_end fuel (st : state W) :
  truthy (parent st) = true -> at_level_of_parent st ->
  (index st + 1 = keys_length (keys st))%Z ->
  rest_of_level v fuel st = [].
Proof.
  intros Hpar [_ Hkeys] Hi. unfold rest_of_level.
  rewrite skipn_all2; [reflexivity|].
  destruct (slots_length (parent st)) as [H|[H1 H2]].
  - rewrite Hkeys in Hi. lia.
  - destruct (parent st); simpl in *; try discriminate; lia.
Qed.

Lemma calls_made_app a b :
  calls_made (a ++ b) = calls_made a ++ calls_made b.
Proof. unfold calls_made. apply map_app. Qed.

(** A level whose remaining slots are walked in depth-first order. *)
Lemma level_listed fuel : forall m (st : state W),
  stack st <> [] -> truthy (parent st) = true ->
  at_level_of_parent st -> (-1 <= index st)%Z ->
  (index st + 1 <= keys_length (keys st))%Z ->
  Z.to_nat (keys_length (keys st) - (index st + 1)) = m ->
  (forall i, (index st < i < keys_length (keys st))%Z ->
     slot_listed v root fuel (get_prop (parent st) (slot_key st i))) ->
  exists n u cs,
    advance v root n st = Some (at_end st u cs) /\ all_undefined cs
    /\ calls_made cs = rest_of_level v fuel st.
Proof.
  induction m as [|m IH]; intros st Hstk Hpar Hlevel Hlo Hidx Hm Hslots.
  - exists 0%nat, (user st), []. split; [|split; [constructor|]].
    + unfold at_end. simpl. rewrite app_nil_r.
      assert (keys_length (keys st) - 1 = index st)%Z as -> by lia.
      destruct st; reflexivity.
    + rewrite rest_of_level_end; auto. lia.
  - assert (index st + 1 < keys_length (keys st))%Z as Hlt by lia.
    destruct (Hslots (index st + 1)%Z ltac:(lia) st Hstk Hpar Hlevel Hlo Hlt
                eq_refl) as (n1 & u1 & cs1 & Hn1 & Hcs1 & Hl1).
    destruct (IH (moved_on st u1 cs1)) as (n2 & u2 & cs2 & Hn2 & Hcs2 & Hl2);
      simpl; try assumption; try lia.
    { intros i Hi. apply (Hslots i). lia. }
    exists (n1 + n2)%nat, u2, (cs1 ++ cs2). split; [|split].
    + unfold at_end in *. simpl in Hn2. rewrite app_assoc.
      eapply advance_trans; eassumption.
    + apply Forall_app; split; assumption.
    + rewrite calls_made_app, Hl1, Hl2.
      symmetry. now apply rest_of_level_next.
Qed.

(** On the way in or out of [c], one call at most, which is the listed
    one. *)
Lemma visit_node_listed c leaving k (st : state W) :
  isNode c = true \/ isArray c = true -> quiet_on v c ->
  exists u cs,
    visit_node v leaving false c k st =
      finish leaving false VUndef c k
        (mkState (stack st) (inArray st) (keys st) (index st) (edits st)
           (parent st) (path st) (ancestors st) (next st) u (calls st ++ cs))
    /\ all_undefined cs
    /\ calls_made cs
       = match c with
         | VNode _ _ _ =>
             listed v leaving
               (mkCall c k (parent st) (path st) (ancestors st))
         | _ => []
         end.
Proof.
  intros Hc Hq. unfold visit_node. destruct (isArray c) eqn:Harr.
  - exists (user st), []. split; [|split; [constructor|]].
    + rewrite app_nil_r. destruct st; reflexivity.
    + now destruct c.
  - destruct Hc as [Hn|Ha]; [|discriminate]. rewrite Hn. simpl.
    unfold listed. simpl.
    destruct (getVisitFn v (kind_of c) leaving) as [h|] eqn:Hh.
    + destruct (quiet_call W v c leaving h k (parent st) (path st)
                  (ancestors st) (user st) Hq Hh) as [u' Hu].
      rewrite Hu. simpl. eexists u', [_]. split; [reflexivity|]. split.
      * constructor; [reflexivity|constructor].
      * now destruct c.
    + exists (user st), []. split; [|split; [constructor|]].
      * rewrite app_nil_r. destruct st; reflexivity.
      * now destruct c.
Qed.

End Listed_traversal.

Section Listed_walk.

Variable W : Type.
Variable v : visitor W.
Variable root : value.

Lemma slot_enter_listed c (st : state W) :
  isNode c = true \/ isArray c = true -> quiet_on v c ->
  truthy (parent st) = true ->
  (index st + 1 < keys_length (keys st))%Z ->
  get_prop (parent st) (slot_key st (index st + 1)) = c ->
  exists u cs,
    body v root st =
      Next (descend
              (mkState (stack st) (inArray st) (keys st) (index st + 1)%Z
                 (edits st) (parent st)
                 (path st ++ [slot_key st (index st + 1)]) (ancestors st)
                 (next st) u (calls st ++ cs)) c)
    /\ all_undefined cs
    /\ calls_made cs
       = match c with
         | VNode _ _ _ =>
             listed v false
               (mkCall c (slot_key st (index st + 1)) (parent st)
                  (path st ++ [slot_key st (index st + 1)]) (ancestors st))
         | _ => []
         end.
Proof.
  intros Hc Hq Hpar Hlt Hslot. unfold body.
  assert ((index st + 1 =? keys_length (keys st))%Z = false) as ->
    by (apply Z.eqb_neq; lia).
  simpl. rewrite Hpar. unfold slot_key in *. rewrite Hslot.
  rewrite (container_not_nullish c Hc).
  match goal with |- context [visit_node v false false c ?k0 ?s] =>
    destruct (visit_node_listed W v c false k0 s Hc Hq)
      as (u & cs & E & Hcs & Hl)
  end.
  exists u, cs. split; [|split; [exact Hcs|exact Hl]].
  rewrite E. reflexivity.
Qed.

Lemma slot_leave_listed c fr stk inA ks pth k anc par nxt u cls :
  isNode c = true \/ isArray c = true -> quiet_on v c ->
  exists u' cs,
    body v root
      (mkState (W:=W) (fr :: stk) inA ks (keys_length ks - 1)%Z [] c
         (pth ++ [k]) (anc ++ [par]) nxt u cls) =
      Next (mkState stk (f_inArray fr) (f_keys fr) (f_index fr) (f_edits fr)
              par pth anc nxt u' (cls ++ cs))
    /\ all_undefined cs
    /\ calls_made cs
       = match c with
         | VNode _ _ _ => listed v true (mkCall c k par (pth ++ [k]) anc)
         | _ => []
         end.
Proof.
  intros Hc Hq. unfold body. simpl.
  replace (keys_length ks - 1 + 1)%Z with (keys_length ks) by lia.
  rewrite Z.eqb_refl. simpl.
  rewrite length_app. simpl. rewrite Nat.add_1_r. simpl.
  rewrite !last_last, !removelast_last.
  match goal with |- context [visit_node v true false c k ?s] =>
    destruct (visit_node_listed W v c true k s Hc Hq)
      as (u' & cs & E & Hcs & Hl)
  end.
  exists u', cs. split; [|split; [exact Hcs|exact Hl]]. rewrite E.
  unfold finish, with_path; simpl. now rewrite removelast_last.
Qed.

(** The slots of a container, each walked in depth-first order. *)
Lemma children_listed fuel c (st : state W) :
  isNode c = true \/ isArray c = true ->
  well_formed c = true -> quiet_on v c ->
  (forall x, size x < size c -> well_formed x = true -> quiet_on v x ->
     slot_listed v root fuel x) ->
  exists n u cs,
    advance v root n (descend st c) = Some (at_end (descend st c) u cs)
    /\ all_undefined cs
    /\ calls_made cs = rest_of_level v fuel (descend st c).
Proof.
  intros Hc Hwf Hq IH.
  apply (level_listed W v root fuel (Z.to_nat (keys_length (keys_of c))));
    simpl.
  - discriminate.
  - destruct Hc as [H|H]; destruct c; try discriminate; reflexivity.
  - split; reflexivity.
  - lia.
  - destruct (keys_of c); simpl; lia.
  - f_equal. lia.
  - intros i Hi. unfold slot_key; simpl.
    destruct c as [| | | | |r items|r kind fields];
      try (destruct Hc; discriminate); simpl in *.
    + destruct (i <? 0)%Z eqn:Ei; [apply Z.ltb_lt in Ei; lia|].
      assert (In (nth (Z.to_nat i) items VUndef) items) as Hin
        by (apply nth_In; lia).
      apply IH.
      * pose proof (size_item _ _ Hin). lia.
      * rewrite forallb_forall in Hwf. now apply Hwf.
      * eapply quiet_item; eassumption.
    + destruct (i <? 0)%Z eqn:Ei; [apply Z.ltb_lt in Ei; lia|].
      destruct (nth_error (child_keys kind) (Z.to_nat i)) as [name|] eqn:En.
      2:{ apply nth_error_None in En. lia. }
      apply nth_error_In in En. simpl.
      apply IH.
      * pose proof (size_get_field fields name). lia.
      * eapply well_formed_get_field; [exact Hwf|exact En].
      * eapply quiet_field; eassumption.
Qed.

Lemma depth_first_container fuel c k par pth anc :
  isNode c = true \/ isArray c = true ->
  depth_first v (S fuel) c k par pth anc
  = match c with
    | VNode _ _ _ => listed v false (mkCall c k par pth anc)
    | _ => []
    end
    ++ flat_map
         (fun slot =>
            depth_first v fuel (snd slot) (fst slot) c (pth ++ [fst slot])
              (if truthy par then anc ++ [par] else anc))
         (slots c)
    ++ match c with
       | VNode _ _ _ => listed v true (mkCall c k par pth anc)
       | _ => []
       end.
Proof.
  intros [H|H]; destruct c; try discriminate; simpl; try reflexivity.
  now rewrite app_nil_r.
Qed.

(** Every well-formed subtree on which the visitor is quiet is walked in
    depth-first order. *)
Lemma slot_all_listed : forall fuel c,
  size c < fuel -> well_formed c = true -> quiet_on v c ->
  slot_listed v root fuel c.
Proof.
  induction fuel as [|fuel IH]; intros c Hsz Hwf Hq; [lia|].
  destruct (container_dec c Hwf) as [Hnull|Hc].
  - intros st Hstk Hpar _ _ Hlt Hslot.
    exists 1%nat, (user st), []. split; [|split; [constructor|]].
    + unfold advance, body.
      assert ((index st + 1 =? keys_length (keys st))%Z = false) as ->
        by (apply Z.eqb_neq; lia).
      simpl. rewrite Hpar. unfold slot_key in Hslot. rewrite Hslot, Hnull.
      unfold with_index, moved_on; simpl. rewrite app_nil_r.
      destruct (stack st); [contradiction|reflexivity].
    + destruct c; try discriminate; reflexivity.
  - intros st Hstk Hpar Hlev Hidx Hlt Hslot.
    destruct (slot_enter_listed c st Hc Hq Hpar Hlt Hslot)
      as (u1 & cs1 & Hbody & Hcs1 & Hl1).
    set (k := slot_key st (index st + 1)) in *.
    set (st1 := mkState _ _ _ _ _ _ _ _ _ _ _) in Hbody.
    destruct (children_listed fuel c st1 Hc Hwf Hq)
      as (n2 & u2 & cs2 & Hn2 & Hcs2 & Hl2).
    { intros x Hx. apply IH. lia. }
    destruct (slot_leave_listed c
                (mkFrame (inArray st) (index st + 1) (keys st) (edits st))
                (stack st) (isArray c) (keys_of c) (path st) k (ancestors st)
                (parent st) (next st) u2 ((calls st ++ cs1) ++ cs2) Hc Hq)
      as (u3 & cs3 & Hleave & Hcs3 & Hl3).
    exists (1 + (n2 + 1))%nat, u3, ((cs1 ++ cs2) ++ cs3).
    split; [|split].
    + eapply (advance_trans W v root 1).
      { simpl. rewrite Hbody. simpl. reflexivity. }
      eapply advance_trans; [exact Hn2|].
      subst st1. unfold at_end, descend. simpl. rewrite Hpar.
      rewrite Hleave. simpl.
      unfold moved_on. rewrite !app_assoc.
      destruct (stack st); [contradiction|reflexivity].
    + repeat (apply Forall_app; split); assumption.
    + rewrite !calls_made_app, Hl1, Hl2, Hl3.
      rewrite (depth_first_container fuel c k (parent st) _ _ Hc).
      rewrite Hpar, <- app_assoc. f_equal. f_equal.
      subst st1. unfold rest_of_level, descend; simpl. rewrite Hpar.
      reflexivity.
Qed.

Lemma quiet_run_listed (u : W) :
  well_formed root = true -> quiet_on v root ->
  exists fuel final,
    loop v root fuel (initial root u) = Stopped final false
    /\ calls_made (calls final)
       = depth_first v (S (size root)) root KUndef VUndef [] [].
Proof.
  intros Hwf Hq. destruct (container_dec root Hwf) as [Hnull|Hc].
  - exists 1%nat, (with_index (initial root u) 0). simpl.
    unfold body. simpl. rewrite Hnull. simpl.
    split; [reflexivity|].
    destruct root; try discriminate; reflexivity.
  - destruct (visit_node_listed W v root false KUndef
                (with_index (initial root u) 0) Hc Hq)
      as (u1 & cs1 & Henter & Hcs1 & Hl1).
    set (st1 := mkState _ _ _ _ _ _ _ _ _ _ _) in Henter.
    destruct (children_listed (size root) root st1 Hc Hwf Hq)
      as (n2 & u2 & cs2 & Hn2 & Hcs2 & Hl2).
    { intros x Hx. apply slot_all_listed. exact Hx. }
    destruct (visit_node_listed W v root true KUndef
                (mkState [] (isArray root) (KValues [root]) 0%Z [] VUndef []
                   [] 0 u2 (cs1 ++ cs2)) Hc Hq)
      as (u3 & cs3 & Hleave & Hcs3 & Hl3).
    eexists (1 + (n2 + 1))%nat, _. split.
    + change (1 + (n2 + 1))%nat with (S (n2 + 1)). simpl.
      unfold body at 1. simpl. rewrite (container_not_nullish root Hc).
      rewrite Henter. unfold finish. simpl.
      rewrite (advance_loop W v root n2 _ _ 1 Hn2).
      subst st1. unfold at_end, descend. simpl.
      unfold body. simpl.
      replace (keys_length (keys_of root) - 1 + 1)%Z
        with (keys_length (keys_of root)) by lia.
      rewrite Z.eqb_refl. simpl. rewrite Hleave. unfold finish. simpl.
      reflexivity.
    + simpl calls. rewrite !calls_made_app, Hl1, Hl2, Hl3.
      rewrite (depth_first_container (size root) root KUndef VUndef [] [] Hc).
      simpl. rewrite <- app_assoc. reflexivity.
Qed.

End Listed_walk.

(** X22. When no visit function returns anything, [visit] calls them in
    depth-first order: [enter] on a node, then the walk of each of its
    listed fields in the order of [QueryDocumentKeys] (the elements of an
    array in index order, the array itself without a call), then [leave] on
    the node; each call is given the key, the parent, the path and the
    ancestors of the node in the tree. *)
Theorem quiet_visit_is_depth_first (W : Type) (v : visitor W) (root : value)
  (u : W) :
  well_formed root = true -> quiet_on v root ->
  exists fuel final,
    (forall k, visit (fuel + k) root v u = Returned root final false)
    /\ calls_made (calls final)
       = depth_first v (S (size root)) root KUndef VUndef [] [].
Proof.
  intros Hwf Hq.
  destruct (quiet_run W v root u Hwf Hq)
    as (f1 & final1 & Hrun1 & He & _ & _).
  destruct (quiet_run_listed W v root u Hwf Hq)
    as (f2 & final2 & Hrun2 & Hl).
  pose proof (loop_more_fuel W v root _ _ _ _ f2 Hrun1) as E1.
  pose proof (loop_more_fuel W v root _ _ _ _ f1 Hrun2) as E2.
  rewrite Nat.add_comm in E2. rewrite E1 in E2. inversion E2; subst final2.
  exists f1, final1. split; [|exact Hl].
  intros k. unfold visit. rewrite (loop_more_fuel W v root _ _ _ _ k Hrun1).
  now rewrite He.
Qed.

Lemma quiet_visit_is_depth_first_witness :
  exists fuel final,
    (forall k, visit (fuel + k) Sample.tree Sample.silent tt
               = Returned Sample.tree final false)
    /\ calls_made (calls final)
       = depth_first Sample.silent (S (size Sample.tree)) Sample.tree KUndef
           VUndef [] [].
Proof.
  apply (quiet_visit_is_depth_first unit Sample.silent Sample.tree tt).
  - reflexivity.
  - intros n _ leaving h c u Hh _. destruct leaving; simpl in Hh;
      inversion Hh; reflexivity.
Defined.

(** ** The levels of a run *)

Lemma ordered_from_snoc : forall es lo n i x,
  ordered_from lo n es = true -> (next_key lo es <= i)%Z -> (i < n)%Z ->
  ordered_from lo n (es ++ [(KIdx i, x)]) = true
  /\ next_key lo (es ++ [(KIdx i, x)]) = (if is_null x then i + 1 else i)%Z.
Proof.
  induction es as [|[k y] es IH]; simpl; intros lo n i x Ho Hn Hi.
  - split; [|reflexivity]. rewrite andb_true_r.
    apply andb_true_intro; split; [apply Z.leb_le|apply Z.ltb_lt]; lia.
  - destruct k; try discriminate.
    apply andb_prop in Ho as [Ho1 Ho2]. rewrite Ho1. simpl.
    apply IH; assumption.
Qed.

Lemma level_edits_weaken par es hi hi' :
  level_edits par es hi -> (hi <= hi')%Z -> level_edits par es hi'.
Proof.
  destruct par; simpl; try contradiction; [|tauto].
  intros [Ho Hn] Hle. split; [exact Ho|lia].
Qed.

(** One more edit, made under the key of the slot [i]. *)
Lemma level_edits_snoc par inA ks idx es hi i x :
  level_of par inA ks idx -> level_edits par es hi ->
  (hi <= i)%Z -> (0 <= i < keys_length ks)%Z ->
  level_edits par (es ++ [(if inA then KIdx i else key_at ks i, x)])
    (if is_null x then i + 1 else i)%Z.
Proof.
  intros (HinA & Hks & _) Hed Hhi Hi. subst inA ks.
  destruct par as [| | | | |r items|r kind fields]; simpl in *;
    try contradiction.
  - destruct Hed as [Ho Hn].
    destruct (ordered_from_snoc es 0 (Z.of_nat (List.length items)) i x Ho)
      as [Ho' Hn']; try lia.
    split; [exact Ho'|]. rewrite Hn'. lia.
  - apply Forall_app. split; [exact Hed|]. constructor; [|constructor].
    simpl. destruct (i <? 0)%Z eqn:Ei; [apply Z.ltb_lt in Ei; lia|].
    destruct (nth_error (child_keys kind) (Z.to_nat i)) as [s|] eqn:En.
    + exists s. split; [reflexivity|]. eapply nth_error_In; exact En.
    + apply nth_error_None in En. lia.
Qed.

Lemma level_edits_start node :
  isNode node = true \/ isArray node = true -> level_edits node [] 0.
Proof.
  intros [H|H]; destruct node; try discriminate; simpl.
  - constructor.
  - split; [reflexivity|lia].
Qed.

Lemma level_of_start node :
  level_of node (isArray node) (keys_of node) (-1).
Proof.
  repeat split; try lia. destruct (keys_of node); simpl; lia.
Qed.

Lemma coherent_stack stk pth anc : coherent stk pth anc -> stk <> [].
Proof. intros []; discriminate. Qed.

Lemma level_edits_container par es hi :
  level_edits par es hi -> isNode par = true \/ isArray par = true.
Proof. destruct par; simpl; try contradiction; auto. Qed.

Section Run_invariant.

Variable W : Type.
Variable v : visitor W.
Variable root : value.

(** How an iteration that leaves a level ends, when the loop goes on. *)
Lemma visit_node_leaving_shape isEdited node k (st1 st' : state W) :
  visit_node v true isEdited node k st1 = Next st' ->
  stack st' = stack st1 /\ inArray st' = inArray st1
  /\ keys st' = keys st1 /\ index st' = index st1
  /\ parent st' = parent st1 /\ ancestors st' = ancestors st1
  /\ path st' = removelast (path st1)
  /\ (edits st' = edits st1 \/ exists x, edits st' = edits st1 ++ [(k, x)]).
Proof.
  unfold visit_node, finish.
  destruct (isArray node).
  { destruct isEdited; simpl; intros E; inversion E;
      simpl; repeat split; eauto. }
  destruct (isNode node); simpl; [|discriminate].
  destruct (getVisitFn v (kind_of node) true) as [h|].
  2:{ destruct isEdited; simpl; intros E; inversion E;
        simpl; repeat split; eauto. }
  destruct (h _ _) as [r u]. simpl.
  destruct (is_break r); [discriminate|].
  destruct (is_false r); simpl.
  { destruct (is_undefined r), isEdited; simpl; intros E; inversion E;
      simpl; repeat split; eauto. }
  destruct (is_undefined r) eqn:Hu; simpl.
  - destruct isEdited; intros E; inversion E; simpl; repeat split; eauto.
  - intros E; inversion E; simpl; repeat split; eauto.
Qed.

(** How an iteration that enters a slot ends, when the loop goes on: the
    slot is passed, with one edit at most, or the traversal goes down into a
    node or an array, which is the value of the edit if one was made. *)
Lemma visit_node_entering_shape node k (st1 st' : state W) :
  visit_node v false false node k st1 = Next st' ->
  (stack st' = stack st1 /\ inArray st' = inArray st1
   /\ keys st' = keys st1 /\ index st' = index st1
   /\ parent st' = parent st1 /\ ancestors st' = ancestors st1
   /\ path st' = removelast (path st1)
   /\ (edits st' = edits st1 \/ exists x, edits st' = edits st1 ++ [(k, x)]))
  \/ (exists node' es,
        (isNode node' = true \/ isArray node' = true)
        /\ (es = edits st1
            \/ es = edits st1 ++ [(k, node')] /\ is_null node' = false)
        /\ stack st'
           = mkFrame (inArray st1) (index st1) (keys st1) es :: stack st1
        /\ inArray st' = isArray node' /\ keys st' = keys_of node'
        /\ index st' = (-1)%Z /\ edits st' = [] /\ parent st' = node'
        /\ path st' = path st1
        /\ ancestors st'
           = (if truthy (parent st1) then ancestors st1 ++ [parent st1]
              else ancestors st1)).
Proof.
  unfold visit_node, finish.
  destruct (isArray node) eqn:Ha.
  { simpl. intros E; inversion E. right. exists node, (edits st1).
    simpl. repeat split; auto. }
  destruct (isNode node) eqn:Hn; simpl; [|discriminate].
  destruct (getVisitFn v (kind_of node) false) as [h|].
  2:{ intros E; inversion E. right. exists node, (edits st1).
      simpl. repeat split; auto. }
  destruct (h _ _) as [r u]. simpl.
  destruct (is_break r); [discriminate|].
  destruct (is_false r); simpl.
  { intros E; inversion E; simpl. left. repeat split; auto. }
  destruct (is_undefined r) eqn:Hu; simpl.
  - intros E; inversion E. right.
    exists node, (edits st1). simpl. repeat split; auto.
  - destruct (isNode r) eqn:Hr.
    + intros E; inversion E. right.
      exists r, (edits st1 ++ [(k, r)]). simpl.
      repeat split; auto. right. split; [reflexivity|].
      destruct r; try discriminate; reflexivity.
    + intros E; inversion E; simpl. left. repeat split; eauto.
Qed.

(** The invariant is kept by every iteration after which the loop goes
    on. *)
Lemma body_keeps_invariant (st st' : state W) :
  run_invariant st -> body v root st = Next st' -> stack st' <> [] ->
  run_invariant st'.
Proof.
  intros (Hlev & Hed & Hco) Hb Hstk. unfold body in Hb.
  pose proof (level_edits_container _ _ _ Hed) as Hc.
  assert (truthy (parent st) = true) as Hpar
    by (destruct Hc as [H|H]; destruct (parent st); try discriminate;
        reflexivity).
  destruct (index st + 1 =? keys_length (keys st))%Z eqn:Elv; simpl in Hb.
  - inversion Hco as [fr E1 E2 E3|fr stk pth anc gp Hco' Hlev' Hidx Hed' E1 E2 E3].
    + rewrite <- E1 in Hb.
      apply visit_node_leaving_shape in Hb. simpl in Hb.
      destruct Hb as (Hs & _). now rewrite Hs in Hstk.
    + rewrite <- E1, <- E2, <- E3 in Hb.
      apply visit_node_leaving_shape in Hb. simpl in Hb.
      destruct Hb as (Hs & Hi & Hk & Hx & Hp & Ha & Hpth & He).
      rewrite last_last, removelast_last in *.
      rewrite length_app, Nat.add_1_r in He. simpl in He.
      unfold run_invariant.
      rewrite Hs, Hi, Hk, Hx, Hp, Ha, Hpth.
      split; [exact Hlev'|]. split; [|exact Hco'].
      destruct He as [->|[x ->]].
      * eapply level_edits_weaken; [exact Hed'|lia].
      * eapply level_edits_weaken.
        { apply (level_edits_snoc gp (f_inArray fr) (f_keys fr) (f_index fr)
                   (f_edits fr) (f_index fr) (f_index fr) x Hlev' Hed');
            destruct Hlev' as (_ & _ & ?); lia. }
        destruct (is_null x); lia.
  - apply Z.eqb_neq in Elv. rewrite Hpar in Hb.
    destruct Hlev as (HinA & Hks & Hrange).
    assert (0 <= index st + 1 < keys_length (keys st))%Z as Hi1 by lia.
    set (k := if inArray st then KIdx (index st + 1)
              else key_at (keys st) (index st + 1)) in *.
    destruct (is_nullish (get_prop (parent st) k)).
    { inversion Hb; subst st'; simpl. unfold run_invariant; simpl.
      split; [repeat split; try assumption; lia|].
      split; [|exact Hco]. eapply level_edits_weaken; [exact Hed|lia]. }
    apply visit_node_entering_shape in Hb. simpl in Hb.
    destruct Hb as [(Hs & Hi & Hk & Hx & Hp & Ha & Hpth & He)
                   |(node' & es & Hn' & Hes & Hs & Hi & Hk & Hx & He & Hp
                     & Hpth & Ha)].
    + rewrite removelast_last in Hpth. unfold run_invariant.
      rewrite Hs, Hi, Hk, Hx, Hp, Ha, Hpth.
      split; [repeat split; try assumption; lia|].
      split; [|exact Hco].
      destruct He as [->|[x ->]].
      * eapply level_edits_weaken; [exact Hed|lia].
      * eapply level_edits_weaken.
        { apply (level_edits_snoc (parent st) (inArray st) (keys st)
                   (index st) (edits st) (index st + 1) (index st + 1) x);
            [repeat split; try assumption; lia|exact Hed|lia|lia]. }
        destruct (is_null x); lia.
    + rewrite Hpar in Ha. unfold run_invariant.
      rewrite Hs, Hi, Hk, Hx, Hp, Ha, Hpth, He.
      split; [apply level_of_start|].
      split; [now apply level_edits_start|].
      set (fr := mkFrame (inArray st) (index st + 1) (keys st) es).
      change k with (frame_key fr).
      apply coherent_push; simpl; try assumption.
      * repeat split; try assumption; lia.
      * lia.
      * destruct Hes as [->|[-> Hnull]].
        { eapply level_edits_weaken; [exact Hed|lia]. }
        pose proof (level_edits_snoc (parent st) (inArray st) (keys st)
                      (index st) (edits st) (index st + 1) (index st + 1)
                      node') as Hsn.
        rewrite Hnull in Hsn. apply Hsn;
          [repeat split; try assumption; lia|exact Hed|lia|lia].
Qed.

(** The first iteration establishes it. *)
Lemma first_iteration_invariant (u : W) (st' : state W) :
  body v root (initial root u) = Next st' -> stack st' <> [] ->
  run_invariant st'.
Proof.
  unfold body. simpl. intros Hb Hstk.
  destruct (is_nullish root).
  { inversion Hb; subst st'. now simpl in Hstk. }
  apply visit_node_entering_shape in Hb. simpl in Hb.
  destruct Hb as [(Hs & _)
                 |(node' & es & Hn' & Hes & Hs & Hi & Hk & Hx & He & Hp
                   & Hpth & Ha)].
  - now rewrite Hs in Hstk.
  - unfold run_invariant. rewrite Hs, Hi, Hk, Hx, Hp, Ha, Hpth, He.
    split; [apply level_of_start|].
    split; [now apply level_edits_start|]. constructor.
Qed.

Lemma advance_keeps_invariant : forall n (st st' : state W),
  run_invariant st -> advance v root n st = Some st' -> run_invariant st'.
Proof.
  induction n as [|n IH]; simpl; intros st st' Hinv H.
  - now inversion H; subst.
  - destruct (body v root st) as [s1| |] eqn:Hb; try discriminate.
    destruct (stack s1) eqn:Es; try discriminate.
    apply (IH s1); [|exact H].
    apply (body_keeps_invariant st s1 Hinv Hb). rewrite Es. discriminate.
Qed.

(** Every state a run reaches after its first iteration satisfies it. *)
Lemma reached_invariant (u : W) n (st : state W) :
  advance v root (S n) (initial root u) = Some st -> run_invariant st.
Proof.
  simpl. destruct (body v root (initial root u)) as [s1| |] eqn:Hb;
    try discriminate.
  destruct (stack s1) eqn:Es; try discriminate.
  apply advance_keeps_invariant.
  apply (first_iteration_invariant u s1 Hb). rewrite Es. discriminate.
Qed.

End Run_invariant.

Lemma last_edit_unlisted name listed : forall es found,
  Forall (fun e : edit => exists s, fst e = KName s /\ In s listed) es ->
  ~ In name listed -> last_edit name es found = found.
Proof.
  induction es as [|[k x] es IH]; intros found Hall Hname; [reflexivity|].
  inversion Hall as [|e l (s & Hk & Hs) Hrest]; subst. simpl in Hk. subst k.
  simpl. rewrite (IH _ Hrest Hname).
  destruct (String.eqb s name) eqn:E; [|reflexivity].
  apply String.eqb_eq in E. subst s. contradiction.
Qed.

(** X23. In every run of [visit], with any visitor, the edits
    pending at a level that walks an array are in order: index keys inside
    the array, never going back, and none for a slot that was deleted.  So
    the copy the traversal makes of the array on leaving it is the array
    with every edit at the place its key named in the original. *)
Theorem array_edits_of_a_run_are_in_order (W : Type) (v : visitor W)
  (root : value) (u : W) (n : nat) (st : state W) (r : ref)
  (items : list value) :
  advance v root n (initial root u) = Some st ->
  parent st = VArr r items ->
  inArray st = true
  /\ edits_in_order items (edits st) = true
  /\ clone_with_edits (inArray st) (parent st) (edits st) (next st)
     = VArr (Fresh (next st)) (edits_at_original_positions items (edits st)).
Proof.
  intros Hrun Hpar. destruct n as [|n].
  { inversion Hrun; subst st. discriminate. }
  destruct (reached_invariant W v root u n st Hrun)
    as ((HinA & _ & _) & Hed & _).
  rewrite Hpar in *. simpl in *. destruct Hed as [Ho _].
  split; [exact HinA|]. split; [exact Ho|].
  rewrite HinA. f_equal. now apply apply_array_edits_refines.
Qed.

Lemma array_edits_of_a_run_are_in_order_witness :
  inArray SampleLevels.x_deleted = true
  /\ edits_in_order [Sample.field 9 (Sample.name 10 "x") VUndef]
       (edits SampleLevels.x_deleted) = true
  /\ clone_with_edits (inArray SampleLevels.x_deleted)
       (parent SampleLevels.x_deleted) (edits SampleLevels.x_deleted)
       (next SampleLevels.x_deleted)
     = VArr (Fresh (next SampleLevels.x_deleted))
         (edits_at_original_positions
            [Sample.field 9 (Sample.name 10 "x") VUndef]
            (edits SampleLevels.x_deleted)).
Proof.
  apply (array_edits_of_a_run_are_in_order unit
           (Sample.delete_x_then (VBool false)) Sample.tree tt 26
           SampleLevels.x_deleted (Host 8)
           [Sample.field 9 (Sample.name 10 "x") VUndef]).
  - vm_compute. reflexivity.
  - reflexivity.
Defined.

(** X24. In every run of [visit], with any visitor, each edit
    pending at a level that walks a node is made under a field name that
    [QueryDocumentKeys] lists for the kind of the node.  So the copy the
    traversal makes of the node on leaving it holds, under every other
    name, what the node held. *)
Theorem node_edits_of_a_run_name_listed_fields (W : Type) (v : visitor W)
  (root : value) (u : W) (n : nat) (st : state W) (r : ref) (kind : string)
  (fields : list (string * value)) :
  advance v root n (initial root u) = Some st ->
  parent st = VNode r kind fields ->
  inArray st = false
  /\ Forall (fun e => exists name,
               fst e = KName name /\ In name (child_keys kind)) (edits st)
  /\ exists fields',
       clone_with_edits (inArray st) (parent st) (edits st) (next st)
       = VNode (Fresh (next st)) kind fields'
       /\ forall name, ~ In name (child_keys kind) ->
            get_field fields' name = get_field fields name.
Proof.
  intros Hrun Hpar. destruct n as [|n].
  { inversion Hrun; subst st. discriminate. }
  destruct (reached_invariant W v root u n st Hrun)
    as ((HinA & _ & _) & Hed & _).
  rewrite Hpar in *. simpl in *.
  split; [exact HinA|]. split; [exact Hed|].
  exists (apply_object_edits fields (edits st)). rewrite HinA.
  split; [reflexivity|]. intros name Hname.
  rewrite (apply_object_edits_get name (edits st) fields None I).
  now rewrite (last_edit_unlisted name (child_keys kind) (edits st) None Hed).
Qed.

Lemma node_edits_of_a_run_name_listed_fields_witness :
  inArray SampleLevels.selections_copied = false
  /\ Forall (fun e => exists name,
               fst e = KName name /\ In name (child_keys "SelectionSet"))
       (edits SampleLevels.selections_copied)
  /\ exists fields',
       clone_with_edits (inArray SampleLevels.selections_copied)
         (parent SampleLevels.selections_copied)
         (edits SampleLevels.selections_copied)
         (next SampleLevels.selections_copied)
       = VNode (Fresh (next SampleLevels.selections_copied)) "SelectionSet"
           fields'
       /\ forall name, ~ In name (child_keys "SelectionSet") ->
            get_field fields' name
            = get_field
                [("selections",
                  VArr (Host 8) [Sample.field 9 (Sample.name 10 "x") VUndef])]
                name.
Proof.
  apply (node_edits_of_a_run_name_listed_fields unit
           (Sample.delete_x_then (VBool false)) Sample.tree tt 27
           SampleLevels.selections_copied (Host 7)).
  - vm_compute. reflexivity.
  - reflexivity.
Defined.

Lemma coherent_lengths stk pth anc :
  coherent stk pth anc -> List.length pth = List.length anc.
Proof.
  induction 1 as [|fr stk pth anc gp _ IH _ _ _]; [reflexivity|].
  rewrite !length_app, IH. reflexivity.
Qed.

Lemma key_in_level_slot par inA ks idx i :
  level_of par inA ks idx ->
  isNode par = true \/ isArray par = true ->
  (0 <= i < keys_length ks)%Z ->
  key_in_level par (if inA then KIdx i else key_at ks i).
Proof.
  intros (HinA & Hks & _) Hc Hi. subst inA ks.
  destruct par as [| | | | |r items|r kind fields];
    try (destruct Hc; discriminate); simpl in *.
  - exists i. split; [reflexivity|lia].
  - destruct (i <? 0)%Z eqn:Ei; [apply Z.ltb_lt in Ei; lia|].
    destruct (nth_error (child_keys kind) (Z.to_nat i)) as [s|] eqn:En.
    + exists s. split; [reflexivity|]. eapply nth_error_In; exact En.
    + apply nth_error_None in En. lia.
Qed.

Section Placed_calls.

Variable W : Type.
Variable v : visitor W.
Variable root : value.

(** The one call an iteration may make, with what it is told. *)
Lemma visit_node_event leaving edited n k (st : state W) :
  match visit_node v leaving edited n k st with
  | Next st' | Broke st' =>
      calls st' = calls st
      \/ exists r,
           calls st'
           = calls st
             ++ [mkEvent leaving
                   (mkCall n k (parent st) (path st) (ancestors st)) r]
  | Thrown _ => True
  end.
Proof.
  unfold visit_node, finish.
  destruct (isArray n); [destruct edited, leaving; simpl; auto|].
  destruct (isNode n); simpl; [|exact I].
  destruct (getVisitFn v (kind_of n) leaving) as [h|];
    [|destruct edited, leaving; simpl; auto].
  destruct (h _ _) as [r u]. simpl.
  destruct (is_break r), (is_false r), (is_undefined r), leaving, edited,
    (isNode r); simpl; right; exists r; reflexivity.
Qed.

Lemma outcome_placed (st : state W) (e : event) (o : outcome W) :
  Forall placed_call (calls st) ->
  placed_call e ->
  match o with
  | Next st' | Broke st' =>
      calls st' = calls st
      \/ exists r,
           calls st'
           = calls st ++ [mkEvent (ev_leaving e) (ev_call e) r]
  | Thrown _ => True
  end ->
  match o with
  | Next st' | Broke st' => Forall placed_call (calls st')
  | Thrown _ => True
  end.
Proof.
  intros Hall He.
  destruct o as [s|s|m]; auto; intros [->|[r ->]]; try exact Hall;
    (apply Forall_app; split; [exact Hall|]; constructor; [|constructor];
     destruct e; exact He).
Qed.

Lemma body_placed (u : W) (st : state W) :
  st = initial root u \/ run_invariant st ->
  Forall placed_call (calls st) ->
  match body v root st with
  | Next st' | Broke st' => Forall placed_call (calls st')
  | Thrown _ => True
  end.
Proof.
  intros [->|(Hlev & Hed & Hco)] Hall.
  - unfold body. simpl. destruct (is_nullish root); [exact Hall|].
    match goal with |- context [visit_node v ?l ?e ?n ?k ?s] =>
      pose proof (visit_node_event l e n k s) as H;
      apply (outcome_placed s
               (mkEvent l (mkCall n k (parent s) (path s) (ancestors s))
                  VUndef));
        [exact Hall| |exact H]
    end.
    unfold placed_call. simpl. repeat split.
  - pose proof (level_edits_container _ _ _ Hed) as Hc.
    assert (truthy (parent st) = true) as Hpar
      by (destruct Hc as [H|H]; destruct (parent st); try discriminate;
          reflexivity).
    pose proof (coherent_lengths _ _ _ Hco) as Hlen.
    unfold body.
    destruct (index st + 1 =? keys_length (keys st))%Z eqn:Elv; simpl.
    + inversion Hco
        as [fr E1 E2 E3|fr stk pth anc gp Hco' Hlev' Hidx Hed' E1 E2 E3].
      * simpl.
        match goal with |- context [visit_node v ?l ?e ?n ?k ?s] =>
          pose proof (visit_node_event l e n k s) as H;
          apply (outcome_placed s
                   (mkEvent l (mkCall n k (parent s) (path s) (ancestors s))
                      VUndef));
            [exact Hall| |exact H]
        end.
        unfold placed_call. simpl. repeat split.
      * match goal with |- context [visit_node v ?l ?e ?n ?k ?s] =>
          pose proof (visit_node_event l e n k s) as H;
          apply (outcome_placed s
                   (mkEvent l (mkCall n k (parent s) (path s) (ancestors s))
                      VUndef));
            [exact Hall| |exact H]
        end.
        pose proof (level_edits_container _ _ _ Hed') as Hc'.
        unfold placed_call. simpl.
        rewrite !last_last, removelast_last.
        rewrite !length_app, !Nat.add_1_r. simpl.
        assert (truthy gp = true) as ->
          by (destruct Hc' as [H'|H']; destruct gp; try discriminate;
              reflexivity).
        split; [|split; [reflexivity|split; [|discriminate]]].
        -- apply (key_in_level_slot gp (f_inArray fr) (f_keys fr)
                    (f_index fr) (f_index fr) Hlev' Hc').
           destruct Hlev' as (_ & _ & ?). lia.
        -- f_equal. now apply coherent_lengths in Hco'.
    + apply Z.eqb_neq in Elv. rewrite Hpar.
      destruct (is_nullish _); [exact Hall|].
      match goal with |- context [visit_node v ?l ?e ?n ?k ?s] =>
        pose proof (visit_node_event l e n k s) as H;
        apply (outcome_placed s
                 (mkEvent l (mkCall n k (parent s) (path s) (ancestors s))
                    VUndef));
          [exact Hall| |exact H]
      end.
      unfold placed_call. simpl. rewrite Hpar.
      rewrite last_last, length_app, Nat.add_1_r.
      split; [|split; [reflexivity|split; [now f_equal|reflexivity]]].
      apply (key_in_level_slot (parent st) (inArray st) (keys st) (index st)
               (index st + 1) Hlev Hc).
      destruct Hlev as (_ & _ & ?). lia.
Qed.

Lemma loop_placed (u : W) : forall fuel (st final : state W) b,
  st = initial root u \/ run_invariant st ->
  Forall placed_call (calls st) ->
  loop v root fuel st = Stopped final b ->
  Forall placed_call (calls final).
Proof.
  induction fuel as [|fuel IH]; simpl; intros st final b Hst Hall Hrun;
    [discriminate|].
  pose proof (body_placed u st Hst Hall) as Hb.
  destruct (body v root st) as [s1|s1|m] eqn:Ebody; try discriminate.
  - destruct (stack s1) eqn:Es.
    + inversion Hrun; subst. exact Hb.
    + apply (IH s1 final b); [right|exact Hb|exact Hrun].
      assert (stack s1 <> []) as Hne by (rewrite Es; discriminate).
      destruct Hst as [->|Hinv].
      * now apply (first_iteration_invariant W v root u).
      * now apply (body_keeps_invariant W v root st).
  - inversion Hrun; subst. exact Hb.
Qed.

End Placed_calls.

(** X25. In every run of [visit], with any visitor, what a visit
    function is told about the place of its node fits together.  On the
    root: no key, no parent, an empty path, no ancestors.  Below the root:
    the key is an index of the parent array or a field name that the table
    lists for the kind of the parent node, it is the last step of the path,
    the path is one step longer than the list of ancestors, and on entering
    the node is what the parent holds under the key. *)
Theorem visit_tells_each_call_its_place (W : Type) (v : visitor W)
  (root : value) (u : W) (fuel : nat) (x : value) (final : state W)
  (b : bool) :
  visit fuel root v u = Returned x final b ->
  Forall placed_call (calls final).
Proof.
  unfold visit. intros H.
  destruct (loop v root fuel (initial root u)) as [st b'| |] eqn:Hrun;
    try discriminate.
  inversion H; subst.
  apply (loop_placed W v root u fuel (initial root u) final b);
    [now left|constructor|exact Hrun].
Qed.

Lemma visit_tells_each_call_its_place_witness :
  Forall placed_call (calls SampleLevels.ended).
Proof.
  apply (visit_tells_each_call_its_place unit
           (Sample.delete_x_then (VBool false)) Sample.tree tt 60
           (match visit 60 Sample.tree (Sample.delete_x_then (VBool false)) tt
            with Returned x _ _ => x | _ => VUndef end)
           SampleLevels.ended false).
  vm_compute. reflexivity.
Defined.

Section Throwing.

Variable W : Type.
Variable v : visitor W.
Variable root : value.

Lemma visit_node_thrown leaving edited n k (st : state W) msg :
  visit_node v leaving edited n k st = Thrown msg ->
  msg = "Invalid AST Node" /\ isArray n = false /\ isNode n = false.
Proof.
  unfold visit_node, finish.
  destruct (isArray n); [destruct edited, leaving; discriminate|].
  destruct (isNode n); simpl;
    [|intros E; inversion E; repeat split].
  destruct (getVisitFn v (kind_of n) leaving) as [h|];
    [|destruct edited, leaving; discriminate].
  destruct (h _ _) as [r u]. simpl.
  destruct (is_break r), (is_false r), (is_undefined r), leaving, edited,
    (isNode r); simpl; discriminate.
Qed.

Lemma clone_of_container inA par es nx :
  isNode par = true \/ isArray par = true ->
  isNode (clone_with_edits inA par es nx) = true
  \/ isArray (clone_with_edits inA par es nx) = true.
Proof.
  intros [H|H]; destruct par; try discriminate; simpl; destruct inA; auto.
Qed.

(** An iteration throws only at a slot it cannot walk. *)
Lemma body_thrown (u : W) (st : state W) msg :
  st = initial root u \/ run_invariant st ->
  body v root st = Thrown msg ->
  msg = "Invalid AST Node" /\ invalid_slot root st.
Proof.
  intros Hst Hb.
  assert ((index st + 1 =? keys_length (keys st))%Z = false
          -> msg = "Invalid AST Node" /\ invalid_slot root st) as Henter.
  { intros Elv. unfold body in Hb. rewrite Elv in Hb. simpl in Hb.
    assert (index st + 1 < keys_length (keys st))%Z as Hlt.
    { apply Z.eqb_neq in Elv.
      destruct Hst as [->|((_ & _ & ?) & _)]; simpl in *; lia. }
    unfold invalid_slot, slot_key.
    destruct (truthy (parent st));
      (destruct (is_nullish _) eqn:Hnull; [discriminate|];
       apply visit_node_thrown in Hb; destruct Hb as (-> & Ha & Hn);
       repeat split; assumption). }
  destruct (index st + 1 =? keys_length (keys st))%Z eqn:Elv;
    [|now apply Henter].
  exfalso. destruct Hst as [->|(Hlev & Hed & Hco)]; [discriminate|].
  unfold body in Hb. rewrite Elv in Hb. simpl in Hb.
  pose proof (coherent_stack _ _ _ Hco) as Hne.
  destruct (stack st) as [|fr prev]; [contradiction|].
  apply visit_node_thrown in Hb. destruct Hb as (_ & Ha & Hn).
  pose proof (level_edits_container _ _ _ Hed) as Hc.
  destruct (negb (Nat.eqb (List.length (edits st)) 0)).
  - destruct (clone_of_container (inArray st) (parent st) (edits st)
                (next st) Hc); congruence.
  - destruct Hc; congruence.
Qed.

Lemma loop_failed (u : W) msg : forall fuel (st : state W),
  st = initial root u \/ run_invariant st ->
  loop v root fuel st = Failed msg ->
  msg = "Invalid AST Node"
  /\ exists n st', advance v root n st = Some st' /\ invalid_slot root st'.
Proof.
  induction fuel as [|fuel IH]; simpl; intros st Hst Hrun; [discriminate|].
  destruct (body v root st) as [s1|s1|m] eqn:Hb; try discriminate.
  - destruct (stack s1) eqn:Es; [discriminate|].
    assert (stack s1 <> []) as Hne by (rewrite Es; discriminate).
    destruct (IH s1) as (Hmsg & n & st' & Hn & Hbad); [|exact Hrun|].
    { right. destruct Hst as [->|Hinv].
      - now apply (first_iteration_invariant W v root u).
      - now apply (body_keeps_invariant W v root st). }
    split; [exact Hmsg|]. exists (S n), st'. simpl. rewrite Hb, Es.
    split; assumption.
  - inversion Hrun; subst m.
    destruct (body_thrown u st msg Hst Hb) as [Hmsg Hbad].
    split; [exact Hmsg|]. exists 0%nat, st. split; [reflexivity|exact Hbad].
Qed.

Lemma invalid_slot_throws (st : state W) :
  invalid_slot root st -> body v root st = Thrown "Invalid AST Node".
Proof.
  intros (Hlt & Hbad). unfold body.
  assert ((index st + 1 =? keys_length (keys st))%Z = false) as ->
    by (apply Z.eqb_neq; lia).
  simpl. unfold slot_key in Hbad.
  destruct (truthy (parent st)); simpl in Hbad;
    destruct Hbad as (-> & Ha & Hn);
    unfold visit_node; rewrite Ha, Hn; reflexivity.
Qed.

End Throwing.

(** X26. [visit] throws exactly when the traversal comes to a slot that
    holds something other than [null], [undefined], an array or a node,
    and then with the error for an invalid node: the loop never fails on
    its own variables, whatever the visitor returns. *)
Theorem visit_throws_exactly_at_invalid_slots (W : Type) (v : visitor W)
  (root : value) (u : W) (msg : string) :
  (exists fuel, visit fuel root v u = Threw msg)
  <-> msg = "Invalid AST Node"
      /\ exists n st,
           advance v root n (initial root u) = Some st
           /\ invalid_slot root st.
Proof.
  split.
  - intros [fuel H]. unfold visit in H.
    destruct (loop v root fuel (initial root u)) as [| m |] eqn:Hrun;
      try discriminate.
    inversion H; subst m.
    apply (loop_failed W v root u msg fuel (initial root u));
      [now left|exact Hrun].
  - intros (-> & n & st & Hn & Hbad). exists (n + 1)%nat. unfold visit.
    rewrite (advance_loop W v root n _ _ 1 Hn). simpl.
    now rewrite (invalid_slot_throws W v root st Hbad).
Qed.

Lemma visit_throws_exactly_at_invalid_slots_witness :
  exists fuel,
    visit fuel (Sample.field 1 (VStr "a") VUndef) Sample.silent tt
    = Threw "Invalid AST Node".
Proof.
  apply (proj2 (visit_throws_exactly_at_invalid_slots unit Sample.silent
                  (Sample.field 1 (VStr "a") VUndef) tt "Invalid AST Node")).
  split; [reflexivity|].
  eexists 2%nat, _. split; [vm_compute; reflexivity|].
  vm_compute. repeat split.
Defined.

(** * The claims about whole runs *)

(** C3. In every run of [visit], with any visitor, when an array is left
    with edits pending, the edits are in the order the visit functions
    produced them, with keys that are indices of the array as it was
    before any deletion.  The copy the iteration makes of the array, and
    records as the edit for the level above, is the array with each edit
    applied at the place its key named in the original: every earlier
    deletion moves the target of a later edit one place down.  In
    particular, after the deletion of the element at index [i] and an edit
    of the one at index [i + 1], the copy holds the new value at the place
    of the element that followed the deleted one. *)
Theorem array_edits_land_on_original_slots (W : Type) (v : visitor W)
  (root : value) (u : W) (n : nat) (st : state W) (r : ref)
  (items : list value) :
  advance v root n (initial root u) = Some st ->
  parent st = VArr r items ->
  (index st + 1 = keys_length (keys st))%Z ->
  edits st <> [] ->
  let copy :=
    VArr (Fresh (next st))
      (edits_at_original_positions items (edits st)) in
  let k :=
    if Nat.eqb (List.length (ancestors st)) 0 then KUndef
    else last (path st) KUndef in
  edits_in_order items (edits st) = true
  /\ (exists fr prev,
        stack st = fr :: prev
        /\ body v root st
           = Next (mkState prev (f_inArray fr) (f_keys fr) (f_index fr)
                     (f_edits fr ++ [(k, copy)])
                     (last (ancestors st) VUndef)
                     (removelast (path st))
                     (removelast (ancestors st))
                     (S (next st)) (user st) (calls st)))
  /\ (forall i x,
        edits st = [(KIdx (Z.of_nat i), VNull); (KIdx (Z.of_nat i + 1), x)] ->
        is_null x = false ->
        edits_at_original_positions items (edits st)
        = firstn i items ++ x :: skipn (i + 2) items).
Proof.
  intros Hrun Hpar Hleave Hedits copy k. destruct n as [|n].
  { inversion Hrun; subst st. discriminate. }
  destruct (reached_invariant W v root u n st Hrun)
    as ((HinA & _ & _) & Hed & Hco).
  pose proof (coherent_stack _ _ _ Hco) as Hstk.
  rewrite Hpar in HinA, Hed. simpl in HinA, Hed. destruct Hed as [Ho _].
  split; [exact Ho|]. split.
  - destruct (stack st) as [|fr prev] eqn:Es; [contradiction|].
    exists fr, prev. split; [reflexivity|].
    unfold body. rewrite Es.
    apply Z.eqb_eq in Hleave. rewrite Hleave. simpl.
    assert (Nat.eqb (List.length (edits st)) 0 = false) as ->
      by (destruct (edits st); [contradiction|reflexivity]).
    simpl. rewrite Hpar, HinA. simpl.
    rewrite (apply_array_edits_refines items (edits st) Ho).
    unfold visit_node, finish. simpl. reflexivity.
  - intros i x Hes Hx.
    rewrite <- (apply_array_edits_refines items (edits st) Ho).
    rewrite Hes. apply delete_then_edit; [|exact Hx].
    unfold edits_in_order in Ho. rewrite Hes in Ho. simpl in Ho.
    repeat (apply andb_true_iff in Ho; destruct Ho as [Ho ?]).
    repeat match goal with
           | E : (_ <? _)%Z = true |- _ => apply Z.ltb_lt in E
           end.
    lia.
Qed.

Lemma array_edits_land_on_original_slots_witness :
  let st := SampleEdits.leaving_selections in
  let a := Sample.field 3 (Sample.name 4 "a") VUndef in
  let b :=
    Sample.field 5 (Sample.name 6 "b")
      (Sample.selectionSet 7 8 [Sample.field 9 (Sample.name 10 "x") VUndef]) in
  let c := Sample.field 11 (Sample.name 12 "c") VUndef in
  let copy :=
    VArr (Fresh (next st))
      (edits_at_original_positions [a; b; c] (edits st)) in
  let k :=
    if Nat.eqb (List.length (ancestors st)) 0 then KUndef
    else last (path st) KUndef in
  edits_in_order [a; b; c] (edits st) = true
  /\ (exists fr prev,
        stack st = fr :: prev
        /\ body SampleEdits.delete_a_replace_b Sample.tree st
           = Next (mkState prev (f_inArray fr) (f_keys fr) (f_index fr)
                     (f_edits fr ++ [(k, copy)])
                     (last (ancestors st) VUndef)
                     (removelast (path st))
                     (removelast (ancestors st))
                     (S (next st)) (user st) (calls st)))
  /\ (forall i x,
        edits st = [(KIdx (Z.of_nat i), VNull); (KIdx (Z.of_nat i + 1), x)] ->
        is_null x = false ->
        edits_at_original_positions [a; b; c] (edits st)
        = firstn i [a; b; c] ++ x :: skipn (i + 2) [a; b; c]).
Proof.
  intros st a b c.
  apply (array_edits_land_on_original_slots unit
           SampleEdits.delete_a_replace_b Sample.tree tt 19 st (Host 2)
           [a; b; c]).
  - vm_compute. reflexivity.
  - reflexivity.
  - reflexivity.
  - discriminate.
Defined.

(** ** The state of the visitor along a run *)



Section Replay.

Variable W : Type.
Variable v : visitor W.
Variable root : value.





End Replay.

(** ** Visitors in parallel, along a run *)



Section Parallel_run.

Variable W : Type.
Variable visitors : list (visitor W).





End Parallel_run.



(** * What is kept to the end of a run *)

(** ** Keys and edits *)

Lemma key_eqb_eq a b : key_eqb a b = true <-> a = b.
Proof.
  destruct a, b; simpl; split; intros H; try discriminate; try reflexivity.
  - apply Z.eqb_eq in H. now subst.
  - inversion H. apply Z.eqb_refl.
  - apply String.eqb_eq in H. now subst.
  - inversion H. apply String.eqb_refl.
Qed.

Lemma key_eqb_refl a : key_eqb a a = true.
Proof. now apply key_eqb_eq. Qed.

Lemma key_eqb_neq a b : a <> b -> key_eqb a b = false.
Proof.
  intros H. apply not_true_is_false. intros E. now apply key_eqb_eq in E.
Qed.

Lemma last_edit_at_found k : forall es found,
  last_edit_at k es found
  = match last_edit_at k es None with
    | Some x => Some x
    | None => found
    end.
Proof.
  induction es as [|[k' x] es IH]; intros found; simpl; [reflexivity|].
  destruct (key_eqb k' k); [|apply IH].
  rewrite (IH (Some x)). now destruct (last_edit_at k es None).
Qed.

Lemma last_edit_at_app k es es' found :
  last_edit_at k (es ++ es') found
  = last_edit_at k es' (last_edit_at k es found).
Proof.
  revert found. induction es as [|[k' x] es IH]; intros found; simpl;
    [reflexivity|apply IH].
Qed.

Lemma slot_value_snoc_other par es k k' x :
  k' <> k -> slot_value par (es ++ [(k', x)]) k = slot_value par es k.
Proof.
  intros H. unfold slot_value. rewrite last_edit_at_app. simpl.
  now rewrite (key_eqb_neq k' k H).
Qed.

Lemma slot_value_snoc_same par es k x :
  slot_value par (es ++ [(k, x)]) k = x.
Proof.
  unfold slot_value. rewrite last_edit_at_app. simpl.
  now rewrite key_eqb_refl.
Qed.

Lemma slot_value_no_edit par es k :
  Forall (fun e : edit => fst e <> k) es -> slot_value par es k = get_prop par k.
Proof.
  intros H. unfold slot_value.
  assert (last_edit_at k es None = None) as ->; [|reflexivity].
  induction H as [|[k' x] es Hk _ IH]; simpl; [reflexivity|].
  simpl in Hk. now rewrite (key_eqb_neq k' k Hk).
Qed.

Lemma last_edit_at_name name : forall es found,
  last_edit_at (KName name) es found = last_edit name es found.
Proof.
  induction es as [|[[|i|s] x] es IH]; intros found; simpl;
    try reflexivity; apply IH.
Qed.

Lemma child_keys_distinct kind : NoDup (child_keys kind).
Proof.
  unfold child_keys, QueryDocumentKeys.
  repeat (destruct (String.eqb kind _);
          [repeat constructor; simpl; intuition discriminate|]).
  constructor.
Qed.

(** The slots of a level have different keys. *)
Lemma slot_key_of_injective par i j :
  isNode par = true \/ isArray par = true ->
  (0 <= i < keys_length (keys_of par))%Z ->
  (0 <= j < keys_length (keys_of par))%Z ->
  slot_key_of par i = slot_key_of par j -> i = j.
Proof.
  intros Hc Hi Hj. unfold slot_key_of.
  destruct par as [| | | | |r items|r kind fields];
    try (destruct Hc; discriminate); simpl in *.
  - intros E. now inversion E.
  - destruct (i <? 0)%Z eqn:Ei; [apply Z.ltb_lt in Ei; lia|].
    destruct (j <? 0)%Z eqn:Ej; [apply Z.ltb_lt in Ej; lia|].
    destruct (nth_error (child_keys kind) (Z.to_nat i)) as [s|] eqn:Es.
    2:{ apply nth_error_None in Es. lia. }
    destruct (nth_error (child_keys kind) (Z.to_nat j)) as [s'|] eqn:Es'.
    2:{ apply nth_error_None in Es'. lia. }
    intros E. inversion E; subst s'.
    assert (Z.to_nat i = Z.to_nat j); [|lia].
    apply (proj1 (NoDup_nth_error (child_keys kind))
             (child_keys_distinct kind)); [|congruence].
    apply nth_error_Some. congruence.
Qed.

Lemma slot_key_of_in_level par i :
  isNode par = true \/ isArray par = true ->
  (0 <= i < keys_length (keys_of par))%Z ->
  key_in_level par (slot_key_of par i).
Proof.
  intros Hc Hi.
  exact (key_in_level_slot par (isArray par) (keys_of par) (-1) i
           (level_of_start par) Hc Hi).
Qed.

(** What a slot holds is at a traversal position of the value. *)
Lemma occurs_slot t par k :
  key_in_level par k -> occurs t (get_prop par k) -> occurs t par.
Proof.
  destruct par as [| | | | |r items|r kind fields]; simpl;
    try contradiction.
  - intros (i & -> & Hi) H. simpl in H.
    destruct (i <? 0)%Z eqn:Ei; [apply Z.ltb_lt in Ei; lia|].
    eapply occurs_item; [|exact H]. apply nth_In. lia.
  - intros (name & -> & Hin) H. simpl in H.
    eapply occurs_field; eassumption.
Qed.

Lemma occurs_not_null t w :
  occurs t w -> isNode t = true -> is_null w = false.
Proof. intros H Ht. destruct H; [now destruct t|reflexivity..]. Qed.

(** ** What a copy holds *)

Lemma ordered_keys : forall es lo n,
  ordered_from lo n es = true -> (0 <= lo)%Z ->
  Forall (fun e : edit => exists i, fst e = KIdx i /\ (0 <= i < n)%Z) es.
Proof.
  induction es as [|[k x] es IH]; simpl; intros lo n H Hlo; [constructor|].
  destruct k as [|i|s]; try discriminate.
  apply andb_true_iff in H. destruct H as [H Hrest].
  apply andb_true_iff in H. destruct H as [Hge Hlt].
  apply Z.leb_le in Hge. apply Z.ltb_lt in Hlt.
  constructor; [exists i; simpl; split; [reflexivity|lia]|].
  apply (IH _ n Hrest). destruct (is_null x); lia.
Qed.

Lemma set_cell_length : forall cs i c,
  List.length (set_cell cs i c) = List.length cs.
Proof.
  induction cs as [|x cs IH]; intros [|i] c; simpl; auto.
Qed.

Lemma nth_error_set_cell : forall cs i c j,
  nth_error (set_cell cs i c) j
  = if Nat.eqb j i && Nat.ltb i (List.length cs) then Some c
    else nth_error cs j.
Proof.
  induction cs as [|x cs IH]; intros [|i] c [|j]; simpl; try reflexivity.
  - now destruct (Nat.eqb j i).
  - rewrite IH. reflexivity.
Qed.

Lemma cells_at (i : Z) : forall es cs,
  Forall (fun e : edit => exists j, fst e = KIdx j /\ (0 <= j)%Z) es ->
  (0 <= i)%Z -> Z.to_nat i < List.length cs ->
  nth_error (fold_left edit_cell es cs) (Z.to_nat i)
  = match last_edit_at (KIdx i) es None with
    | Some x => Some (if is_null x then None else Some x)
    | None => nth_error cs (Z.to_nat i)
    end.
Proof.
  induction es as [|[k x] es IH]; intros cs Hkeys Hi Hlen; simpl;
    [reflexivity|].
  inversion Hkeys as [|? ? (j & Hk & Hj) Hrest]; subst. simpl in Hk. subst k.
  rewrite (last_edit_at_found (KIdx i) es).
  rewrite (IH _ Hrest Hi) by (simpl; now rewrite set_cell_length).
  destruct (last_edit_at (KIdx i) es None); [reflexivity|].
  simpl. rewrite nth_error_set_cell.
  destruct (j =? i)%Z eqn:E.
  - apply Z.eqb_eq in E. subst j. rewrite Nat.eqb_refl. simpl.
    assert (Nat.ltb (Z.to_nat i) (List.length cs) = true) as ->
      by (apply Nat.ltb_lt; exact Hlen).
    reflexivity.
  - apply Z.eqb_neq in E.
    assert (Nat.eqb (Z.to_nat i) (Z.to_nat j) = false) as ->
      by (apply Nat.eqb_neq; lia).
    reflexivity.
Qed.

Lemma compact_in : forall cs j w,
  nth_error cs j = Some (Some w) -> In w (compact cs).
Proof.
  induction cs as [|[x|] cs IH]; intros [|j] w H; simpl in *;
    try discriminate.
  - inversion H. now left.
  - right. eapply IH; eassumption.
  - eapply IH; eassumption.
Qed.

Lemma array_copy_occurs t r r' items es i :
  ordered_from 0 (Z.of_nat (List.length items)) es = true ->
  (0 <= i < Z.of_nat (List.length items))%Z ->
  isNode t = true ->
  occurs t (slot_value (VArr r items) es (KIdx i)) ->
  occurs t (VArr r' (edits_at_original_positions items es)).
Proof.
  intros Ho Hi Ht Hocc.
  pose proof (occurs_not_null _ _ Hocc Ht) as Hnull.
  apply (occurs_item t r' _ (slot_value (VArr r items) es (KIdx i)));
    [|exact Hocc].
  unfold edits_at_original_positions.
  apply (compact_in _ (Z.to_nat i)).
  rewrite cells_at; try lia.
  - unfold slot_value in *.
    destruct (last_edit_at (KIdx i) es None) as [x|].
    + now rewrite Hnull.
    + simpl. destruct (i <? 0)%Z eqn:Ei; [apply Z.ltb_lt in Ei; lia|].
      rewrite nth_error_map.
      rewrite (nth_error_nth' items VUndef) by lia. reflexivity.
  - eapply Forall_impl; [|apply (ordered_keys es 0 _ Ho); lia].
    simpl. intros e (j & Hj & Hr). exists j. split; [exact Hj|lia].
  - rewrite length_map. lia.
Qed.

Lemma node_copy_occurs t r r' kind fields es name :
  In name (child_keys kind) ->
  occurs t (slot_value (VNode r kind fields) es (KName name)) ->
  occurs t (VNode r' kind (apply_object_edits fields es)).
Proof.
  intros Hin Hocc. apply (occurs_field t r' kind _ name Hin).
  rewrite (apply_object_edits_get name es fields None I).
  unfold slot_value in Hocc. rewrite last_edit_at_name in Hocc.
  exact Hocc.
Qed.

(** The copy made on leaving a level has, at a traversal position, what a
    slot of the level stands for. *)
Lemma copy_occurs t par inA ks idx es hi i nx :
  level_of par inA ks idx -> level_edits par es hi ->
  (0 <= i < keys_length ks)%Z -> isNode t = true ->
  occurs t (slot_value par es (slot_key_of par i)) ->
  occurs t (clone_with_edits inA par es nx).
Proof.
  intros (HinA & Hks & _) Hed Hi Ht Hocc. subst inA ks.
  unfold slot_key_of in Hocc.
  destruct par as [| | | | |r items|r kind fields]; simpl in *;
    try contradiction.
  - destruct Hed as [Ho _].
    rewrite (apply_array_edits_refines items es Ho).
    now apply (array_copy_occurs t r _ items es i).
  - destruct (i <? 0)%Z eqn:Ei; [apply Z.ltb_lt in Ei; lia|].
    destruct (nth_error (child_keys kind) (Z.to_nat i)) as [name|] eqn:En.
    2:{ apply nth_error_None in En. lia. }
    apply (node_copy_occurs t r _ kind fields es name);
      [eapply nth_error_In; exact En|exact Hocc].
Qed.

(** ** One iteration, in full *)

Section Iteration.

Variable W : Type.
Variable v : visitor W.
Variable root : value.

(** An iteration that leaves a value and after which the loop goes on. *)
Lemma leaving_outcome edited node k (st st' : state W) :
  visit_node v true edited node k st = Next st' ->
  exists r u' new,
    one_call true (path st) r new
    /\ st' = mkState (stack st) (inArray st) (keys st) (index st)
               (edits_after_leaving (edits st) k edited node r)
               (parent st) (removelast (path st)) (ancestors st) (next st)
               u' (calls st ++ new).
Proof.
  unfold visit_node, finish, edits_after_leaving, one_call.
  destruct (isArray node).
  { intros E. exists VUndef, (user st), []. split; [now left|].
    rewrite app_nil_r. simpl in *.
    destruct edited; simpl in E; inversion E; reflexivity. }
  destruct (isNode node); simpl; [|discriminate].
  destruct (getVisitFn v (kind_of node) true) as [h|].
  2:{ intros E. exists VUndef, (user st), []. split; [now left|].
      rewrite app_nil_r. simpl in *.
      destruct edited; simpl in E; inversion E; reflexivity. }
  destruct (h _ _) as [r u]. simpl.
  destruct (is_break r) eqn:Hb; [discriminate|].
  intros E. exists r, u, [mkEvent true (mkCall node k (parent st) (path st)
                                          (ancestors st)) r].
  split; [right; eexists; split; reflexivity|].
  destruct (is_false r) eqn:Hf; simpl in E.
  { destruct r; try discriminate. simpl in *. inversion E. reflexivity. }
  destruct (is_undefined r) eqn:Hu; simpl in E.
  - destruct edited; simpl in E; inversion E; reflexivity.
  - inversion E. reflexivity.
Qed.

(** An iteration that enters a slot and after which the loop goes on: the
    slot is passed, or the traversal goes down into the value of the slot or
    into the node that the function gave in its place. *)
Lemma entering_outcome node k (st st' : state W) :
  visit_node v false false node k st = Next st' ->
  exists r u' new,
    one_call false (path st) r new
    /\ (st' = mkState (stack st) (inArray st) (keys st) (index st)
                (edits_after_entering (edits st) k r)
                (parent st) (removelast (path st)) (ancestors st) (next st)
                u' (calls st ++ new)
        \/ exists node',
             (r = VUndef /\ node' = node
              \/ edits_after_entering (edits st) k r = edits st ++ [(k, r)]
                 /\ node' = r)
             /\ st' = mkState
                        (mkFrame (inArray st) (index st) (keys st)
                           (edits_after_entering (edits st) k r) :: stack st)
                        (isArray node') (keys_of node') (-1)%Z [] node'
                        (path st)
                        (if truthy (parent st)
                         then ancestors st ++ [parent st] else ancestors st)
                        (next st) u' (calls st ++ new)).
Proof.
  unfold visit_node, finish, edits_after_entering, one_call.
  destruct (isArray node).
  { intros E. exists VUndef, (user st), []. split; [now left|].
    rewrite app_nil_r. simpl in *. inversion E. right. exists node.
    split; [now left|reflexivity]. }
  destruct (isNode node); simpl; [|discriminate].
  destruct (getVisitFn v (kind_of node) false) as [h|].
  2:{ intros E. exists VUndef, (user st), []. split; [now left|].
      rewrite app_nil_r. simpl in *. inversion E. right. exists node.
      split; [now left|reflexivity]. }
  destruct (h _ _) as [r u]. simpl.
  destruct (is_break r) eqn:Hb; [discriminate|].
  intros E. exists r, u, [mkEvent false (mkCall node k (parent st) (path st)
                                           (ancestors st)) r].
  split; [right; eexists; split; reflexivity|].
  destruct (is_false r) eqn:Hf; simpl in E.
  { rewrite orb_true_r. inversion E. left. reflexivity. }
  rewrite orb_false_r.
  destruct (is_undefined r) eqn:Hu; simpl in E.
  - inversion E. right. exists node. split; [|reflexivity].
    left. split; [|reflexivity]. now destruct r.
  - destruct (isNode r) eqn:Hr; simpl in E; inversion E.
    + right. exists r. split; [|reflexivity]. right. now split.
    + left. reflexivity.
Qed.

(** The iteration that leaves the level being walked. *)
Lemma leaving_step (st st' : state W) :
  (index st + 1 = keys_length (keys st))%Z ->
  body v root st = Next st' ->
  let edited := negb (Nat.eqb (List.length (edits st)) 0) in
  let k := if Nat.eqb (List.length (ancestors st)) 0 then KUndef
           else last (path st) KUndef in
  let node := if edited
              then clone_with_edits (inArray st) (parent st) (edits st)
                     (next st)
              else parent st in
  exists fr prev r u' new,
    stack st = fr :: prev
    /\ one_call true (path st) r new
    /\ st' = mkState prev (f_inArray fr) (f_keys fr) (f_index fr)
               (edits_after_leaving (f_edits fr) k edited node r)
               (last (ancestors st) VUndef) (removelast (path st))
               (removelast (ancestors st))
               (if edited then S (next st) else next st)
               u' (calls st ++ new).
Proof.
  intros Hlv Hb. unfold body in Hb.
  apply Z.eqb_eq in Hlv. rewrite Hlv in Hb. simpl in Hb.
  destruct (stack st) as [|fr prev]; [discriminate|].
  apply leaving_outcome in Hb. simpl in Hb.
  destruct Hb as (r & u' & new & Hnew & ->).
  exists fr, prev, r, u', new. repeat split; auto.
Qed.

(** An iteration that enters the next slot of the level being walked. *)
Lemma entering_step (st st' : state W) :
  run_invariant st ->
  (index st + 1 <> keys_length (keys st))%Z ->
  body v root st = Next st' ->
  let k := slot_key_of (parent st) (index st + 1) in
  exists r u' new,
    one_call false (path st ++ [k]) r new
    /\ (st' = mkState (stack st) (inArray st) (keys st) (index st + 1)%Z
                (edits_after_entering (edits st) k r)
                (parent st) (path st) (ancestors st) (next st)
                u' (calls st ++ new)
        \/ exists node',
             (r = VUndef /\ node' = get_prop (parent st) k
              \/ edits_after_entering (edits st) k r = edits st ++ [(k, r)]
                 /\ node' = r)
             /\ st' = mkState
                        (mkFrame (inArray st) (index st + 1)%Z (keys st)
                           (edits_after_entering (edits st) k r) :: stack st)
                        (isArray node') (keys_of node') (-1)%Z [] node'
                        (path st ++ [k]) (ancestors st ++ [parent st])
                        (next st) u' (calls st ++ new)).
Proof.
  intros (Hlev & Hed & Hco) Hlv Hb. unfold body in Hb.
  pose proof (level_edits_container _ _ _ Hed) as Hc.
  assert (truthy (parent st) = true) as Hpar
    by (destruct Hc as [H|H]; destruct (parent st); try discriminate;
        reflexivity).
  apply Z.eqb_neq in Hlv. rewrite Hlv, Hpar in Hb. simpl in Hb.
  destruct Hlev as (HinA & Hks & Hrange).
  assert ((if inArray st then KIdx (index st + 1)
           else key_at (keys st) (index st + 1))
          = slot_key_of (parent st) (index st + 1)) as Hk
    by (unfold slot_key_of; now rewrite <- HinA, <- Hks).
  rewrite Hk in Hb. simpl.
  set (k := slot_key_of (parent st) (index st + 1)) in *.
  destruct (is_nullish (get_prop (parent st) k)).
  { inversion Hb. exists VUndef, (user st), []. split; [now left|].
    left. unfold with_index, edits_after_entering. simpl.
    now rewrite app_nil_r. }
  apply entering_outcome in Hb. simpl in Hb.
  destruct Hb as (r & u' & new & Hnew & Hst).
  exists r, u', new. split; [exact Hnew|].
  rewrite removelast_last, Hpar in Hst. exact Hst.
Qed.

End Iteration.

(** ** The levels stay linked *)

Lemma edits_behind_weaken par c c' es :
  (c <= c')%Z -> edits_behind par c es -> edits_behind par c' es.
Proof.
  intros Hc H. eapply Forall_impl; [|exact H].
  simpl. intros e (j & Hj & He). exists j. split; [lia|exact He].
Qed.

Lemma edits_behind_snoc par c es x :
  (0 <= c)%Z -> edits_behind par c es ->
  edits_behind par c (es ++ [(slot_key_of par c, x)]).
Proof.
  intros Hc H. apply Forall_app. split; [exact H|].
  constructor; [|constructor]. exists c. split; [lia|reflexivity].
Qed.

Lemma edits_behind_after_entering par c es r :
  (0 <= c)%Z -> edits_behind par (c - 1) es ->
  edits_behind par c (edits_after_entering es (slot_key_of par c) r).
Proof.
  intros Hc H. apply (edits_behind_weaken par (c - 1) c) in H; [|lia].
  unfold edits_after_entering.
  destruct (is_undefined r || is_false r); [exact H|].
  now apply edits_behind_snoc.
Qed.

Lemma edits_behind_after_leaving par c es edited node r :
  (0 <= c)%Z -> edits_behind par c es ->
  edits_behind par c
    (edits_after_leaving es (slot_key_of par c) edited node r).
Proof.
  intros Hc H. unfold edits_after_leaving.
  destruct (is_undefined r); [destruct edited|destruct (is_false r)];
    try exact H; now apply edits_behind_snoc.
Qed.

(** A slot that the cursor has not reached stands for what the value
    holds. *)
Lemma slot_ahead par c es i :
  isNode par = true \/ isArray par = true ->
  edits_behind par c es -> (-1 <= c < i)%Z ->
  (i < keys_length (keys_of par))%Z ->
  slot_value par es (slot_key_of par i) = get_prop par (slot_key_of par i).
Proof.
  intros Hc H Hci Hi. apply slot_value_no_edit.
  eapply Forall_impl; [|exact H]. simpl.
  intros e (j & Hj & He) E. rewrite He in E.
  apply slot_key_of_injective in E; try assumption; lia.
Qed.

Lemma frame_key_slot gp fr :
  level_of gp (f_inArray fr) (f_keys fr) (f_index fr) ->
  frame_key fr = slot_key_of gp (f_index fr).
Proof.
  intros (HinA & Hks & _). unfold frame_key, slot_key_of.
  now rewrite HinA, Hks.
Qed.

(** The key under which the copy of a level is recorded. *)
Lemma leaving_key pth anc (gp : value) k :
  (if Nat.eqb (List.length (anc ++ [gp])) 0 then KUndef
   else last (pth ++ [k]) KUndef) = k.
Proof.
  rewrite length_app, Nat.add_1_r. simpl. apply last_last.
Qed.

Section Links.

Variable W : Type.
Variable v : visitor W.
Variable root : value.

Lemma invariant_container (st : state W) :
  run_invariant st ->
  isNode (parent st) = true \/ isArray (parent st) = true.
Proof.
  intros (_ & Hed & _). exact (level_edits_container _ _ _ Hed).
Qed.

Lemma links_kept (st st' : state W) :
  run_invariant st -> run_links root st ->
  body v root st = Next st' -> stack st' <> [] ->
  run_links root st'.
Proof.
  intros Hinv (Hli & Hbe) Hb Hstk.
  pose proof (invariant_container st Hinv) as Hc.
  destruct (Z.eq_dec (index st + 1) (keys_length (keys st))) as [Hlv|Hlv].
  - destruct (leaving_step W v root st st' Hlv Hb)
      as (fr & prev & r & u' & new & Hs & _ & ->).
    simpl in Hstk. destruct Hinv as (_ & _ & Hco).
    rewrite Hs in Hco, Hli.
    inversion Hco as [fr0 E1 E2 E3
                     |fr0 stk pth anc gp Hco' Hlev' Hidx Hed' E1 E2 E3];
      [now subst prev|].
    subst fr0 stk.
    inversion Hli as [fr0 par0 Hp0 F1 F2 F3
                     |fr0 stk anc' gp' par0 Hli' Hbe' Hp0 F1 F2 F3];
      [now subst prev|].
    subst fr0 stk par0. rewrite <- E3 in F2.
    apply app_inj_tail in F2. destruct F2 as [-> ->].
    unfold run_links. simpl.
    rewrite removelast_last, last_last, leaving_key.
    split; [exact Hli'|].
    rewrite (frame_key_slot gp fr Hlev').
    now apply edits_behind_after_leaving.
  - destruct (entering_step W v root st st' Hinv Hlv Hb)
      as (r & u' & new & _ & Hst).
    destruct Hinv as ((HinA & Hks & Hrange) & _ & _).
    assert (0 <= index st + 1 < keys_length (keys_of (parent st)))%Z as Hi
      by (rewrite <- Hks; lia).
    assert (edits_behind (parent st) (index st + 1)
              (edits_after_entering (edits st)
                 (slot_key_of (parent st) (index st + 1)) r)) as Hbe1.
    { apply edits_behind_after_entering; [lia|].
      now replace (index st + 1 - 1)%Z with (index st) by lia. }
    destruct Hst as [->|(node' & Hn' & ->)]; unfold run_links; simpl.
    + split; assumption.
    + split; [|constructor].
      apply linked_push; simpl; try assumption.
      assert (frame_key
                (mkFrame (inArray st) (index st + 1) (keys st)
                   (edits_after_entering (edits st)
                      (slot_key_of (parent st) (index st + 1)) r))
              = slot_key_of (parent st) (index st + 1)) as ->
        by (unfold frame_key, slot_key_of; simpl; now rewrite HinA, Hks).
      destruct Hn' as [[-> ->]|[-> ->]].
      * unfold edits_after_entering. simpl. symmetry.
        apply (slot_ahead _ (index st)); try assumption; lia.
      * now rewrite slot_value_snoc_same.
Qed.

Lemma links_start (u : W) (st' : state W) :
  body v root (initial root u) = Next st' -> stack st' <> [] ->
  run_links root st'.
Proof.
  unfold body. simpl. intros Hb Hstk.
  destruct (is_nullish root).
  { inversion Hb; subst st'. now simpl in Hstk. }
  apply entering_outcome in Hb. simpl in Hb.
  destruct Hb as (r & u' & new & _ & [->|(node' & Hn' & ->)]);
    [now simpl in Hstk|].
  unfold run_links. simpl. split; [|constructor].
  apply linked_root. simpl.
  destruct Hn' as [[-> ->]|[-> ->]]; reflexivity.
Qed.

Lemma links_advance : forall n (st st' : state W),
  run_invariant st -> run_links root st ->
  advance v root n st = Some st' -> run_links root st'.
Proof.
  induction n as [|n IH]; simpl; intros st st' Hinv Hli H.
  - now inversion H; subst.
  - destruct (body v root st) as [s1| |] eqn:Hb; try discriminate.
    destruct (stack s1) eqn:Es; try discriminate.
    assert (stack s1 <> []) as Hne by (rewrite Es; discriminate).
    apply (IH s1); [| |exact H].
    + exact (body_keeps_invariant W v root st s1 Hinv Hb Hne).
    + exact (links_kept st s1 Hinv Hli Hb Hne).
Qed.

(** Every state a run reaches after its first iteration has its levels
    linked. *)
Lemma reached_links (u : W) n (st : state W) :
  advance v root (S n) (initial root u) = Some st -> run_links root st.
Proof.
  simpl. destruct (body v root (initial root u)) as [s1| |] eqn:Hb;
    try discriminate.
  destruct (stack s1) eqn:Es; try discriminate.
  assert (stack s1 <> []) as Hne by (rewrite Es; discriminate).
  apply links_advance; [|exact (links_start u s1 Hb Hne)].
  exact (first_iteration_invariant W v root u s1 Hb Hne).
Qed.

End Links.

(** ** What the traversal has passed stays *)

Lemma root_value_snoc root es k x : root_value root (es ++ [(k, x)]) = x.
Proof.
  destruct es as [|e rest]; simpl; [reflexivity|]. now rewrite last_last.
Qed.

Lemma slot_value_after_leaving par es k k' edited node r :
  k' <> k ->
  slot_value par (edits_after_leaving es k' edited node r) k
  = slot_value par es k.
Proof.
  intros H. unfold edits_after_leaving.
  destruct (is_undefined r); [destruct edited|destruct (is_false r)];
    try reflexivity; now apply slot_value_snoc_other.
Qed.

Lemma slot_value_after_entering par es k k' r :
  k' <> k ->
  slot_value par (edits_after_entering es k' r) k = slot_value par es k.
Proof.
  intros H. unfold edits_after_entering.
  destruct (is_undefined r || is_false r);
    [reflexivity|now apply slot_value_snoc_other].
Qed.

Lemma none_below_app p a b :
  none_below p a -> none_below p b -> none_below p (a ++ b).
Proof. intros Ha Hb. apply Forall_app. now split. Qed.

Lemma ancestors_left_alone_app p a b :
  ancestors_left_alone p (a ++ b) ->
  ancestors_left_alone p a /\ ancestors_left_alone p b.
Proof.
  intros H. split; intros e He; apply H; apply in_or_app; auto.
Qed.

Section Carrier.

Variable t : value.
Variable p : list key.

Lemma carries_weaken (ok ok' : Prop) par es pth i :
  (ok' -> ok) -> carries t p ok par es pth i -> carries t p ok' par es pth i.
Proof. intros H [Hp Hv]. split; auto. Qed.

Lemma carried_in_weaken (ok ok' : Prop) stk pth anc :
  (ok' -> ok) -> carried_in t p ok stk pth anc ->
  carried_in t p ok' stk pth anc.
Proof.
  intros H Hc. induction Hc as [fr stk pth anc gp i Hi Hc
                               |fr stk pth anc gp Hc IH].
  - apply (carried_top t p ok' fr stk pth anc gp i Hi).
    exact (carries_weaken ok ok' _ _ _ _ H Hc).
  - now apply carried_deeper.
Qed.

(** No path through the slot a saved level stopped at leads to [p] or
    below. *)
Lemma carried_in_not_below ok stk pth anc :
  carried_in t p ok stk pth anc -> coherent stk pth anc ->
  forall more, ~ is_prefix p (pth ++ more).
Proof.
  intros Hc. induction Hc as [fr stk pth anc gp i Hi [[rest Hp] _]
                             |fr stk pth anc gp Hc IH];
    intros Hco more [rest' Hpre].
  - inversion Hco as [fr0 E1 E2 E3
                     |fr0 stk0 pth0 anc0 gp0 Hco' Hlev Hidx Hed E1 E2 E3].
    { now apply app_cons_not_nil in E2. }
    apply app_inj_tail in E2. destruct E2 as [-> _].
    apply app_inj_tail in E3. destruct E3 as [-> ->].
    subst p. repeat rewrite <- app_assoc in Hpre. simpl in Hpre.
    apply app_inv_head in Hpre. inversion Hpre as [[Hk Hmore]].
    rewrite (frame_key_slot gp fr Hlev) in Hk.
    pose proof Hlev as (_ & Hks & Hrange).
    apply slot_key_of_injective in Hk;
      [lia|exact (level_edits_container _ _ _ Hed)
      |rewrite <- Hks; lia|rewrite <- Hks; lia].
  - inversion Hco as [fr0 E1 E2 E3
                     |fr0 stk0 pth0 anc0 gp0 Hco' Hlev Hidx Hed E1 E2 E3].
    { now apply app_cons_not_nil in E2. }
    apply app_inj_tail in E2. destruct E2 as [-> _].
    apply app_inj_tail in E3. destruct E3 as [-> ->].
    apply (IH Hco' (frame_key fr :: more)).
    exists rest'. rewrite <- Hpre. now rewrite <- app_assoc.
Qed.

Section Carrier_run.

Variable W : Type.
Variable v : visitor W.
Variable root : value.

(** The calls of one iteration are made at the path of the level that is
    left, or at the path of the slot that is entered. *)
Lemma body_call_paths (st : state W) :
  run_invariant st ->
  match body v root st with
  | Next st' | Broke st' =>
      exists new,
        calls st' = calls st ++ new
        /\ Forall (fun e =>
             c_path (ev_call e) = path st
             \/ (index st + 1 < keys_length (keys st))%Z
                /\ c_path (ev_call e)
                   = path st ++ [slot_key_of (parent st) (index st + 1)])
             new
  | Thrown _ => True
  end.
Proof.
  intros (Hlev & Hed & Hco). unfold body.
  pose proof (level_edits_container _ _ _ Hed) as Hc.
  assert (truthy (parent st) = true) as Hpar
    by (destruct Hc as [H|H]; destruct (parent st); try discriminate;
        reflexivity).
  destruct (index st + 1 =? keys_length (keys st))%Z eqn:Elv; simpl.
  - destruct (stack st) as [|fr prev]; [exact I|].
    match goal with
    | |- match visit_node v true ?e ?n ?k ?s with _ => _ end =>
        pose proof (visit_node_event W v true e n k s) as He;
        destruct (visit_node v true e n k s) as [s'|s'|m]; try exact I;
        simpl in He;
        (destruct He as [->|[r ->]];
         [exists []; now rewrite app_nil_r
         |eexists; split; [reflexivity|];
          constructor; [now left|constructor]])
    end.
  - apply Z.eqb_neq in Elv. rewrite Hpar.
    destruct Hlev as (HinA & Hks & Hrange).
    assert ((if inArray st then KIdx (index st + 1)
             else key_at (keys st) (index st + 1))
            = slot_key_of (parent st) (index st + 1)) as Hk
      by (unfold slot_key_of; now rewrite <- HinA, <- Hks).
    rewrite Hk.
    destruct (is_nullish _).
    { exists []. simpl. now rewrite app_nil_r. }
    match goal with
    | |- match visit_node v false ?e ?n ?k ?s with _ => _ end =>
        pose proof (visit_node_event W v false e n k s) as He;
        destruct (visit_node v false e n k s) as [s'|s'|m]; try exact I;
        simpl in He;
        (destruct He as [->|[r ->]];
         [exists []; now rewrite app_nil_r
         |eexists; split; [reflexivity|];
          constructor; [right; split; [lia|reflexivity]|constructor]])
    end.
Qed.

(** From a state that carries [t], no call is made at [p] or below. *)
Lemma step_none_below ok (st st' : state W) new :
  run_invariant st -> carried t p ok st ->
  body v root st = Next st' \/ body v root st = Broke st' ->
  calls st' = calls st ++ new -> none_below p new.
Proof.
  intros Hinv Hca Hb Hnew.
  pose proof (body_call_paths st Hinv) as Hcalls.
  assert (exists new0,
            calls st' = calls st ++ new0
            /\ Forall (fun e =>
                 c_path (ev_call e) = path st
                 \/ (index st + 1 < keys_length (keys st))%Z
                    /\ c_path (ev_call e)
                       = path st ++ [slot_key_of (parent st) (index st + 1)])
                 new0) as (new0 & Hnew0 & Hall)
    by (destruct Hb as [Hb|Hb]; rewrite Hb in Hcalls; exact Hcalls).
  rewrite Hnew in Hnew0. apply app_inv_head in Hnew0. subst new0.
  eapply Forall_impl; [|exact Hall]. simpl.
  intros e He Hpre.
  destruct Hinv as ((HinA & Hks & Hrange) & Hed & Hco).
  pose proof (level_edits_container _ _ _ Hed) as Hc.
  destruct Hca as [(i & Hi & [rest Hp] & _)|Hin].
  - destruct Hpre as [rest' Hpre]. subst p.
    destruct He as [He|[Hlt He]]; rewrite He in Hpre.
    + apply (f_equal (@List.length key)) in Hpre.
      repeat rewrite length_app in Hpre. simpl in Hpre. lia.
    + repeat rewrite <- app_assoc in Hpre. simpl in Hpre.
      apply app_inv_head in Hpre. inversion Hpre as [[Hk Hmore]].
      apply slot_key_of_injective in Hk; try assumption;
        try rewrite <- Hks; lia.
  - destruct He as [He|[Hlt He]]; rewrite He in Hpre.
    + apply (carried_in_not_below ok _ _ _ Hin Hco []).
      now rewrite app_nil_r.
    + exact (carried_in_not_below ok _ _ _ Hin Hco _ Hpre).
Qed.

End Carrier_run.

End Carrier.

Section Kept.

Variable t : value.
Variable p : list key.
Hypothesis t_is_node : isNode t = true.

Variable W : Type.
Variable v : visitor W.
Variable root : value.

(** A call on leaving a value above [p] returned [undefined] when the calls
    above [p] were left alone. *)
Lemma left_alone_result pth k rest r new :
  p = (pth ++ [k]) ++ rest ->
  one_call true pth r new -> ancestors_left_alone p new -> r = VUndef.
Proof.
  intros Hp [[_ ->]|(c & -> & Hc)] Hala; [reflexivity|].
  apply (Hala (mkEvent true c r)); [now left|reflexivity|].
  exists k, rest. simpl. rewrite Hc, Hp. now rewrite <- app_assoc.
Qed.

(** One iteration after which the loop goes on keeps [t] carried, as long
    as the calls it makes on leaving a value above [p] return
    [undefined]. *)
Lemma carried_kept ok (st st' : state W) :
  run_invariant st -> run_links root st -> carried t p ok st ->
  body v root st = Next st' -> stack st' <> [] ->
  exists new,
    calls st' = calls st ++ new
    /\ carried t p (ok /\ ancestors_left_alone p new) st'.
Proof.
  intros Hinv Hli Hca Hb Hstk.
  pose proof (invariant_container W st Hinv) as Hc.
  destruct (Z.eq_dec (index st + 1) (keys_length (keys st))) as [Hlv|Hlv].
  - destruct (leaving_step W v root st st' Hlv Hb)
      as (fr & prev & r & u' & new & Hs & Hnew & ->).
    exists new. split; [reflexivity|].
    destruct st as [stk inA ks idx es par pth anc nx u cs].
    unfold run_invariant, run_links, carried in *. simpl in *.
    destruct Hinv as (Hlev & Hed & Hco). destruct Hli as (Hli & Hbe).
    subst stk.
    inversion Hco as [fr0 E1 E2 E3
                     |fr0 stk0 pth0 anc0 gp Hco' Hlev' Hidx Hed' E1 E2 E3];
      [now subst prev|].
    subst fr0 stk0 pth anc.
    inversion Hli as [fr0 par0 Hp0 F1 F2 F3
                     |fr0 stk0 anc' gp' par0 Hli' Hbe' Hp0 F1 F2 F3];
      [now subst prev|].
    subst fr0 stk0 par0.
    apply app_inj_tail in F2. destruct F2 as [-> ->].
    rewrite !removelast_last, last_last, leaving_key.
    pose proof (frame_key_slot gp fr Hlev') as Hfk.
    pose proof Hlev as (HinA & Hks & Hrange).
    pose proof Hlev' as (HinA' & Hks' & Hrange').
    destruct Hca as [(i & Hi & [rest Hp] & Hv)|Hin].
    + left. exists (f_index fr). split; [lia|]. split.
      * exists (slot_key_of par i :: rest). rewrite Hp, Hfk.
        now repeat rewrite <- app_assoc.
      * intros [Hok Hala].
        assert (r = VUndef) as ->
          by exact (left_alone_result _ _ _ _ _ Hp Hnew Hala).
        unfold edits_after_leaving. simpl.
        destruct (Nat.eqb (List.length es) 0) eqn:Ee; simpl.
        -- rewrite <- Hfk, <- Hp0.
           apply (occurs_slot t par (slot_key_of par i)).
           { apply slot_key_of_in_level; [exact Hc|rewrite <- Hks; lia]. }
           destruct es; [|discriminate]. exact (Hv Hok).
        -- rewrite Hfk, slot_value_snoc_same.
           apply (copy_occurs t par inA ks idx es (idx + 1) i nx Hlev Hed);
             [lia|exact t_is_node|exact (Hv Hok)].
    + inversion Hin as [fr1 stk1 pth1 anc1 gp1 i Hi Hcar G1 G2 G3
                       |fr1 stk1 pth1 anc1 gp1 Hin' G1 G2 G3].
      * subst fr1 stk1.
        apply app_inj_tail in G2. destruct G2 as [-> _].
        apply app_inj_tail in G3. destruct G3 as [-> ->].
        left. exists i. split; [lia|].
        destruct Hcar as [Hpre Hv]. split; [exact Hpre|].
        intros [Hok _]. rewrite slot_value_after_leaving; [exact (Hv Hok)|].
        rewrite Hfk. intros E.
        apply slot_key_of_injective in E;
          [lia|exact (level_edits_container _ _ _ Hed')
          |rewrite <- Hks'; lia|rewrite <- Hks'; lia].
      * subst fr1 stk1.
        apply app_inj_tail in G2. destruct G2 as [-> _].
        apply app_inj_tail in G3. destruct G3 as [-> ->].
        right. apply (carried_in_weaken t p ok); [tauto|exact Hin'].
  - destruct (entering_step W v root st st' Hinv Hlv Hb)
      as (r & u' & new & Hnew & Hst).
    exists new.
    destruct st as [stk inA ks idx es par pth anc nx u cs].
    unfold run_invariant, run_links, carried in *. simpl in *.
    destruct Hinv as (Hlev & Hed & Hco).
    pose proof Hlev as (HinA & Hks & Hrange).
    assert (forall i, (0 <= i <= idx)%Z ->
              slot_key_of par (idx + 1) <> slot_key_of par i) as Hother.
    { intros i Hi E.
      apply slot_key_of_injective in E; try assumption;
        try rewrite <- Hks; lia. }
    destruct Hst as [->|(node' & Hn' & ->)]; simpl;
      (split; [reflexivity|]).
    + destruct Hca as [(i & Hi & Hpre & Hv)|Hin].
      * left. exists i. split; [lia|]. split; [exact Hpre|].
        intros [Hok _].
        rewrite slot_value_after_entering; [exact (Hv Hok)|].
        now apply Hother.
      * right. apply (carried_in_weaken t p ok); [tauto|exact Hin].
    + right.
      set (es' := edits_after_entering es (slot_key_of par (idx + 1)) r).
      set (fr' := mkFrame inA (idx + 1) ks es').
      assert (frame_key fr' = slot_key_of par (idx + 1)) as Hfk
        by (unfold frame_key, slot_key_of; simpl; now rewrite HinA, Hks).
      rewrite <- Hfk.
      destruct Hca as [(i & Hi & Hpre & Hv)|Hin].
      * apply (carried_top t p _ fr' stk pth anc par i); simpl; [lia|].
        split; [exact Hpre|]. intros [Hok _]. unfold es'.
        rewrite slot_value_after_entering; [exact (Hv Hok)|].
        now apply Hother.
      * apply carried_deeper.
        apply (carried_in_weaken t p ok); [tauto|exact Hin].
Qed.

(** The iteration that ends the loop leaves [t] in [newRoot]. *)
Lemma carried_end ok (st st' : state W) :
  run_invariant st -> run_links root st -> carried t p ok st ->
  body v root st = Next st' -> stack st' = [] ->
  exists new,
    calls st' = calls st ++ new
    /\ (ok -> ancestors_left_alone p new ->
        occurs t (root_value root (edits st'))).
Proof.
  intros Hinv Hli Hca Hb Hstk.
  pose proof (invariant_container W st Hinv) as Hc.
  assert (stack st <> []) as Hne
    by (destruct Hinv as (_ & _ & Hco); exact (coherent_stack _ _ _ Hco)).
  destruct (Z.eq_dec (index st + 1) (keys_length (keys st))) as [Hlv|Hlv].
  - destruct (leaving_step W v root st st' Hlv Hb)
      as (fr & prev & r & u' & new & Hs & Hnew & ->).
    exists new. split; [reflexivity|].
    destruct st as [stk inA ks idx es par pth anc nx u cs].
    unfold run_invariant, run_links, carried in *. simpl in *.
    destruct Hinv as (Hlev & Hed & Hco). destruct Hli as (Hli & Hbe).
    subst stk prev.
    inversion Hco as [fr0 E1 E2 E3
                     |fr0 stk0 pth0 anc0 gp Hco' Hlev' Hidx Hed' E1 E2 E3].
    2:{ subst stk0. now apply coherent_stack in Hco'. }
    subst fr0 pth anc.
    inversion Hli as [fr0 par0 Hp0 F1 F2 F3
                     |fr0 stk0 anc' gp' par0 Hli' Hbe' Hp0 F1 F2 F3].
    2:{ destruct anc'; discriminate F2. }
    subst fr0 par0.
    pose proof Hlev as (HinA & Hks & Hrange).
    destruct Hca as [(i & Hi & [rest Hp] & Hv)|Hin].
    2:{ inversion Hin as [fr1 stk1 pth1 anc1 gp1 i Hi Hcar G1 G2 G3
                         |fr1 stk1 pth1 anc1 gp1 Hin' G1 G2 G3];
          destruct pth1; discriminate G2. }
    intros Hok Hala.
    assert (r = VUndef) as ->
      by exact (left_alone_result _ _ _ _ _ Hp Hnew Hala).
    unfold edits_after_leaving. simpl.
    destruct (Nat.eqb (List.length es) 0) eqn:Ee; simpl.
    + rewrite <- Hp0.
      apply (occurs_slot t par (slot_key_of par i)).
      { apply slot_key_of_in_level; [exact Hc|rewrite <- Hks; lia]. }
      destruct es; [|discriminate]. exact (Hv Hok).
    + rewrite root_value_snoc.
      apply (copy_occurs t par inA ks idx es (idx + 1) i nx Hlev Hed);
        [lia|exact t_is_node|exact (Hv Hok)].
  - exfalso.
    destruct (entering_step W v root st st' Hinv Hlv Hb)
      as (r & u' & new & Hnew & [->|(node' & Hn' & ->)]);
      simpl in Hstk; [contradiction|discriminate].
Qed.

(** To the end of the run: no call is made at [p] or below, and when the
    loop is not left through [break] and the calls on leaving the values
    above [p] return [undefined], [t] stands in [newRoot]. *)
Lemma kept_to_the_end : forall fuel ok (st final : state W) b,
  run_invariant st -> run_links root st -> carried t p ok st ->
  loop v root fuel st = Stopped final b ->
  exists later,
    calls final = calls st ++ later
    /\ none_below p later
    /\ (b = false -> ok -> ancestors_left_alone p later ->
        occurs t (root_value root (edits final))).
Proof.
  induction fuel as [|fuel IH]; simpl; intros ok st final b Hinv Hli Hca H;
    [discriminate|].
  destruct (body v root st) as [s1|s1|m] eqn:Hb; try discriminate.
  - destruct (stack s1) as [|fr stk] eqn:Es.
    + inversion H; subst s1 b.
      destruct (carried_end ok st final Hinv Hli Hca Hb Es)
        as (new & Hnew & Hocc).
      exists new. split; [exact Hnew|]. split.
      * exact (step_none_below t p W v root ok st final new Hinv Hca
                 (or_introl Hb) Hnew).
      * intros _. exact Hocc.
    + assert (stack s1 <> []) as Hne by (rewrite Es; discriminate).
      destruct (carried_kept ok st s1 Hinv Hli Hca Hb Hne)
        as (new & Hnew & Hca1).
      destruct (IH _ s1 final b
                  (body_keeps_invariant W v root st s1 Hinv Hb Hne)
                  (links_kept W v root st s1 Hinv Hli Hb Hne) Hca1 H)
        as (later & Hlater & Hnone & Hocc).
      exists (new ++ later). split; [|split].
      * rewrite Hlater, Hnew. now rewrite app_assoc.
      * apply none_below_app; [|exact Hnone].
        exact (step_none_below t p W v root ok st s1 new Hinv Hca
                 (or_introl Hb) Hnew).
      * intros Hbf Hok Hala.
        apply ancestors_left_alone_app in Hala. destruct Hala as [Ha1 Ha2].
        apply Hocc; auto.
  - inversion H; subst s1 b.
    pose proof (body_call_paths W v root st Hinv) as Hcalls.
    rewrite Hb in Hcalls. destruct Hcalls as (new & Hnew & _).
    exists new. split; [exact Hnew|]. split.
    + exact (step_none_below t p W v root ok st final new Hinv Hca
               (or_intror Hb) Hnew).
    + discriminate.
Qed.

End Kept.

(** ** The calls made so far are behind *)

Lemma is_prefix_shorter a b q : is_prefix (a ++ b) q -> is_prefix a q.
Proof.
  intros [rest ->]. exists (b ++ rest). now rewrite <- app_assoc.
Qed.

Lemma sibling_not_prefix par pth i j more :
  isNode par = true \/ isArray par = true ->
  (0 <= i < keys_length (keys_of par))%Z ->
  (0 <= j < keys_length (keys_of par))%Z -> i <> j ->
  ~ is_prefix (pth ++ [slot_key_of par j])
      (pth ++ slot_key_of par i :: more).
Proof.
  intros Hc Hi Hj Hne [rest H]. rewrite <- app_assoc in H. simpl in H.
  apply app_inv_head in H. inversion H as [[Hk Hmore]].
  apply slot_key_of_injective in Hk; try assumption. contradiction.
Qed.

Lemma ahead_coherent stk pth anc :
  coherent stk pth anc -> forall more, ahead (pth ++ more) stk pth anc.
Proof.
  intros Hco. induction Hco as [fr|fr stk pth anc gp Hco IH Hlev Hidx Hed];
    intros more; [constructor|].
  pose proof Hlev as (_ & Hks & Hrange).
  rewrite <- app_assoc. simpl. apply ahead_push; [apply IH|].
  intros j Hj. rewrite (frame_key_slot gp fr Hlev).
  apply sibling_not_prefix;
    [exact (level_edits_container _ _ _ Hed)|rewrite <- Hks; lia|lia|lia].
Qed.

Section Behind.

Variable W : Type.
Variable v : visitor W.
Variable root : value.

Lemma behind_kept (st st' : state W) :
  run_invariant st -> calls_behind st ->
  body v root st = Next st' -> stack st' <> [] ->
  calls_behind st'.
Proof.
  intros Hinv Hbh Hb Hstk.
  pose proof (invariant_container W st Hinv) as Hc.
  destruct (Z.eq_dec (index st + 1) (keys_length (keys st))) as [Hlv|Hlv].
  - destruct (leaving_step W v root st st' Hlv Hb)
      as (fr & prev & r & u' & new & Hs & Hnew & ->).
    destruct st as [stk inA ks idx es par pth anc nx u cs].
    unfold run_invariant, calls_behind in *. simpl in *.
    destruct Hinv as (Hlev & Hed & Hco). subst stk.
    inversion Hco as [fr0 E1 E2 E3
                     |fr0 stk0 pth0 anc0 gp Hco' Hlev' Hidx Hed' E1 E2 E3];
      [now subst prev|].
    subst fr0 stk0 pth anc.
    rewrite !removelast_last, last_last.
    pose proof (frame_key_slot gp fr Hlev') as Hfk.
    pose proof Hlev' as (HinA' & Hks' & Hrange').
    pose proof (level_edits_container _ _ _ Hed') as Hc'.
    apply Forall_app. split.
    + eapply Forall_impl; [|exact Hbh]. simpl. intros e [_ Hah].
      inversion Hah as [fr1 G1 G2 G3
                       |fr1 stk1 pth1 anc1 gp1 Hah' Hnot G1 G2 G3].
      { destruct pth0; discriminate G2. }
      subst fr1 stk1.
      apply app_inj_tail in G2. destruct G2 as [-> _].
      apply app_inj_tail in G3. destruct G3 as [-> ->].
      split; [exact Hnot|exact Hah'].
    + destruct Hnew as [[-> _]|(c & -> & Hcp)]; constructor; [|constructor].
      simpl. rewrite Hcp. split.
      * rewrite Hks' in Hrange'.
        intros j Hj. rewrite Hfk. apply sibling_not_prefix; try assumption;
          lia.
      * exact (ahead_coherent prev pth0 anc0 Hco' [frame_key fr]).
  - destruct (entering_step W v root st st' Hinv Hlv Hb)
      as (r & u' & new & Hnew & Hst).
    destruct st as [stk inA ks idx es par pth anc nx u cs].
    unfold run_invariant, calls_behind in *. simpl in *.
    destruct Hinv as (Hlev & Hed & Hco).
    pose proof Hlev as (HinA & Hks & Hrange).
    assert (0 <= idx + 1 < keys_length (keys_of par))%Z as Hi
      by (rewrite <- Hks; lia).
    destruct Hst as [->|(node' & Hn' & ->)]; simpl;
      apply Forall_app; split.
    + eapply Forall_impl; [|exact Hbh]. simpl. intros e [Hnot Hah].
      split; [|exact Hah]. intros j Hj. apply Hnot. lia.
    + destruct Hnew as [[-> _]|(c & -> & Hcp)]; constructor; [|constructor].
      simpl. rewrite Hcp. split.
      * intros j Hj. apply sibling_not_prefix; try assumption; lia.
      * exact (ahead_coherent stk pth anc Hco _).
    + eapply Forall_impl; [|exact Hbh]. simpl. intros e [Hnot Hah].
      split.
      * intros j Hj Hpre. apply is_prefix_shorter in Hpre.
        apply (Hnot (idx + 1)%Z); [lia|exact Hpre].
      * set (es' := edits_after_entering es (slot_key_of par (idx + 1)) r).
        set (fr' := mkFrame inA (idx + 1) ks es').
        assert (frame_key fr' = slot_key_of par (idx + 1)) as Hfk
          by (unfold frame_key, slot_key_of; simpl; now rewrite HinA, Hks).
        rewrite <- Hfk. apply ahead_push; [exact Hah|].
        simpl. intros j Hj. apply Hnot. lia.
    + destruct Hnew as [[-> _]|(c & -> & Hcp)]; constructor; [|constructor].
      simpl. rewrite Hcp. split.
      * intros j Hj [rest Hpre].
        apply (f_equal (@List.length key)) in Hpre.
        repeat rewrite length_app in Hpre. simpl in Hpre. lia.
      * set (es' := edits_after_entering es (slot_key_of par (idx + 1)) r).
        set (fr' := mkFrame inA (idx + 1) ks es').
        assert (frame_key fr' = slot_key_of par (idx + 1)) as Hfk
          by (unfold frame_key, slot_key_of; simpl; now rewrite HinA, Hks).
        rewrite <- Hfk. apply ahead_push.
        -- exact (ahead_coherent stk pth anc Hco _).
        -- simpl. intros j Hj. rewrite Hfk.
           apply sibling_not_prefix; try assumption; lia.
Qed.

Lemma behind_start (u : W) (st' : state W) :
  body v root (initial root u) = Next st' -> stack st' <> [] ->
  calls_behind st'.
Proof.
  unfold body. simpl. intros Hb Hstk.
  destruct (is_nullish root).
  { inversion Hb; subst st'. now simpl in Hstk. }
  apply entering_outcome in Hb. simpl in Hb.
  destruct Hb as (r & u' & new & Hnew & [->|(node' & Hn' & ->)]);
    [now simpl in Hstk|].
  unfold calls_behind. simpl.
  destruct Hnew as [[-> _]|(c & -> & Hcp)]; constructor; [|constructor].
  simpl in *. rewrite Hcp. split; [|constructor].
  intros j Hj [rest Hpre]. discriminate Hpre.
Qed.

Lemma behind_advance : forall n (st st' : state W),
  run_invariant st -> calls_behind st ->
  advance v root n st = Some st' -> calls_behind st'.
Proof.
  induction n as [|n IH]; simpl; intros st st' Hinv Hbh H.
  - now inversion H; subst.
  - destruct (body v root st) as [s1| |] eqn:Hb; try discriminate.
    destruct (stack s1) eqn:Es; try discriminate.
    assert (stack s1 <> []) as Hne by (rewrite Es; discriminate).
    apply (IH s1); [| |exact H].
    + exact (body_keeps_invariant W v root st s1 Hinv Hb Hne).
    + exact (behind_kept st s1 Hinv Hbh Hb Hne).
Qed.

(** In every state a run reaches after its first iteration, the calls made
    so far are behind. *)
Lemma reached_behind (u : W) n (st : state W) :
  advance v root (S n) (initial root u) = Some st -> calls_behind st.
Proof.
  simpl. destruct (body v root (initial root u)) as [s1| |] eqn:Hb;
    try discriminate.
  destruct (stack s1) eqn:Es; try discriminate.
  assert (stack s1 <> []) as Hne by (rewrite Es; discriminate).
  apply behind_advance; [|exact (behind_start u s1 Hb Hne)].
  exact (first_iteration_invariant W v root u s1 Hb Hne).
Qed.

(** A run that ends went through every state it reached. *)
Lemma run_through : forall n (st s0 final : state W) fuel b,
  advance v root n st = Some s0 ->
  loop v root fuel st = Stopped final b ->
  exists fuel', loop v root fuel' s0 = Stopped final b.
Proof.
  induction n as [|n IH]; simpl; intros st s0 final fuel b Ha Hl.
  - inversion Ha; subst. now exists fuel.
  - destruct fuel as [|fuel]; [discriminate|]. simpl in Hl.
    destruct (body v root st) as [s1| |] eqn:Hb; try discriminate.
    destruct (stack s1) eqn:Es; try discriminate.
    exact (IH s1 s0 final fuel b Ha Hl).
Qed.

End Behind.

(** ** Skipping a subtree, to the end of the run *)

Lemma visit_returns (W : Type) (v : visitor W) root u fuel x final b :
  visit fuel root v u = Returned x final b ->
  loop v root fuel (initial root u) = Stopped final b
  /\ x = root_value root (edits final).
Proof.
  unfold visit, root_value.
  destruct (loop v root fuel (initial root u)) as [st bb| |];
    try discriminate.
  intros H. inversion H; subst. split; reflexivity.
Qed.

(** C4, as amended. Take any state [s0] that a traversal reaches, in which
    the next slot holds a node and the function chosen for entering that
    node returns [false].  Then the iteration ends with that one call
    recorded, no edit recorded, no level saved, and the cursor on the slot;
    no call made before was made at the path of the node or below; and in
    every finished run no call is made afterwards at the path of the node
    or below (so no function is called on a descendant, and the function
    for leaving the node is never called).  When the run is not ended by
    [BREAK] and every call made afterwards on leaving one of the ancestors
    of the node returns [undefined], the value returned has the node
    itself at a traversal position. *)
Theorem enter_false_skips_subtree (W : Type) (v : visitor W) (root : value)
  (u : W) (n : nat) (s0 : state W) (h : handler W) :
  let i := (index s0 + 1)%Z in
  let k := if truthy (parent s0) then slot_key s0 i else KUndef in
  let node := if truthy (parent s0) then get_prop (parent s0) k else root in
  let p := if truthy (parent s0) then path s0 ++ [k] else path s0 in
  let c := mkCall node k (parent s0) p (ancestors s0) in
  let s1 :=
    mkState (stack s0) (inArray s0) (keys s0) i (edits s0) (parent s0)
      (removelast p) (ancestors s0) (next s0) (snd (h c (user s0)))
      (calls s0 ++ [mkEvent false c (VBool false)]) in
  advance v root n (initial root u) = Some s0 ->
  i <> keys_length (keys s0) ->
  isNode node = true ->
  getVisitFn v (kind_of node) false = Some h ->
  fst (h c (user s0)) = VBool false ->
  body v root s0 = Next s1
  /\ none_below p (calls s0)
  /\ forall fuel x final b,
       visit fuel root v u = Returned x final b ->
       exists later,
         calls final = calls s1 ++ later
         /\ none_below p later
         /\ (b = false -> ancestors_left_alone p later -> occurs node x).
Proof.
  intros i k node p c s1 Hadv Hi Hnode Hfn Hres.
  assert (body v root s0 = Next s1) as Hbody.
  { apply (enter_false_iteration W v root s0 h (snd (h c (user s0))));
      try assumption.
    rewrite (surjective_pairing (h _ _)). fold i k node p c.
    now rewrite Hres. }
  split; [exact Hbody|].
  destruct n as [|n].
  - simpl in Hadv. inversion Hadv; subst s0. simpl in *.
    split; [constructor|].
    intros fuel x final b Hv. apply visit_returns in Hv.
    destruct Hv as [Hl ->].
    destruct fuel as [|fuel]; [discriminate|]. simpl in Hl.
    rewrite Hbody in Hl. simpl in Hl. inversion Hl; subst final b.
    exists []. split; [reflexivity|]. split; [constructor|].
    intros _ _. simpl. constructor.
  - pose proof (reached_invariant W v root u n s0 Hadv) as Hinv.
    pose proof (reached_links W v root u n s0 Hadv) as Hli.
    pose proof (reached_behind W v root u n s0 Hadv) as Hbh.
    pose proof (invariant_container W s0 Hinv) as Hc.
    assert (truthy (parent s0) = true) as Hpar
      by (destruct Hc as [H|H]; destruct (parent s0); try discriminate;
          reflexivity).
    pose proof Hinv as ((HinA & Hks & Hrange) & Hed & Hco).
    assert (slot_key s0 i = slot_key_of (parent s0) i) as Hk
      by (unfold slot_key, slot_key_of; now rewrite <- HinA, <- Hks).
    assert (0 <= i < keys_length (keys_of (parent s0)))%Z as Hin
      by (rewrite <- Hks; unfold i in *; lia).
    assert (stack s0 <> []) as Hne by exact (coherent_stack _ _ _ Hco).
    subst s1 c p node k. rewrite Hpar in *. rewrite Hk in *.
    set (k := slot_key_of (parent s0) i) in *.
    set (node := get_prop (parent s0) k) in *.
    set (p := path s0 ++ [k]) in *.
    set (c := mkCall node k (parent s0) p (ancestors s0)) in *.
    set (s1 := mkState (stack s0) (inArray s0) (keys s0) i (edits s0)
                 (parent s0) (removelast p) (ancestors s0) (next s0)
                 (snd (h c (user s0)))
                 (calls s0 ++ [mkEvent false c (VBool false)])) in *.
    split.
    + eapply Forall_impl; [|exact Hbh]. simpl. intros e [Hnot _].
      apply Hnot. unfold i in *. lia.
    + intros fuel x final b Hv. apply visit_returns in Hv.
      destruct Hv as [Hl ->].
      destruct (run_through W v root (S n) _ s0 final fuel b Hadv Hl)
        as [fuel' Hl'].
      destruct fuel' as [|fuel']; [discriminate|]. simpl in Hl'.
      rewrite Hbody in Hl'. simpl in Hl'.
      destruct (stack s0) as [|fr stk] eqn:Es; [contradiction|].
      assert (stack s1 <> []) as Hne1 by (simpl; try rewrite Es; discriminate).
      assert (carried node p True s1) as Hca.
      { left. exists i. simpl. split; [unfold i; lia|].
        unfold p. rewrite removelast_last. split.
        - exists []. now rewrite app_nil_r.
        - intros _.
          change (occurs node
                    (slot_value (parent s0) (edits s0)
                       (slot_key_of (parent s0) i))).
          rewrite (slot_ahead (parent s0) (index s0) (edits s0) i Hc
                     (proj2 Hli)); [constructor|unfold i; lia|lia]. }
      destruct (kept_to_the_end node p Hnode W v root fuel' True s1 final b
                  (body_keeps_invariant W v root s0 s1 Hinv Hbody Hne1)
                  (links_kept W v root s0 s1 Hinv Hli Hbody Hne1) Hca Hl')
        as (later & Hcalls & Hnone & Hocc).
      exists later. split; [exact Hcalls|]. split; [exact Hnone|].
      intros Hb Hala. now apply Hocc.
Qed.

(** ** A [false] on the way out, to the end of the run *)

(** C10, as amended. Take any state [s0] that a traversal reaches, in which
    a node is left whose level has edits pending and the function chosen
    for leaving returns [false] on the copy built with those edits.  Then
    the iteration ends with the copy not recorded: the edits of the level
    above are those saved when the node was entered.  When the run is not
    ended by [BREAK] and every call made afterwards on leaving one of the
    ancestors of the node returns [undefined], the value returned has, at
    a traversal position, the node as the traversal entered it, without
    the edits made below it. *)
Theorem leave_false_discards_subtree_edits (W : Type) (v : visitor W)
  (root : value) (u : W) (n : nat) (s0 : state W) (fr : frame)
  (prev : list frame) (h : handler W) :
  let copy :=
    clone_with_edits (inArray s0) (parent s0) (edits s0) (next s0) in
  let k := if Nat.eqb (List.length (ancestors s0)) 0 then KUndef
           else last (path s0) KUndef in
  let c := mkCall copy k (last (ancestors s0) VUndef) (path s0)
             (removelast (ancestors s0)) in
  let s1 :=
    mkState prev (f_inArray fr) (f_keys fr) (f_index fr) (f_edits fr)
      (last (ancestors s0) VUndef) (removelast (path s0))
      (removelast (ancestors s0)) (S (next s0)) (snd (h c (user s0)))
      (calls s0 ++ [mkEvent true c (VBool false)]) in
  advance v root n (initial root u) = Some s0 ->
  (index s0 + 1)%Z = keys_length (keys s0) ->
  edits s0 <> [] ->
  stack s0 = fr :: prev ->
  isNode (parent s0) = true ->
  getVisitFn v (kind_of copy) true = Some h ->
  fst (h c (user s0)) = VBool false ->
  body v root s0 = Next s1
  /\ forall fuel x final b,
       visit fuel root v u = Returned x final b ->
       exists later,
         calls final = calls s1 ++ later
         /\ (b = false -> ancestors_left_alone (path s0) later ->
             occurs (parent s0) x).
Proof.
  intros copy k c s1 Hadv Hlv He Hs Hnode Hfn Hres.
  assert (body v root s0 = Next s1) as Hbody.
  { apply (leave_false_iteration W v root s0 fr prev h
             (snd (h c (user s0)))); try assumption.
    rewrite (surjective_pairing (h _ _)). fold copy k c.
    now rewrite Hres. }
  split; [exact Hbody|].
  destruct n as [|n].
  { simpl in Hadv. inversion Hadv; subst s0. simpl in Hlv. discriminate. }
  pose proof (reached_invariant W v root u n s0 Hadv) as Hinv.
  pose proof (reached_links W v root u n s0 Hadv) as Hli.
  intros fuel x final b Hv. apply visit_returns in Hv.
  destruct Hv as [Hl ->].
  destruct (run_through W v root (S n) _ s0 final fuel b Hadv Hl)
    as [fuel' Hl'].
  destruct fuel' as [|fuel']; [discriminate|]. simpl in Hl'.
  rewrite Hbody in Hl'. simpl in Hl'.
  destruct prev as [|fr2 prev2].
  - inversion Hl'; subst final b.
    exists []. split; [symmetry; apply app_nil_r|].
    intros _ _. simpl.
    destruct Hli as [Hli _]. rewrite Hs in Hli.
    inversion Hli as [fr0 par0 Hp0 F1 F2 F3
                     |fr0 stk0 anc' gp' par0 Hli' Hbe' Hp0 F1 F2 F3].
    + rewrite <- Hp0. constructor.
    + subst stk0. inversion Hli'.
  - assert (stack s1 <> []) as Hne1 by (simpl; discriminate).
    pose proof (body_keeps_invariant W v root s0 s1 Hinv Hbody Hne1)
      as Hinv1.
    pose proof (links_kept W v root s0 s1 Hinv Hli Hbody Hne1) as Hli1.
    assert (carried (parent s0) (path s0) True s1) as Hca.
    { left. exists (f_index fr). simpl.
      destruct Hinv as (_ & _ & Hco). destruct Hli as [Hli _].
      rewrite Hs in Hco, Hli.
      inversion Hco as [fr0 E1 E2 E3
                       |fr0 stk0 pth0 anc0 gp Hco' Hlev' Hidx Hed' E1 E2 E3].
      subst fr0 stk0.
      inversion Hli as [fr0 par0 Hp0 F1 F2 F3
                       |fr0 stk0 anc' gp' par0 Hli' Hbe' Hp0 F1 F2 F3].
      subst fr0 stk0 par0. rewrite <- E3 in F2.
      apply app_inj_tail in F2. destruct F2 as [-> ->].
      rewrite !removelast_last, last_last.
      unfold carries. rewrite <- (frame_key_slot gp fr Hlev').
      split; [lia|]. split.
      - exists []. now rewrite app_nil_r.
      - intros _. rewrite <- Hp0. constructor. }
    destruct (kept_to_the_end (parent s0) (path s0) Hnode W v root fuel'
                True s1 final b Hinv1 Hli1 Hca Hl')
      as (later & Hcalls & _ & Hocc).
    exists later. split; [exact Hcalls|].
    intros Hb Hala. now apply Hocc.
Qed.

(** With [skip_b] on the sample tree: nothing is called at the path of [b]
    or below it apart from the call that returns [false], and the tree
    returned has [b] itself. *)
Lemma enter_false_skips_subtree_witness :
  none_below [KName "selections"; KIdx 1] (calls SampleStates.before_b)
  /\ exists c later,
       c_node c = SampleKept.b
       /\ calls SampleKept.skipped
          = (calls SampleStates.before_b ++ [mkEvent false c (VBool false)])
            ++ later
       /\ none_below [KName "selections"; KIdx 1] later
       /\ occurs SampleKept.b Sample.tree.
Proof.
  destruct (enter_false_skips_subtree unit Sample.skip_b Sample.tree tt 10
              SampleStates.before_b
              (fun c u => (if Sample.named "b" c then VBool false
                           else VUndef, u)))
    as (Hbody & Hbefore & Hrun).
  - vm_compute. reflexivity.
  - vm_compute. discriminate.
  - reflexivity.
  - reflexivity.
  - reflexivity.
  - split; [exact Hbefore|].
    destruct (Hrun 40 Sample.tree SampleKept.skipped false)
      as (later & Hcalls & Hnone & Hocc); [vm_compute; reflexivity|].
    eexists. exists later. split; [|split; [exact Hcalls|]].
    + reflexivity.
    + split; [exact Hnone|]. apply Hocc; [reflexivity|].
      assert (Forall (fun e => ev_leaving e = false)
                (calls SampleKept.skipped)) as Hall
        by (vm_compute; repeat constructor).
      intros e He Hlv _. rewrite Forall_forall in Hall.
      rewrite (Hall e) in Hlv; [discriminate|].
      rewrite Hcalls. apply in_or_app. now right.
Defined.

(** With [delete_x_then false] on the sample tree: [x] is deleted below
    [b], the copy of [b] without [x] is given to the function for leaving
    and dropped, and the tree returned has [b] as it was. *)
Lemma leave_false_discards_subtree_edits_witness :
  edits SampleStates.leaving_b <> []
  /\ exists s1,
       body (Sample.delete_x_then (VBool false)) Sample.tree
         SampleStates.leaving_b = Next s1
       /\ edits s1 = []
       /\ occurs SampleKept.b Sample.tree.
Proof.
  split; [discriminate|].
  destruct (leave_false_discards_subtree_edits unit
              (Sample.delete_x_then (VBool false)) Sample.tree tt 28
              SampleStates.leaving_b
              (hd (mkFrame false 0 (KNames []) [])
                 (stack SampleStates.leaving_b))
              (tl (stack SampleStates.leaving_b))
              (fun c u => (if Sample.named "x" c then VNull
                           else if Sample.named "b" c then VBool false
                           else VUndef, u)))
    as (Hbody & Hrun).
  - vm_compute. reflexivity.
  - reflexivity.
  - discriminate.
  - reflexivity.
  - reflexivity.
  - reflexivity.
  - reflexivity.
  - eexists. split; [exact Hbody|]. split; [reflexivity|].
    destruct (Hrun 60 Sample.tree SampleLevels.ended false)
      as (later & Hcalls & Hocc); [vm_compute; reflexivity|].
    apply Hocc; [reflexivity|].
    assert (Forall (fun e => 2 <= List.length (c_path (ev_call e)))
              (calls SampleLevels.ended)) as Hall
      by (vm_compute; repeat constructor).
    intros e He _ (k & rest & Hp). rewrite Forall_forall in Hall.
    assert (2 <= List.length (c_path (ev_call e))) as Hlen
      by (apply Hall; rewrite Hcalls; apply in_or_app; now right).
    apply (f_equal (@List.length key)) in Hp.
    rewrite length_app in Hp. simpl in Hp. lia.
Defined.


(** ** Runs in which the node is lost *)

(** Against C4 as it stands: a field is skipped by [false] on entering, and
    the value returned does not have it.  In the first run the function for
    leaving the root gives another selection set in its place.  In the
    second the traversal is stopped by [BREAK] at [c] and returns the last
    edit of the level it stopped in, the node put in place of [a].  In the
    third the field skipped is [y], inside the node put in place of [b],
    and the function for leaving the root returns [false], so that the
    copy of the root is dropped and the tree given is returned. *)
Lemma enter_false_node_not_in_result :
  (visit 40 Sample.tree SampleKept.skip_b_replace_root tt
   = Returned SampleKept.emptied SampleKept.skip_replaced false
   /\ (exists c,
         In (mkEvent false c (VBool false)) (calls SampleKept.skip_replaced)
         /\ c_node c = SampleKept.b)
   /\ ~ occurs SampleKept.b SampleKept.emptied)
  /\ (visit 40 Sample.tree SampleKept.skip_b_break_at_c tt
      = Returned Sample.z SampleKept.skip_stopped true
      /\ (exists c,
            In (mkEvent false c (VBool false)) (calls SampleKept.skip_stopped)
            /\ c_node c = SampleKept.b)
      /\ ~ occurs SampleKept.b Sample.z)
  /\ (visit 60 Sample.tree SampleKept.skip_y_refuse_root tt
      = Returned Sample.tree SampleKept.skip_refused false
      /\ (exists c,
            In (mkEvent false c (VBool false)) (calls SampleKept.skip_refused)
            /\ c_node c = SampleKept.y)
      /\ ~ occurs SampleKept.y Sample.tree).
Proof.
  split; [|split]; (split; [vm_compute; reflexivity|split]).
  - eexists. split; [simpl; right; right; left; reflexivity|reflexivity].
  - intros H. not_there.
  - eexists. split; [simpl; right; left; reflexivity|reflexivity].
  - intros H. not_there.
  - eexists. split; [simpl; do 3 right; left; reflexivity|reflexivity].
  - intros H. not_there.
Qed.

(** Against C10 as it stands: a field is deleted below a node, the function
    for leaving that node returns [false] on its copy, and the value
    returned does not have the node.  In the first run the node is [b] and
    the root is replaced on leaving.  In the second the node is [b] and the
    traversal is stopped by [BREAK] at [c].  In the third the node is
    [b2], put in place of [b] on entering, and the function for leaving
    the root returns [false].  In the fourth run the value returned does
    have [b], but not at the place it had: [a] is deleted before it, and
    [b] is the first of the selections where it was the second. *)
Lemma leave_false_node_not_in_result :
  (visit 60 Sample.tree SampleKept.drop_x_replace_root tt
   = Returned SampleKept.emptied SampleKept.drop_replaced false
   /\ (exists c c',
         In (mkEvent false c VUndef) (calls SampleKept.drop_replaced)
         /\ c_node c = SampleKept.b
         /\ In (mkEvent true c' (VBool false))
              (calls SampleKept.drop_replaced)
         /\ c_path c' = c_path c
         /\ c_node c' <> SampleKept.b)
   /\ ~ occurs SampleKept.b SampleKept.emptied)
  /\ (visit 60 Sample.tree SampleKept.drop_x_break_at_c tt
      = Returned Sample.z SampleKept.drop_stopped true
      /\ (exists c c',
            In (mkEvent false c VUndef) (calls SampleKept.drop_stopped)
            /\ c_node c = SampleKept.b
            /\ In (mkEvent true c' (VBool false))
                 (calls SampleKept.drop_stopped)
            /\ c_path c' = c_path c
            /\ c_node c' <> SampleKept.b)
      /\ ~ occurs SampleKept.b Sample.z)
  /\ (visit 60 Sample.tree SampleKept.drop_y_refuse_root tt
      = Returned Sample.tree SampleKept.drop_refused false
      /\ (exists c c',
            In (mkEvent false c SampleKept.b2)
              (calls SampleKept.drop_refused)
            /\ In (mkEvent true c' (VBool false))
                 (calls SampleKept.drop_refused)
            /\ c_path c' = c_path c
            /\ c_node c' <> SampleKept.b2)
      /\ ~ occurs SampleKept.b2 Sample.tree)
  /\ (visit 60 Sample.tree SampleKept.drop_a_and_x tt
      = Returned SampleKept.without_a SampleKept.drop_shifted false
      /\ get_prop (get_prop Sample.tree (KName "selections")) (KIdx 1)
         = SampleKept.b
      /\ get_prop (get_prop SampleKept.without_a (KName "selections"))
           (KIdx 1)
         <> SampleKept.b
      /\ get_prop (get_prop SampleKept.without_a (KName "selections"))
           (KIdx 0)
         = SampleKept.b).
Proof.
  split; [|split; [|split]];
    [| | |repeat split; vm_compute; (reflexivity || discriminate)];
    (split; [vm_compute; reflexivity|split]).
  - eexists. eexists.
    split; [simpl; right; right; left; reflexivity|].
    split; [reflexivity|].
    split; [simpl; do 6 right; left; reflexivity|].
    split; [reflexivity|discriminate].
  - intros H. not_there.
  - eexists. eexists.
    split; [simpl; right; right; left; reflexivity|].
    split; [reflexivity|].
    split; [simpl; do 5 right; left; reflexivity|].
    split; [reflexivity|discriminate].
  - intros H. not_there.
  - eexists. eexists.
    split; [simpl; right; right; left; reflexivity|].
    split; [simpl; do 6 right; left; reflexivity|].
    split; [reflexivity|discriminate].
  - intros H. not_there.
Qed.
